(** * The crossword constraint-satisfaction solver (week3/crossword/generate.py)

    A shallow embedding of [CrosswordCreator] and a verification of its
    node-consistency filter, its AC-3 propagator, its ordering heuristics and
    its backtracking search.

    Conventions of the embedding.
    - A Python [set] or [dict] is a duplicate-free list in its iteration
      order; the results that speak about membership do not depend on that
      order, the ones that speak about "the variable returned" do.
    - A Python exception is an explicit [Raise]; a loop that the model bounds
      by a budget returns [OutOfFuel] when the budget is too small, and the
      budgets used by [solve] are proved sufficient.
    - [self.domains] is threaded through every method that writes it. *)

From Stdlib Require Import String Ascii NArith Arith Bool Lia PeanoNat.
From Stdlib Require Import List Permutation Sorted.
Import ListNotations.

(** ** Python exceptions and the result of a call *)

Inductive exn : Type :=
| KeyError        (* missing dict key, or set.remove of an absent element *)
| IndexError      (* string index out of range *)
| TypeError.      (* subscripting None *)

Inductive outcome (A : Type) : Type :=
| Ok (a : A)
| Raise (e : exn)
| OutOfFuel.

Arguments Ok {A} a.
Arguments Raise {A} e.
Arguments OutOfFuel {A}.

Definition bind {A B : Type} (c : outcome A) (k : A -> outcome B) : outcome B :=
  match c with
  | Ok a => k a
  | Raise e => Raise e
  | OutOfFuel => OutOfFuel
  end.

Notation "x <- c ;; k" := (bind c (fun x => k))
  (at level 61, c at next level, right associativity).
Notation "' pat <- c ;; k" := (bind c (fun x => match x with pat => k end))
  (at level 61, pat pattern, c at next level, right associativity).

(** A [for] loop without early exit, threading the loop state. *)
Fixpoint for_each {A S : Type} (l : list A) (body : A -> S -> outcome S) (s : S)
  : outcome S :=
  match l with
  | [] => Ok s
  | a :: l' => s' <- body a s ;; for_each l' body s'
  end.

(** The values a Python function of this program returns where it is
    documented to return a boolean. *)
Inductive pyval : Type := PyTrue | PyFalse | PyNone.

Definition truthy (v : pyval) : bool :=
  match v with PyTrue => true | _ => false end.

(** ** Strings and sets of words *)

(** [word[k]]. *)
Definition str_index (word : string) (k : nat) : outcome ascii :=
  match String.get k word with
  | Some c => Ok c
  | None => Raise IndexError
  end.

(** [s.remove(word)] on a set: [KeyError] when [word] is absent. *)
Fixpoint set_remove (s : list string) (word : string) : outcome (list string) :=
  match s with
  | [] => Raise KeyError
  | w :: s' =>
      if String.eqb w word then Ok s'
      else r <- set_remove s' word ;; Ok (w :: r)
  end.

(** [word in l]. *)
Definition word_in (word : string) (l : list string) : bool :=
  existsb (String.eqb word) l.

(** ** The grid model (crossword.py is not part of the sources) *)

Inductive Direction : Type := ACROSS | DOWN.

(** Modelled from the spec: the class [Variable] of crossword.py, a word slot
    with its starting row [i], starting column [j], orientation and length
    (read by [letter_grid] and [consistent] as [variable.i], [variable.j],
    [variable.direction], [var.length]). *)
Record Var : Type := mkVar {
  var_i : nat;
  var_j : nat;
  var_direction : Direction;
  var_length : nat
}.

Definition Direction_eqb (a b : Direction) : bool :=
  match a, b with
  | ACROSS, ACROSS | DOWN, DOWN => true
  | _, _ => false
  end.

(** Modelled from the spec: equality of variables, "two variables are equal
    iff all four attributes match". *)
Definition Var_eqb (x y : Var) : bool :=
  (var_i x =? var_i y) && (var_j x =? var_j y)
  && Direction_eqb (var_direction x) (var_direction y)
  && (var_length x =? var_length y).

(** Modelled from the spec: the part of the class [Crossword] of crossword.py
    that the solver reads.  [variables] and [words] are Python sets;
    [overlaps_table] is the content of the [overlaps] dict, taken as given by
    the grid model. *)
Record Crossword : Type := mkCrossword {
  variables : list Var;
  words : list string;
  overlaps_table : Var -> Var -> option (nat * nat)
}.

Definition var_in (x : Var) (l : list Var) : bool := existsb (Var_eqb x) l.

(** Modelled from the spec: [crossword.overlaps[x, y]], the lookup in the
    mapping "from every ordered pair of distinct variables"; any other key is
    absent from the dict. *)
Definition overlaps (cw : Crossword) (x y : Var) : outcome (option (nat * nat)) :=
  if var_in x (variables cw) && var_in y (variables cw) && negb (Var_eqb x y)
  then Ok (overlaps_table cw x y)
  else Raise KeyError.

Definition is_some {A : Type} (o : option A) : bool :=
  match o with Some _ => true | None => false end.

(** Modelled from the spec: [crossword.neighbors(var)], the variables that
    share an overlap with [var], iterated in the order of [variables]. *)
Definition neighbors (cw : Crossword) (var : Var) : list Var :=
  filter (fun v => negb (Var_eqb v var) && is_some (overlaps_table cw v var))
         (variables cw).

(** ** The domain store and the assignment: dicts keyed by variables *)

Definition dict (V : Type) : Type := list (Var * V).

Fixpoint dict_get {V : Type} (d : dict V) (k : Var) : outcome V :=
  match d with
  | [] => Raise KeyError
  | (k', v) :: d' => if Var_eqb k' k then Ok v else dict_get d' k
  end.

Fixpoint dict_mem {V : Type} (d : dict V) (k : Var) : bool :=
  match d with
  | [] => false
  | (k', _) :: d' => Var_eqb k' k || dict_mem d' k
  end.

(** [d[k] = v] and [d.update({k: v})]: in place for a present key, at the
    end for a new one. *)
Fixpoint dict_set {V : Type} (d : dict V) (k : Var) (v : V) : dict V :=
  match d with
  | [] => [(k, v)]
  | (k', v') :: d' =>
      if Var_eqb k' k then (k', v) :: d' else (k', v') :: dict_set d' k v
  end.

(** [del d[k]]. *)
Fixpoint dict_del {V : Type} (d : dict V) (k : Var) : outcome (dict V) :=
  match d with
  | [] => Raise KeyError
  | (k', v') :: d' =>
      if Var_eqb k' k then Ok d'
      else r <- dict_del d' k ;; Ok ((k', v') :: r)
  end.

Definition keys {V : Type} (d : dict V) : list Var := map fst d.

Definition Domains : Type := dict (list string).
Definition Assignment : Type := dict string.

(** [self.domains[var].remove(word)]: the set stored under [var] is mutated
    in place. *)
Definition domains_remove (D : Domains) (var : Var) (word : string)
  : outcome Domains :=
  s <- dict_get D var ;;
  s' <- set_remove s word ;;
  Ok (dict_set D var s').

(** ** CrosswordCreator *)

(** [__init__]: every variable starts with a copy of the whole dictionary. *)
Definition init_domains (cw : Crossword) : Domains :=
  map (fun var => (var, words cw)) (variables cw).

(** [enforce_node_consistency]. *)
Definition enforce_node_consistency (cw : Crossword) (D : Domains)
  : outcome Domains :=
  for_each (variables cw) (fun var D1 =>
    for_each (words cw) (fun word D2 =>
      if negb (String.length word =? var_length var)
      then domains_remove D2 var word
      else Ok D2) D1) D.

(** The generator inside [any(...)] of [revise]: stops at the first match. *)
Fixpoint any_match (ky : nat) (letter : ascii) (ys : list string) : outcome bool :=
  match ys with
  | [] => Ok false
  | y_word :: ys' =>
      c <- str_index y_word ky ;;
      if Ascii.eqb c letter then Ok true else any_match ky letter ys'
  end.

(** One iteration of the loop of [revise] over the copy of the domain of
    [x]; the state is ([revision_made], [self.domains]). *)
Definition revise_word (x y : Var) (kx ky : nat) (word : string)
  (st : bool * Domains) : outcome (bool * Domains) :=
  let '(revision_made, D1) := st in
  letter <- str_index word kx ;;
  dy <- dict_get D1 y ;;
  possible_word <- any_match ky letter dy ;;
  if negb possible_word
  then D2 <- domains_remove D1 x word ;; Ok (true, D2)
  else Ok (revision_made, D1).

(** [revise(x, y)]: the returned pair is ([revision_made], [self.domains]). *)
Definition revise (cw : Crossword) (x y : Var) (D : Domains)
  : outcome (bool * Domains) :=
  ov <- overlaps cw x y ;;
  match ov with
  | None => Ok (false, D)
  | Some (kx, ky) =>
      dx <- dict_get D x ;;
      for_each dx (revise_word x y kx ky) (false, D)
  end.

(** [arc_queue.pop()]: the last element of a Python list, and the rest. *)
Definition list_pop {A : Type} (q : list A) : option (list A * A) :=
  match rev q with
  | [] => None
  | a :: r => Some (rev r, a)
  end.

(** The worklist [ac3] builds when [arcs] is None.  [x is not y] compares
    two keys of one dict, which are the same object exactly when equal. *)
Definition all_arcs (D : Domains) : list (Var * Var) :=
  flat_map (fun x =>
    flat_map (fun y => if negb (Var_eqb x y) then [(x, y)] else []) (keys D))
    (keys D).

(** The [while] loop of [ac3]; one unit of [fuel] per iteration. *)
Fixpoint ac3_loop (cw : Crossword) (fuel : nat) (arc_queue : list (Var * Var))
  (D : Domains) : outcome (pyval * Domains) :=
  match list_pop arc_queue with
  | None => Ok (PyNone, D)
  | Some (arc_queue1, (x, y)) =>
      match fuel with
      | 0 => OutOfFuel
      | S fuel' =>
          '(revise_result, D1) <- revise cw x y D ;;
          if (revise_result : bool) then
            dx <- dict_get D1 x ;;
            if length dx =? 0 then Ok (PyFalse, D1)
            else
              ac3_loop cw fuel'
                (arc_queue1 ++ map (fun neigh => (x, neigh)) (neighbors cw x)) D1
          else ac3_loop cw fuel' arc_queue1 D1
      end
  end.

(** [ac3(arcs)]: the returned pair is (return value, [self.domains]). *)
Definition ac3 (cw : Crossword) (fuel : nat) (arcs : option (list (Var * Var)))
  (D : Domains) : outcome (pyval * Domains) :=
  let arc_queue := match arcs with
                   | Some q => q
                   | None => all_arcs D
                   end in
  ac3_loop cw fuel arc_queue D.

Definition total_size (D : Domains) : nat :=
  list_sum (map (fun kv => length (snd kv)) D).

(** A number of iterations that [ac3] never exceeds. *)
Definition ac3_budget (cw : Crossword) (arcs : option (list (Var * Var)))
  (D : Domains) : nat :=
  length (match arcs with Some q => q | None => all_arcs D end)
  + length (variables cw) * total_size D.

(** [not word]: the empty string is the only falsy one. *)
Definition str_falsy (word : string) : bool :=
  match word with EmptyString => true | _ => false end.

(** [assignment_complete(assignment)]. *)
Definition assignment_complete (cw : Crossword) (assignment : Assignment)
  : outcome bool :=
  (fix loop (vars : list Var) : outcome bool :=
     match vars with
     | [] => Ok true
     | var :: vars' =>
         if dict_mem assignment var then
           word <- dict_get assignment var ;;
           if str_falsy word then Ok false else loop vars'
         else Ok false
     end) (variables cw).

(** The inner loop of [consistent] over the neighbors of [var]; [Ok false]
    is the early [return False]. *)
Fixpoint consistent_neighbors (cw : Crossword) (assignment : Assignment)
  (var : Var) (word : string) (ns : list Var) : outcome bool :=
  match ns with
  | [] => Ok true
  | neigh :: ns' =>
      if dict_mem assignment neigh then
        neigh_word <- dict_get assignment neigh ;;
        ov <- overlaps cw var neigh ;;
        match ov with
        | Some (k0, k1) =>
            c1 <- str_index neigh_word k1 ;;
            c0 <- str_index word k0 ;;
            if negb (Ascii.eqb c1 c0) then Ok false
            else consistent_neighbors cw assignment var word ns'
        | None => consistent_neighbors cw assignment var word ns'
        end
      else consistent_neighbors cw assignment var word ns'
  end.

(** The outer loop of [consistent] over [assignment.items()]. *)
Fixpoint consistent_items (cw : Crossword) (assignment : Assignment)
  (items : list (Var * string)) (all_words : list string) : outcome bool :=
  match items with
  | [] => Ok true
  | (var, word) :: items' =>
      if word_in word all_words then Ok false
      else
        if negb (var_length var =? String.length word) then Ok false
        else
          ok <- consistent_neighbors cw assignment var word (neighbors cw var) ;;
          if (ok : bool)
          then consistent_items cw assignment items' (all_words ++ [word])
          else Ok false
  end.

(** [consistent(assignment)]. *)
Definition consistent (cw : Crossword) (assignment : Assignment) : outcome bool :=
  consistent_items cw assignment assignment [].

(** [filter(pred, l)] with a predicate that may raise. *)
Fixpoint filter_m {A : Type} (pred : A -> outcome bool) (l : list A)
  : outcome (list A) :=
  match l with
  | [] => Ok []
  | a :: l' =>
      b <- pred a ;;
      r <- filter_m pred l' ;;
      Ok (if (b : bool) then a :: r else r)
  end.

(** [overlap_count(char, spot, var)]. *)
Definition overlap_count (D : Domains) (char : ascii) (spot : nat) (var : Var)
  : outcome nat :=
  dv <- dict_get D var ;;
  let current_amount := length dv in
  kept <- filter_m (fun word => c <- str_index word spot ;; Ok (Ascii.eqb c char)) dv ;;
  let after_filter := length kept in
  Ok (current_amount - after_filter).

(** The key function of [order_domain_values], closed over [var] and the
    unassigned [neighbors]. *)
Definition sort_function (cw : Crossword) (D : Domains) (var : Var)
  (unassigned : list Var) (word : string) : outcome nat :=
  for_each unassigned (fun neigh total_removed =>
    ov <- overlaps cw var neigh ;;
    match ov with
    | None => Raise TypeError
    | Some (k0, k1) =>
        char <- str_index word k0 ;;
        n <- overlap_count D char k1 neigh ;;
        Ok (total_removed + n)
    end) 0.

Fixpoint map_m {A B : Type} (f : A -> outcome B) (l : list A) : outcome (list B) :=
  match l with
  | [] => Ok []
  | a :: l' => b <- f a ;; r <- map_m f l' ;; Ok (b :: r)
  end.

(** Insertion of a keyed element in front of the first element whose key is
    not smaller. *)
Fixpoint insert_keyed {A : Type} (kx : nat * A) (l : list (nat * A))
  : list (nat * A) :=
  match l with
  | [] => [kx]
  | ky :: l' =>
      if fst kx <=? fst ky then kx :: l else ky :: insert_keyed kx l'
  end.

(** [sorted(l, key=f)]: each key is computed once, in order, and the sort is
    stable, which fixes the result; it is computed here by insertion. *)
Definition sorted_by_key {A : Type} (f : A -> outcome nat) (l : list A)
  : outcome (list A) :=
  ks <- map_m f l ;;
  Ok (map snd (fold_right insert_keyed [] (combine ks l))).

(** [order_domain_values(var, assignment)]. *)
Definition order_domain_values (cw : Crossword) (D : Domains) (var : Var)
  (assignment : Assignment) : outcome (list string) :=
  let unassigned :=
    filter (fun v => negb (dict_mem assignment v)) (neighbors cw var) in
  if length unassigned =? 0 then dict_get D var
  else
    copy_words <- dict_get D var ;;
    sorted_by_key (sort_function cw D var unassigned) copy_words.

(** The two locals of [select_unassigned_variable] that the loop compares
    against; the loop never assigns them. *)
Definition min_remaining_values : N := 1000000%N.
Definition current_highest_degree : nat := 0.

(** [select_unassigned_variable(assignment)]; [None] is Python's None. *)
Definition select_unassigned_variable (cw : Crossword) (D : Domains)
  (assignment : Assignment) : option Var :=
  fold_left (fun current_var (item : Var * list string) =>
    let '(var, ws) := item in
    if negb (dict_mem assignment var) then
      let remaining_values := N.of_nat (length ws) in
      let current_degree := length (neighbors cw var) in
      if (N.ltb remaining_values min_remaining_values
          || (N.eqb remaining_values min_remaining_values
              && (current_highest_degree <? current_degree)))%bool
      then Some var
      else current_var
    else current_var) D None.

(** The [for word in ordered_word_list] loop of [backtrack]; [rec] is the
    recursive call.  The assignment is one dict, shared by all the calls: the
    returned pair is (whether that dict is returned rather than None, its
    content on return). *)
Fixpoint backtrack_words (cw : Crossword)
  (rec : Assignment -> outcome (bool * Assignment)) (new_var : Var)
  (ws : list string) (assignment : Assignment) : outcome (bool * Assignment) :=
  match ws with
  | [] => Ok (false, assignment)
  | word :: ws' =>
      let a1 := dict_set assignment new_var word in
      is_consistant <- consistent cw a1 ;;
      if (is_consistant : bool) then
        '(result, a2) <- rec a1 ;;
        if (result : bool) then
          c <- consistent cw a2 ;;
          if (c : bool) then Ok (true, a2)
          else a3 <- dict_del a2 new_var ;; backtrack_words cw rec new_var ws' a3
        else a3 <- dict_del a2 new_var ;; backtrack_words cw rec new_var ws' a3
      else a3 <- dict_del a1 new_var ;; backtrack_words cw rec new_var ws' a3
  end.

(** [backtrack(assignment)]; one unit of [fuel] per level of recursion.
    When no variable is selected, [order_domain_values(None, ...)] raises
    whatever [neighbors(None)] does: it ends in a lookup under the key None. *)
Fixpoint backtrack (cw : Crossword) (D : Domains) (fuel : nat)
  (assignment : Assignment) : outcome (bool * Assignment) :=
  match fuel with
  | 0 => OutOfFuel
  | S fuel' =>
      complete <- assignment_complete cw assignment ;;
      if (complete : bool) then Ok (true, assignment)
      else
        match select_unassigned_variable cw D assignment with
        | None => Raise KeyError
        | Some new_var =>
            ordered_word_list <- order_domain_values cw D new_var assignment ;;
            backtrack_words cw (backtrack cw D fuel') new_var
                            ordered_word_list assignment
        end
  end.

(** A depth of recursion that [backtrack] never exceeds. *)
Definition backtrack_budget (D : Domains) : nat := S (length D).

(** [solve()]: the value of [ac3] is dropped. *)
Definition solve (cw : Crossword) (D : Domains) : outcome (option Assignment) :=
  D1 <- enforce_node_consistency cw D ;;
  '(_, D2) <- ac3 cw (ac3_budget cw None D1) None D1 ;;
  '(result, a) <- backtrack cw D2 (backtrack_budget D2) [] ;;
  Ok (if (result : bool) then Some a else None).

(** [CrosswordCreator(crossword).solve()], as [main] runs it. *)
Definition generate (cw : Crossword) : outcome (option Assignment) :=
  solve cw (init_domains cw).

(** ** Grids for concrete puzzles *)

(** The cells a variable covers, as [letter_grid] lays its letters out. *)
Definition cells (v : Var) : list (nat * nat) :=
  map (fun k =>
         (var_i v + match var_direction v with DOWN => k | ACROSS => 0 end,
          var_j v + match var_direction v with ACROSS => k | DOWN => 0 end))
      (seq 0 (var_length v)).

Definition cell_eqb (c d : nat * nat) : bool :=
  (fst c =? fst d) && (snd c =? snd d).

Fixpoint index_of (c : nat * nat) (l : list (nat * nat)) : option nat :=
  match l with
  | [] => None
  | d :: l' => if cell_eqb d c then Some 0
               else match index_of c l' with Some k => Some (S k) | None => None end
  end.

(** The first cell of [cs] that is also a cell of [ycells], with its index
    in each; [k] is the index of the head of [cs]. *)
Fixpoint shared_cell (ycells : list (nat * nat)) (k : nat) (cs : list (nat * nat))
  : option (nat * nat) :=
  match cs with
  | [] => None
  | c :: cs' =>
      match index_of c ycells with
      | Some k2 => Some (k, k2)
      | None => shared_cell ycells (S k) cs'
      end
  end.

(** Modelled from the spec: the [overlaps] entry of two variables, "derived
    purely from geometry": None when they share no cell, otherwise the
    indices of the shared cell in the one and in the other. *)
Definition grid_overlap (x y : Var) : option (nat * nat) :=
  shared_cell (cells y) 0 (cells x).

Definition grid (vars : list Var) (dictionary : list string) : Crossword :=
  mkCrossword vars dictionary grid_overlap.

(** The puzzle
<<
      _ _ # #
      _ # # #
      _ _ _ _
>>
    with a two-letter slot across the top, a three-letter slot down the left
    edge and a four-letter slot across the bottom. *)
Definition top : Var := mkVar 0 0 ACROSS 2.
Definition left : Var := mkVar 0 0 DOWN 3.
Definition bottom : Var := mkVar 2 0 ACROSS 4.

Definition chain_puzzle : Crossword :=
  grid [top; left; bottom] ["AX"; "ABC"; "DEF"; "CAAA"; "FAAA"]%string.

(** ** Predicates of the specification *)

(** [w[kx] == w'[ky]], both letters being there. *)
Definition letters_agree (kx ky : nat) (w w' : string) : Prop :=
  exists c, String.get kx w = Some c /\ String.get ky w' = Some c.

(** Some word of [dy] agrees with [w] on the overlap. *)
Definition supported (kx ky : nat) (dy : list string) (w : string) : Prop :=
  exists w', In w' dy /\ letters_agree kx ky w w'.

(** The same, as the test [revise] computes when no index is out of range. *)
Definition supported_b (kx ky : nat) (dy : list string) (w : string) : bool :=
  match String.get kx w with
  | Some c =>
      existsb (fun w' => match String.get ky w' with
                         | Some c' => Ascii.eqb c' c
                         | None => false
                         end) dy
  | None => false
  end.

(** Every word of every domain is supported across every defined overlap. *)
Definition arc_consistent (cw : Crossword) (D : Domains) : Prop :=
  forall x y kx ky dx dy w,
    overlaps cw x y = Ok (Some (kx, ky)) ->
    dict_get D x = Ok dx -> dict_get D y = Ok dy ->
    In w dx -> supported kx ky dy w.

(** Every word is long enough for the overlaps of its variable: no index of
    [revise] or [order_domain_values] is out of range. *)
Definition indexable (cw : Crossword) (D : Domains) : Prop :=
  forall x y kx ky dx dy,
    overlaps cw x y = Ok (Some (kx, ky)) ->
    dict_get D x = Ok dx -> dict_get D y = Ok dy ->
    (forall w, In w dx -> kx < String.length w)
    /\ (forall w, In w dy -> ky < String.length w).

(** [arc_consistent] and [indexable] as tests on the entries of a store. *)
Definition arc_consistent_b (cw : Crossword) (D : Domains) : bool :=
  forallb (fun xd : Var * list string =>
    forallb (fun yd : Var * list string =>
      match overlaps cw (fst xd) (fst yd) with
      | Ok (Some (kx, ky)) => forallb (supported_b kx ky (snd yd)) (snd xd)
      | _ => true
      end) D) D.

Definition indexable_b (cw : Crossword) (D : Domains) : bool :=
  forallb (fun xd : Var * list string =>
    forallb (fun yd : Var * list string =>
      match overlaps cw (fst xd) (fst yd) with
      | Ok (Some (kx, ky)) =>
          forallb (fun w => kx <? String.length w) (snd xd)
          && forallb (fun w => ky <? String.length w) (snd yd)
      | _ => true
      end) D) D.

(** The unary constraint: every word has the length of its variable. *)
Definition node_consistent (D : Domains) : Prop :=
  forall x dx w, dict_get D x = Ok dx -> In w dx -> String.length w = var_length x.

(** The overlap indices of a grid lie inside the two variables. *)
Definition overlaps_in_range (cw : Crossword) : Prop :=
  forall x y kx ky,
    overlaps cw x y = Ok (Some (kx, ky)) -> kx < var_length x /\ ky < var_length y.

(** The invariant of the grid model: "if (x,y) -> (k1,k2) then
    (y,x) -> (k2,k1)", over the variables of the crossword. *)
Definition overlaps_symmetric (cw : Crossword) : Prop :=
  forall x y k1 k2,
    In x (variables cw) -> In y (variables cw) ->
    overlaps_table cw x y = Some (k1, k2) -> overlaps_table cw y x = Some (k2, k1).

(** [variables] and [words] are sets. *)
Definition is_set {A : Type} (l : list A) : Prop := NoDup l.

(** Entry by entry, [D'] has the keys of [D] and a part of its words. *)
Definition shrinks (D' D : Domains) : Prop :=
  Forall2 (fun kv' kv =>
             fst kv' = fst kv
             /\ incl (snd kv') (snd kv)
             /\ length (snd kv') <= length (snd kv)) D' D.

(** The variables of the store that [assignment] does not bind. *)
Definition unassigned (D : Domains) (assignment : Assignment) : list Var :=
  filter (fun v => negb (dict_mem assignment v)) (keys D).

(** The words of the right length for [var], in dictionary order. *)
Definition fitting (cw : Crossword) (var : Var) : list string :=
  filter (fun word => String.length word =? var_length var) (words cw).

(** The call comes back, with a value or with an exception. *)
Definition returns {A : Type} (c : outcome A) : Prop := c <> OutOfFuel.

(** The store of [chain_puzzle] once it is node-consistent. *)
Definition chain_store : Domains :=
  [(top, ["AX"]); (left, ["ABC"; "DEF"]); (bottom, ["CAAA"; "FAAA"])]%string.

(** The same store as the first run of [ac3] leaves it. *)
Definition chain_store_ac3 : Domains :=
  [(top, ["AX"]); (left, ["ABC"]); (bottom, ["CAAA"; "FAAA"])]%string.

(** A dictionary that leaves no word for the left slot of the same grid. *)
Definition dead_puzzle : Crossword :=
  grid [top; left; bottom] ["AX"; "DEF"; "FAAA"]%string.

(** The store of [dead_puzzle] once it is node-consistent. *)
Definition dead_store : Domains :=
  [(top, ["AX"]); (left, ["DEF"]); (bottom, ["FAAA"])]%string.

(** The arcs of a worklist join two distinct keys of the store. *)
Definition arcs_of (D : Domains) (q : list (Var * Var)) : Prop :=
  forall x y, In (x, y) q -> In x (keys D) /\ In y (keys D) /\ x <> y.

(** No domain of the store holds a word. *)
Definition all_empty (D : Domains) : Prop :=
  forall x dx, dict_get D x = Ok dx -> dx = [].

(** [chain_puzzle] with its variables iterated in the opposite order, its
    node-consistent store, and that store as [ac3] leaves it. *)
Definition mirror_puzzle : Crossword :=
  grid [bottom; left; top] ["AX"; "ABC"; "DEF"; "CAAA"; "FAAA"]%string.

Definition mirror_store : Domains :=
  [(bottom, ["CAAA"; "FAAA"]); (left, ["ABC"; "DEF"]); (top, ["AX"])]%string.

Definition mirror_store_ac3 : Domains :=
  [(bottom, ["CAAA"]); (left, ["ABC"]); (top, ["AX"])]%string.

(** The operations that run against the store. *)
Inductive operation : Type :=
| NodeConsistency
| Revise (x y : Var)
| Ac3 (fuel : nat) (arcs : option (list (Var * Var)))
| Backtrack (fuel : nat) (assignment : Assignment).

(** [self.domains] after an operation.  [backtrack] and the methods it calls
    only read it. *)
Definition store_after (cw : Crossword) (op : operation) (D : Domains)
  : outcome Domains :=
  match op with
  | NodeConsistency => enforce_node_consistency cw D
  | Revise x y => '(_, D') <- revise cw x y D ;; Ok D'
  | Ac3 fuel arcs => '(_, D') <- ac3 cw fuel arcs D ;; Ok D'
  | Backtrack fuel assignment => _ <- backtrack cw D fuel assignment ;; Ok D
  end.

(** [w'[ky] != w[kx]] on letters that may be missing. *)
Definition letters_differ (c' c : option ascii) : bool :=
  match c', c with
  | Some a', Some a => negb (Ascii.eqb a' a)
  | _, _ => true
  end.

(** The words of the domain [dn] of a neighbor that disagree with [w] on
    the overlap [(kx, ky)]: the ones the choice of [w] would eliminate. *)
Definition eliminated_from (kx ky : nat) (w : string) (dn : list string) : nat :=
  length (filter (fun w' => letters_differ (String.get ky w') (String.get kx w)) dn).

(** The total over the unassigned neighbors of [var]. *)
Definition eliminated (cw : Crossword) (D : Domains) (assignment : Assignment)
  (var : Var) (w : string) : nat :=
  list_sum
    (map (fun n => match overlaps_table cw var n, dict_get D n with
                   | Some (kx, ky), Ok dn => eliminated_from kx ky w dn
                   | _, _ => 0
                   end)
         (filter (fun v => negb (dict_mem assignment v)) (neighbors cw var))).

(** The store has a domain for every variable. *)
Definition has_domains (cw : Crossword) (D : Domains) : Prop :=
  forall v, In v (variables cw) -> exists d, dict_get D v = Ok d.

(** Every bound word is a word of the dictionary. *)
Definition from_dictionary (cw : Crossword) (assignment : Assignment) : Prop :=
  forall v w, In (v, w) assignment -> In w (words cw).

(** Every candidate word is a word of the dictionary. *)
Definition store_from_dictionary (cw : Crossword) (D : Domains) : Prop :=
  forall x dx w, dict_get D x = Ok dx -> In w dx -> In w (words cw).

(** What a call of [backtrack] on [assignment] leaves behind: on None the
    dict is as it was on entry; otherwise it is complete and it either is
    as it was on entry or has passed [consistent]. *)
Definition backtrack_post (cw : Crossword) (assignment : Assignment)
  (res : bool * Assignment) : Prop :=
  (fst res = false -> snd res = assignment)
  /\ (fst res = true ->
      assignment_complete cw (snd res) = Ok true
      /\ (snd res = assignment \/ consistent cw (snd res) = Ok true)).

(** The same grid with a dictionary of words that fit no slot, and the grid
    without any slot. *)
Definition misfit_puzzle : Crossword :=
  grid [top; left; bottom] ["A"; "ABCDE"]%string.

Definition blocked_puzzle : Crossword := grid [] ["A"; "ABCDE"]%string.

(** The ring
<<
      _ _ _ _ _
      _ # # # _
      _ # # # _
      _ _ _ _ _
>>
    of two five-letter slots across and two four-letter slots down. *)
Definition ring_top : Var := mkVar 0 0 ACROSS 5.
Definition ring_bottom : Var := mkVar 3 0 ACROSS 5.
Definition ring_left : Var := mkVar 0 0 DOWN 4.
Definition ring_right : Var := mkVar 0 4 DOWN 4.

Definition ring_slots : list Var := [ring_top; ring_left; ring_right; ring_bottom].

Definition ring_words : list string :=
  ["AXXXA"; "PXXXQ"; "RXXXA"; "AXXA"; "RXXZ"; "PXXA"]%string.

(** All the ways to insert [a] into [l], and all the orders of a list. *)
Fixpoint insert_everywhere {A : Type} (a : A) (l : list A) : list (list A) :=
  match l with
  | [] => [[a]]
  | b :: l' => (a :: l) :: map (cons b) (insert_everywhere a l')
  end.

Fixpoint permutations {A : Type} (l : list A) : list (list A) :=
  match l with
  | [] => [[]]
  | a :: l' => flat_map (insert_everywhere a) (permutations l')
  end.

(** [solve] up to the end of [ac3] on the freshly seeded store. *)
Definition propagate (cw : Crossword) : outcome (pyval * Domains) :=
  D1 <- enforce_node_consistency cw (init_domains cw) ;;
  ac3 cw (ac3_budget cw None D1) None D1.

(** [ac3] returns None on the ring with its slots in the order [vars] and
    leaves a store that is not arc-consistent. *)
Definition ring_misses (vars : list Var) : bool :=
  match propagate (grid vars ring_words) with
  | Ok (PyNone, D2) => negb (arc_consistent_b (grid vars ring_words) D2)
  | _ => false
  end.

(** On the dictionary of [dead_puzzle] with the slots in the order [vars],
    the first run of [ac3] returns False and a second run removes a word. *)
Definition dead_twice (vars : list Var) : bool :=
  let cw := grid vars (words dead_puzzle) in
  match propagate cw with
  | Ok (PyFalse, D1) =>
      match ac3 cw (ac3_budget cw None D1) None D1 with
      | Ok (_, D2) => total_size D2 <? total_size D1
      | _ => false
      end
  | _ => false
  end.

(** How a call of [backtrack] on [assignment] may leave the shared dict: as
    it was, when the call returns None; with bindings appended for distinct
    variables of the store that were unassigned, when it returns the dict. *)
Definition backtrack_frame (D : Domains) (assignment : Assignment)
  (res : bool * Assignment) : Prop :=
  (fst res = false -> snd res = assignment)
  /\ (fst res = true ->
      exists extra,
        snd res = assignment ++ extra
        /\ NoDup (keys extra)
        /\ forall v, In v (keys extra) ->
             In v (keys D) /\ dict_mem assignment v = false).

(** What [consistent] checks, stated on the bindings: no word is used
    twice, every word has the length of its variable, and every bound
    neighbor agrees on the overlap. *)
Definition consistent_spec (cw : Crossword) (a : Assignment) : Prop :=
  NoDup (map snd a)
  /\ (forall v w, In (v, w) a -> var_length v = String.length w)
  /\ (forall v w n wn k0 k1,
        In (v, w) a -> In n (neighbors cw v) -> dict_get a n = Ok wn ->
        overlaps_table cw v n = Some (k0, k1) ->
        letters_agree k0 k1 w wn).

(** A solution of the puzzle: a dictionary word of the right length for each
    variable, no word used twice, letters agreeing on every overlap. *)
Definition solution (cw : Crossword) (f : Var -> string) : Prop :=
  (forall x, In x (variables cw) ->
     In (f x) (words cw) /\ String.length (f x) = var_length x)
  /\ (forall x y, In x (variables cw) -> In y (variables cw) -> f x = f y -> x = y)
  /\ (forall x y kx ky, overlaps cw x y = Ok (Some (kx, ky)) ->
        letters_agree kx ky (f x) (f y)).

(** The word an assignment gives to a variable (the empty string when it
    gives none). *)
Definition assigned (a : Assignment) (v : Var) : string :=
  match dict_get a v with
  | Ok w => w
  | _ => EmptyString
  end.

(** The store still offers the words of [f]. *)
Definition within (D : Domains) (f : Var -> string) : Prop :=
  forall x dx, dict_get D x = Ok dx -> In (f x) dx.

(** The bindings of [a] are those of [f]. *)
Definition agrees (a : Assignment) (f : Var -> string) : Prop :=
  forall v w, In (v, w) a -> f v = w.

(** The stores of the pipeline: one domain per variable, each a set of
    dictionary words of the length of its variable. *)
Definition store_ok (cw : Crossword) (D : Domains) : Prop :=
  keys D = variables cw
  /\ Forall (fun kv : Var * list string =>
               NoDup (snd kv)
               /\ incl (snd kv) (words cw)
               /\ Forall (fun w => String.length w = var_length (fst kv)) (snd kv)) D.

(** The assignments of the search: distinct variables of the crossword,
    bound to words of their length. *)
Definition assignment_ok (cw : Crossword) (a : Assignment) : Prop :=
  NoDup (keys a)
  /\ incl (keys a) (variables cw)
  /\ forall v w, In (v, w) a -> String.length w = var_length v.

(** The crosswords the grid model builds: sets of variables and of words,
    symmetric overlaps inside the slots, slots of at least one cell, and a
    dictionary below the bound that [select_unassigned_variable] starts
    from. *)
Record well_formed (cw : Crossword) : Prop := {
  wf_variables : is_set (variables cw);
  wf_words : is_set (words cw);
  wf_symmetric : overlaps_symmetric cw;
  wf_in_range : overlaps_in_range cw;
  wf_length : forall v, In v (variables cw) -> 0 < var_length v;
  wf_size : (N.of_nat (length (words cw)) < 1000000)%N
}.

(** The solution of [chain_puzzle]. *)
Definition chain_solution : Var -> string :=
  assigned [(top, "AX"); (left, "ABC"); (bottom, "CAAA")]%string.

(** ** letter_grid *)

(** The 2D array of [letter_grid]: a list of rows of cells, None until a
    letter is written. *)
Definition Letters : Type := list (list (option ascii)).

(** [l[k] = a] on a Python list. *)
Fixpoint list_set {A : Type} (l : list A) (k : nat) (a : A) : outcome (list A) :=
  match l, k with
  | [], _ => Raise IndexError
  | _ :: l', 0 => Ok (a :: l')
  | b :: l', S k' => r <- list_set l' k' a ;; Ok (b :: r)
  end.

(** [letters[i][j] = c]: the row is looked up, then written in place. *)
Definition letters_set (letters : Letters) (i j : nat) (c : ascii)
  : outcome Letters :=
  match nth_error letters i with
  | None => Raise IndexError
  | Some row => row' <- list_set row j (Some c) ;; list_set letters i row'
  end.

(** The cell of the [k]-th letter of a variable. *)
Definition cell_of (v : Var) (k : nat) : nat * nat :=
  (var_i v + match var_direction v with DOWN => k | ACROSS => 0 end,
   var_j v + match var_direction v with ACROSS => k | DOWN => 0 end).

(** [letter_grid(assignment)], for a crossword of the given [height] and
    [width]. *)
Definition letter_grid (height width : nat) (assignment : Assignment)
  : outcome Letters :=
  let letters := repeat (repeat None width) height in
  for_each assignment (fun (item : Var * string) letters1 =>
    let '(variable, word) := item in
    for_each (seq 0 (String.length word)) (fun k letters2 =>
      c <- str_index word k ;;
      letters_set letters2 (fst (cell_of variable k)) (snd (cell_of variable k)) c)
      letters1) letters.

(** [letters[i][j]] read back; None outside the array. *)
Definition letter_at (letters : Letters) (p : nat * nat) : option (option ascii) :=
  match nth_error letters (fst p) with
  | Some row => nth_error row (snd p)
  | None => None
  end.

(** The letters [letter_grid] writes, in the order it writes them. *)
Definition writes (assignment : Assignment) : list ((nat * nat) * ascii) :=
  flat_map (fun item : Var * string =>
    flat_map (fun k => match String.get k (snd item) with
                       | Some c => [(cell_of (fst item) k, c)]
                       | None => []
                       end)
             (seq 0 (String.length (snd item)))) assignment.

(** An array of [height] rows of [width] cells. *)
Definition dims (height width : nat) (letters : Letters) : Prop :=
  length letters = height /\ Forall (fun row => length row = width) letters.

(** Every bound word lies inside a grid of the given size. *)
Definition fits (height width : nat) (assignment : Assignment) : Prop :=
  forall v word k, In (v, word) assignment -> k < String.length word ->
    fst (cell_of v k) < height /\ snd (cell_of v k) < width.

(** The overlaps of the grid model are exactly the shared cells: two
    distinct variables that cover one cell have that pair of indices as
    their overlap. *)
Definition overlaps_exact (cw : Crossword) : Prop :=
  forall x y k1 k2,
    In x (variables cw) -> In y (variables cw) -> x <> y ->
    k1 < var_length x -> k2 < var_length y ->
    cell_of x k1 = cell_of y k2 ->
    overlaps_table cw x y = Some (k1, k2).

(** * Properties *)

(** ** Equality tests *)

Lemma Direction_eqb_eq (a b : Direction) : Direction_eqb a b = true <-> a = b.
Proof. destruct a, b; simpl; split; congruence. Qed.

Lemma Var_eqb_eq (x y : Var) : Var_eqb x y = true <-> x = y.
Proof.
  unfold Var_eqb. rewrite !andb_true_iff, !Nat.eqb_eq, Direction_eqb_eq.
  destruct x, y; simpl. split.
  - intros [[[-> ->] ->] ->]. reflexivity.
  - intros E. injection E as -> -> -> ->. auto.
Qed.

Lemma Var_eqb_refl (x : Var) : Var_eqb x x = true.
Proof. apply Var_eqb_eq. reflexivity. Qed.

Lemma Var_eqb_neq (x y : Var) : Var_eqb x y = false <-> x <> y.
Proof.
  rewrite <- Var_eqb_eq. destruct (Var_eqb x y); split; congruence.
Qed.

Lemma Var_eqb_sym (x y : Var) : Var_eqb x y = Var_eqb y x.
Proof.
  destruct (Var_eqb x y) eqn:E.
  - apply Var_eqb_eq in E. subst. symmetry. apply Var_eqb_refl.
  - apply Var_eqb_neq in E. symmetry. apply Var_eqb_neq. congruence.
Qed.

Lemma var_in_In (x : Var) (l : list Var) : var_in x l = true <-> In x l.
Proof.
  unfold var_in. rewrite existsb_exists. split.
  - intros [y [Hy E]]. apply Var_eqb_eq in E. subst. exact Hy.
  - intros H. exists x. split; [exact H | apply Var_eqb_refl].
Qed.

Lemma overlaps_Ok (cw : Crossword) (x y : Var) (ov : option (nat * nat)) :
  overlaps cw x y = Ok ov <->
  In x (variables cw) /\ In y (variables cw) /\ x <> y /\ overlaps_table cw x y = ov.
Proof.
  unfold overlaps.
  destruct (var_in x (variables cw)) eqn:Hx;
    destruct (var_in y (variables cw)) eqn:Hy;
    destruct (Var_eqb x y) eqn:Hxy; simpl;
    try apply var_in_In in Hx; try apply var_in_In in Hy;
    try apply Var_eqb_neq in Hxy; try apply Var_eqb_eq in Hxy.
  all: split; [intros E; try discriminate | intros (Hx' & Hy' & Hn & E)].
  all: try (injection E as <-; auto).
  all: try (subst; congruence).
  all: try (apply var_in_In in Hx'; congruence).
  all: try (apply var_in_In in Hy'; congruence).
Qed.

(** ** Dicts *)

Lemma dict_get_mem {V : Type} (d : dict V) (k : Var) :
  dict_mem d k = true <-> exists v, dict_get d k = Ok v.
Proof.
  induction d as [|[k' v'] d IH]; simpl.
  - split; [discriminate | intros [v E]; discriminate].
  - destruct (Var_eqb k' k); simpl.
    + split; eauto.
    + exact IH.
Qed.

Lemma dict_mem_keys {V : Type} (d : dict V) (k : Var) :
  dict_mem d k = true <-> In k (keys d).
Proof.
  induction d as [|[k' v'] d IH]; simpl.
  - split; [discriminate | tauto].
  - rewrite orb_true_iff, Var_eqb_eq, IH. tauto.
Qed.

Lemma dict_get_In {V : Type} (d : dict V) (k : Var) (v : V) :
  dict_get d k = Ok v -> In (k, v) d.
Proof.
  induction d as [|[k' v'] d IH]; simpl; [discriminate|].
  destruct (Var_eqb k' k) eqn:E.
  - apply Var_eqb_eq in E. intros H. injection H as ->. subst. auto.
  - auto.
Qed.

Lemma dict_get_set_same {V : Type} (d : dict V) (k : Var) (v : V) :
  dict_get (dict_set d k v) k = Ok v.
Proof.
  induction d as [|[k' v'] d IH]; simpl.
  - rewrite Var_eqb_refl. reflexivity.
  - destruct (Var_eqb k' k) eqn:E; simpl; rewrite E; auto.
Qed.

Lemma dict_get_set_other {V : Type} (d : dict V) (k k2 : Var) (v : V) :
  k <> k2 -> dict_get (dict_set d k v) k2 = dict_get d k2.
Proof.
  intros Hne. induction d as [|[k' v'] d IH]; simpl.
  - apply Var_eqb_neq in Hne. rewrite Hne. reflexivity.
  - destruct (Var_eqb k' k) eqn:E; simpl.
    + apply Var_eqb_eq in E. subst k'. apply Var_eqb_neq in Hne.
      rewrite Hne. reflexivity.
    + rewrite IH. reflexivity.
Qed.

Lemma dict_mem_set {V : Type} (d : dict V) (k k2 : Var) (v : V) :
  dict_mem (dict_set d k v) k2 = dict_mem d k2 || Var_eqb k k2.
Proof.
  induction d as [|[k' v'] d IH]; simpl.
  - rewrite orb_false_r. reflexivity.
  - destruct (Var_eqb k' k) eqn:E; simpl.
    + apply Var_eqb_eq in E. subst k'.
      destruct (Var_eqb k k2); simpl; auto. rewrite orb_false_r. reflexivity.
    + rewrite IH. rewrite orb_assoc. reflexivity.
Qed.

Lemma keys_set_present {V : Type} (d : dict V) (k : Var) (v : V) :
  dict_mem d k = true -> keys (dict_set d k v) = keys d.
Proof.
  induction d as [|[k' v'] d IH]; simpl; [discriminate|].
  destruct (Var_eqb k' k) eqn:E; simpl; intros H.
  - reflexivity.
  - f_equal. apply IH. exact H.
Qed.

Lemma dict_set_absent {V : Type} (d : dict V) (k : Var) (v : V) :
  dict_mem d k = false -> dict_set d k v = d ++ [(k, v)].
Proof.
  induction d as [|[k' v'] d IH]; simpl; [reflexivity|].
  destruct (Var_eqb k' k); simpl; [discriminate|].
  intros H. rewrite IH by exact H. reflexivity.
Qed.

Lemma dict_del_set_absent {V : Type} (d : dict V) (k : Var) (v : V) :
  dict_mem d k = false -> dict_del (dict_set d k v) k = Ok d.
Proof.
  induction d as [|[k' v'] d IH]; simpl.
  - rewrite Var_eqb_refl. reflexivity.
  - destruct (Var_eqb k' k) eqn:E; simpl; [discriminate|].
    intros H. rewrite E. rewrite IH by exact H. reflexivity.
Qed.

Lemma dict_del_incl {V : Type} (d d' : dict V) (k : Var) :
  dict_del d k = Ok d' -> incl d' d.
Proof.
  revert d'. induction d as [|[k' v'] d IH]; simpl; intros d' H; [discriminate|].
  destruct (Var_eqb k' k).
  - injection H as <-. apply incl_tl, incl_refl.
  - destruct (dict_del d k) as [r| |]; simpl in H; try discriminate.
    injection H as <-. apply incl_cons; [left; reflexivity|].
    apply incl_tl. apply IH. reflexivity.
Qed.

Lemma dict_set_In {V : Type} (d : dict V) (k k2 : Var) (v v2 : V) :
  In (k2, v2) (dict_set d k v) -> In (k2, v2) d \/ (k2 = k /\ v2 = v).
Proof.
  induction d as [|[k' v'] d IH]; simpl.
  - intros [E|[]]. injection E as <- <-. auto.
  - destruct (Var_eqb k' k) eqn:E; simpl.
    + apply Var_eqb_eq in E. subst k'.
      intros [H|H]; [injection H as <- <-; auto | auto].
    + intros [H|H]; [auto|]. destruct (IH H); auto.
Qed.

(** An entry whose key does not occur before it. *)
Lemma dict_get_middle {V : Type} (d1 d2 : dict V) (k : Var) (v : V) :
  ~ In k (keys d1) -> dict_get (d1 ++ (k, v) :: d2) k = Ok v.
Proof.
  induction d1 as [|[k' v'] d1 IH]; simpl; intros H.
  - rewrite Var_eqb_refl. reflexivity.
  - destruct (Var_eqb k' k) eqn:E.
    + apply Var_eqb_eq in E. tauto.
    + apply IH. tauto.
Qed.

Lemma dict_set_middle {V : Type} (d1 d2 : dict V) (k : Var) (v v2 : V) :
  ~ In k (keys d1) -> dict_set (d1 ++ (k, v) :: d2) k v2 = d1 ++ (k, v2) :: d2.
Proof.
  induction d1 as [|[k' v'] d1 IH]; simpl; intros H.
  - rewrite Var_eqb_refl. reflexivity.
  - destruct (Var_eqb k' k) eqn:E.
    + apply Var_eqb_eq in E. tauto.
    + rewrite IH by tauto. reflexivity.
Qed.

Lemma dict_set_set {V : Type} (d : dict V) (k : Var) (v v2 : V) :
  dict_set (dict_set d k v) k v2 = dict_set d k v2.
Proof.
  induction d as [|[k' v'] d IH]; simpl.
  - rewrite Var_eqb_refl. reflexivity.
  - destruct (Var_eqb k' k) eqn:E; simpl; rewrite E; [reflexivity|].
    rewrite IH. reflexivity.
Qed.

Lemma dict_set_get_id {V : Type} (d : dict V) (k : Var) (v : V) :
  dict_get d k = Ok v -> dict_set d k v = d.
Proof.
  induction d as [|[k' v'] d IH]; simpl; [discriminate|].
  destruct (Var_eqb k' k); intros H.
  - injection H as ->. reflexivity.
  - rewrite IH by exact H. reflexivity.
Qed.

(** ** The error monad and its loops *)

Lemma bind_Ok {A B : Type} (c : outcome A) (k : A -> outcome B) (b : B) :
  bind c k = Ok b -> exists a, c = Ok a /\ k a = Ok b.
Proof. destruct c; simpl; intros H; try discriminate. eauto. Qed.

Ltac bind_inv H :=
  let a := fresh "r" in
  let E := fresh "E" in
  apply bind_Ok in H; destruct H as [a [E H]].

(** A relation that every iteration establishes between the state after
    and the state before holds across the whole loop. *)
Lemma for_each_rel {A S : Type} (R : S -> S -> Prop) (body : A -> S -> outcome S) :
  (forall s, R s s) ->
  (forall s1 s2 s3, R s3 s2 -> R s2 s1 -> R s3 s1) ->
  forall l : list A,
  (forall a s s', In a l -> body a s = Ok s' -> R s' s) ->
  forall s s', for_each l body s = Ok s' -> R s' s.
Proof.
  intros Hrefl Htrans l. induction l as [|a l IH]; simpl; intros Hbody s s' H.
  - injection H as <-. apply Hrefl.
  - bind_inv H. apply Htrans with r.
    + apply IH; [|exact H]. intros a0 s0 s0' Hin. apply Hbody. right. exact Hin.
    + apply (Hbody a); [left; reflexivity | exact E].
Qed.

(** ** Sets of words *)

Lemma set_remove_middle (l1 l2 : list string) (w : string) :
  ~ In w l1 -> set_remove (l1 ++ w :: l2) w = Ok (l1 ++ l2).
Proof.
  induction l1 as [|a l1 IH]; simpl; intros H.
  - rewrite String.eqb_refl. reflexivity.
  - destruct (String.eqb a w) eqn:E.
    + apply String.eqb_eq in E. tauto.
    + rewrite IH by tauto. reflexivity.
Qed.

Lemma set_remove_shrink (s s' : list string) (w : string) :
  set_remove s w = Ok s' -> incl s' s /\ length s = S (length s').
Proof.
  revert s'. induction s as [|a s IH]; simpl; intros s' H; [discriminate|].
  destruct (String.eqb a w).
  - injection H as <-. split; [apply incl_tl, incl_refl | reflexivity].
  - bind_inv H. injection H as <-. destruct (IH r E) as [Hi Hl]. split.
    + apply incl_cons; [left; reflexivity | apply incl_tl; exact Hi].
    + simpl. rewrite Hl. reflexivity.
Qed.

(** ** Shrinking stores *)

Lemma shrinks_refl (D : Domains) : shrinks D D.
Proof.
  induction D; constructor; auto. repeat split; auto. apply incl_refl.
Qed.

Lemma shrinks_trans (D1 D2 D3 : Domains) :
  shrinks D3 D2 -> shrinks D2 D1 -> shrinks D3 D1.
Proof.
  intros H32. revert D1. induction H32 as [|a b l3 l2 (Hk & Hi & Hl) _ IH];
    intros D1 H21; inversion H21 as [|b' c l2' l1 (Hk' & Hi' & Hl') H21']; subst.
  - constructor.
  - constructor; [|apply IH; assumption].
    repeat split; [congruence | eapply incl_tran; eauto | lia].
Qed.

Lemma shrinks_keys (D' D : Domains) : shrinks D' D -> keys D' = keys D.
Proof.
  induction 1 as [|a b l' l (Hk & _) _ IH]; simpl; [reflexivity|].
  rewrite Hk, IH. reflexivity.
Qed.

Lemma shrinks_get (D' D : Domains) (x : Var) (dx' : list string) :
  shrinks D' D -> dict_get D' x = Ok dx' ->
  exists dx, dict_get D x = Ok dx /\ incl dx' dx /\ length dx' <= length dx.
Proof.
  induction 1 as [|[k' v'] [k v] l' l (Hk & Hi & Hl) _ IH]; simpl in *;
    [discriminate|].
  subst k'. destruct (Var_eqb k x).
  - intros E. injection E as <-. eauto.
  - exact IH.
Qed.

Lemma shrinks_get_rev (D' D : Domains) (x : Var) (dx : list string) :
  shrinks D' D -> dict_get D x = Ok dx ->
  exists dx', dict_get D' x = Ok dx' /\ incl dx' dx /\ length dx' <= length dx.
Proof.
  induction 1 as [|[k' v'] [k v] l' l (Hk & Hi & Hl) _ IH]; simpl in *;
    [discriminate|].
  subst k'. destruct (Var_eqb k x).
  - intros E. injection E as <-. eauto.
  - exact IH.
Qed.

Lemma shrinks_total_size (D' D : Domains) :
  shrinks D' D -> total_size D' <= total_size D.
Proof.
  unfold total_size.
  induction 1 as [|a b l' l (_ & _ & Hl) _ IH]; simpl; lia.
Qed.

Lemma shrinks_set (D : Domains) (x : Var) (s s' : list string) :
  dict_get D x = Ok s -> incl s' s -> length s' <= length s ->
  shrinks (dict_set D x s') D.
Proof.
  intros Hg Hi Hl. induction D as [|[k v] D IH]; simpl in *; [discriminate|].
  destruct (Var_eqb k x).
  - injection Hg as ->. constructor; [auto | apply shrinks_refl].
  - constructor; [|apply IH; exact Hg].
    repeat split; auto. apply incl_refl.
Qed.

Lemma total_size_set (D : Domains) (x : Var) (s s' : list string) :
  dict_get D x = Ok s ->
  total_size (dict_set D x s') + length s = total_size D + length s'.
Proof.
  unfold total_size.
  induction D as [|[k v] D IH]; simpl; [discriminate|].
  destruct (Var_eqb k x); simpl; intros H.
  - injection H as ->. lia.
  - specialize (IH H). lia.
Qed.

Lemma domains_remove_shrinks (D D' : Domains) (x : Var) (w : string) :
  domains_remove D x w = Ok D' -> shrinks D' D.
Proof.
  unfold domains_remove. intros H. bind_inv H. bind_inv H.
  injection H as <-. destruct (set_remove_shrink _ _ _ E0) as [Hi Hl].
  eapply shrinks_set; eauto. lia.
Qed.

Lemma domains_remove_total_size (D D' : Domains) (x : Var) (w : string) :
  domains_remove D x w = Ok D' -> S (total_size D') = total_size D.
Proof.
  unfold domains_remove. intros H. bind_inv H. bind_inv H.
  injection H as <-. destruct (set_remove_shrink _ _ _ E0) as [_ Hl].
  pose proof (total_size_set D x r r0 E) as Ht. lia.
Qed.

(** ** Removing in place the words that fail a test *)

(** The shape shared by the loops of [enforce_node_consistency] and of
    [revise]: the words of [ws] are the tail of the domain of [x], each one
    is kept or removed, and what is left is the filtered tail. *)
Lemma remove_loop (x : Var) (keep : string -> bool) :
  forall (ws kept : list string) (D : Domains),
    dict_get D x = Ok (kept ++ ws) ->
    NoDup (kept ++ ws) ->
    for_each ws (fun word D2 =>
                   if negb (keep word) then domains_remove D2 x word else Ok D2) D
    = Ok (dict_set D x (kept ++ filter keep ws)).
Proof.
  induction ws as [|w ws IH]; simpl; intros kept D Hg Hnd.
  - rewrite (dict_set_get_id _ _ _ Hg). reflexivity.
  - assert (Hw : ~ In w kept).
    { apply NoDup_remove_2 in Hnd. intros Hin. apply Hnd.
      apply in_or_app. auto. }
    destruct (keep w) eqn:Hk; simpl.
    + specialize (IH (kept ++ [w]) D).
      rewrite <- !app_assoc in IH. simpl in IH. apply IH; assumption.
    + unfold domains_remove at 1. rewrite Hg. simpl.
      rewrite (set_remove_middle _ _ _ Hw). simpl.
      rewrite (IH kept).
      * rewrite dict_set_set. reflexivity.
      * apply dict_get_set_same.
      * apply NoDup_remove_1 in Hnd. exact Hnd.
Qed.

(** ** Node consistency *)

Lemma dict_get_map {V : Type} (f : Var -> V) (vars : list Var) (v : Var) :
  In v vars -> dict_get (map (fun var => (var, f var)) vars) v = Ok (f v).
Proof.
  induction vars as [|a vars IH]; simpl; [tauto|].
  intros H. destruct (Var_eqb a v) eqn:E.
  - apply Var_eqb_eq in E. subst. reflexivity.
  - destruct H as [H|H]; [subst; rewrite Var_eqb_refl in E; discriminate|].
    apply IH. exact H.
Qed.

Lemma keys_map {V : Type} (f : Var -> V) (vars : list Var) :
  keys (map (fun var => (var, f var)) vars) = vars.
Proof.
  unfold keys. rewrite map_map. simpl. apply map_id.
Qed.

Lemma enforce_node_consistency_vars (cw : Crossword) (ws : list string) :
  NoDup ws ->
  forall todo done : list Var,
    NoDup (done ++ todo) ->
    for_each todo (fun var D1 =>
      for_each ws (fun word D2 =>
        if negb (String.length word =? var_length var)
        then domains_remove D2 var word
        else Ok D2) D1)
      (map (fun var => (var, filter (fun word => String.length word =? var_length var) ws)) done
       ++ map (fun var => (var, ws)) todo)
    = Ok (map (fun var => (var, filter (fun word => String.length word =? var_length var) ws))
              (done ++ todo)).
Proof.
  intros Hws. induction todo as [|v todo IH]; simpl; intros done Hnd.
  - rewrite !app_nil_r. reflexivity.
  - set (d1 := map (fun var => (var, filter (fun word => String.length word =? var_length var) ws)) done).
    set (d2 := map (fun var : Var => (var, ws)) todo).
    assert (Hv : ~ In v (keys d1)).
    { unfold d1. rewrite keys_map. apply NoDup_remove_2 in Hnd. intros Hin.
      apply Hnd. apply in_or_app. auto. }
    pose proof (remove_loop v (fun word => String.length word =? var_length v)
                  ws [] (d1 ++ (v, ws) :: d2)
                  (dict_get_middle d1 d2 v ws Hv) Hws) as Hloop.
    simpl in Hloop. rewrite Hloop. simpl.
    rewrite (dict_set_middle d1 d2 v ws _ Hv).
    specialize (IH (done ++ [v])).
    rewrite map_app in IH. simpl in IH. rewrite <- !app_assoc in IH. simpl in IH.
    apply IH. exact Hnd.
Qed.

Lemma enforce_node_consistency_fresh (cw : Crossword) :
  is_set (variables cw) -> is_set (words cw) ->
  enforce_node_consistency cw (init_domains cw)
  = Ok (map (fun var => (var, fitting cw var)) (variables cw)).
Proof.
  intros Hv Hw. unfold enforce_node_consistency, init_domains, fitting.
  exact (enforce_node_consistency_vars cw (words cw) Hw (variables cw) [] Hv).
Qed.

Ltac concrete_set :=
  unfold is_set; cbv;
  repeat (constructor; [cbv; intuition congruence|]); constructor.

(** C6.  On the freshly seeded store, [enforce_node_consistency] returns
    without raising; afterwards every word left in the domain of a variable
    has the length of that variable, and every dictionary word of that
    length is still in the domain. *)
Theorem enforce_node_consistency_spec (cw : Crossword) :
  is_set (variables cw) -> is_set (words cw) ->
  exists D',
    enforce_node_consistency cw (init_domains cw) = Ok D'
    /\ keys D' = variables cw
    /\ forall v, In v (variables cw) ->
         exists d, dict_get D' v = Ok d
           /\ (forall w, In w d -> String.length w = var_length v)
           /\ (forall w, In w (words cw) ->
                 String.length w = var_length v -> In w d).
Proof.
  intros Hv Hw. eexists. split; [apply enforce_node_consistency_fresh; assumption|].
  split; [apply keys_map|].
  intros v Hin. exists (fitting cw v). split; [apply (dict_get_map (fitting cw)); exact Hin|].
  unfold fitting. split; intros w.
  - rewrite filter_In, Nat.eqb_eq. tauto.
  - intros Hd Hl. rewrite filter_In, Nat.eqb_eq. tauto.
Qed.

Lemma enforce_node_consistency_spec_witness :
  is_set (variables chain_puzzle) /\ is_set (words chain_puzzle)
  /\ exists D',
       enforce_node_consistency chain_puzzle (init_domains chain_puzzle) = Ok D'
       /\ keys D' = variables chain_puzzle
       /\ forall v, In v (variables chain_puzzle) ->
            exists d, dict_get D' v = Ok d
              /\ (forall w, In w d -> String.length w = var_length v)
              /\ (forall w, In w (words chain_puzzle) ->
                    String.length w = var_length v -> In w d).
Proof.
  assert (Hv : is_set (variables chain_puzzle)) by concrete_set.
  assert (Hw : is_set (words chain_puzzle)) by concrete_set.
  split; [exact Hv|]. split; [exact Hw|].
  exact (enforce_node_consistency_spec chain_puzzle Hv Hw).
Defined.

(** ** revise *)

Lemma str_index_lt (w : string) (k : nat) :
  k < String.length w -> exists c, String.get k w = Some c.
Proof.
  revert k. induction w as [|a w IH]; simpl; intros k H; [lia|].
  destruct k as [|k]; [eauto|]. apply IH. lia.
Qed.

Lemma any_match_indexable (ky : nat) (letter : ascii) (dy : list string) :
  Forall (fun w' => ky < String.length w') dy ->
  any_match ky letter dy
  = Ok (existsb (fun w' => match String.get ky w' with
                           | Some c' => Ascii.eqb c' letter
                           | None => false
                           end) dy).
Proof.
  induction 1 as [|w' dy Hw _ IH]; simpl; [reflexivity|].
  unfold str_index. destruct (str_index_lt _ _ Hw) as [c ->]. simpl.
  destruct (Ascii.eqb c letter); simpl; [reflexivity | exact IH].
Qed.

Lemma supported_b_iff (kx ky : nat) (dy : list string) (w : string) :
  supported_b kx ky dy w = true <-> supported kx ky dy w.
Proof.
  unfold supported_b, supported, letters_agree. split.
  - destruct (String.get kx w) as [c|]; [|discriminate].
    rewrite existsb_exists. intros [w' [Hin H]]. exists w'. split; [exact Hin|].
    destruct (String.get ky w') as [c'|]; [|discriminate].
    apply Ascii.eqb_eq in H. subst. eauto.
  - intros [w' [Hin [c [-> Hc]]]]. apply existsb_exists. exists w'.
    split; [exact Hin|]. rewrite Hc. apply Ascii.eqb_refl.
Qed.

(** What one iteration does: nothing, or one removal from the domain of [x]. *)
Lemma revise_word_cases (x y : Var) (kx ky : nat) (word : string)
  (rm rm' : bool) (D1 D1' : Domains) :
  revise_word x y kx ky word (rm, D1) = Ok (rm', D1') ->
  (rm' = rm /\ D1' = D1)
  \/ (rm' = true /\ domains_remove D1 x word = Ok D1').
Proof.
  unfold revise_word. intros H. bind_inv H. bind_inv H. bind_inv H.
  destruct r1; simpl in H.
  - injection H as <- <-. auto.
  - bind_inv H. injection H as <- <-. auto.
Qed.

Lemma revise_loop_shrinks (x y : Var) (kx ky : nat) (ws : list string) :
  forall st st', for_each ws (revise_word x y kx ky) st = Ok st' ->
    shrinks (snd st') (snd st)
    /\ (fst st' = true -> fst st = true \/ total_size (snd st') < total_size (snd st)).
Proof.
  apply (for_each_rel (fun st' st : bool * Domains =>
           shrinks (snd st') (snd st)
           /\ (fst st' = true ->
               fst st = true \/ total_size (snd st') < total_size (snd st)))).
  - intros s. split; [apply shrinks_refl | auto].
  - intros s1 s2 s3 [H32 F32] [H21 F21]. split; [eapply shrinks_trans; eauto|].
    intros H3. apply shrinks_total_size in H32, H21.
    destruct (F32 H3) as [H2|Hlt]; [|right; lia].
    destruct (F21 H2) as [H1|Hlt]; [left; exact H1 | right; lia].
  - intros word [rm D1] [rm' D1'] _ H. simpl.
    destruct (revise_word_cases _ _ _ _ _ _ _ _ _ H) as [[-> ->]|[-> Hr]].
    + split; [apply shrinks_refl | auto].
    + split; [eapply domains_remove_shrinks; eauto|].
      intros _. right. apply domains_remove_total_size in Hr. lia.
Qed.

Lemma revise_shrinks (cw : Crossword) (x y : Var) (D D' : Domains) (b : bool) :
  revise cw x y D = Ok (b, D') ->
  shrinks D' D /\ (b = true -> total_size D' < total_size D).
Proof.
  unfold revise. intros H. bind_inv H. destruct r as [[kx ky]|].
  - bind_inv H. destruct (revise_loop_shrinks _ _ _ _ _ _ _ H) as [Hs Hf].
    simpl in *. split; [exact Hs|]. intros Hb. destruct (Hf Hb); [discriminate | assumption].
  - injection H as <- <-. split; [apply shrinks_refl | discriminate].
Qed.

(** The loop of [revise] when no index is out of range: the domain of [x]
    is filtered in place by [supported_b]. *)
Lemma revise_loop_exact (x y : Var) (kx ky : nat) (dy : list string) :
  x <> y ->
  Forall (fun w' => ky < String.length w') dy ->
  forall (ws kept : list string) (rm : bool) (D1 : Domains),
    dict_get D1 x = Ok (kept ++ ws) ->
    dict_get D1 y = Ok dy ->
    NoDup (kept ++ ws) ->
    Forall (fun w => kx < String.length w) ws ->
    for_each ws (revise_word x y kx ky) (rm, D1)
    = Ok (rm || negb (forallb (supported_b kx ky dy) ws),
          dict_set D1 x (kept ++ filter (supported_b kx ky dy) ws)).
Proof.
  intros Hxy Hdy. induction ws as [|w ws IH]; simpl; intros kept rm D1 Hx Hy Hnd Hix.
  - rewrite orb_false_r, (dict_set_get_id _ _ _ Hx). reflexivity.
  - inversion Hix as [|w0 ws0 Hw Hix']; subst.
    assert (Hnk : ~ In w kept).
    { apply NoDup_remove_2 in Hnd. intros Hin. apply Hnd. apply in_or_app. auto. }
    unfold revise_word at 1. unfold str_index at 1.
    destruct (str_index_lt _ _ Hw) as [c Hc]. rewrite Hc. simpl.
    rewrite Hy. simpl. rewrite (any_match_indexable _ _ _ Hdy). simpl.
    unfold supported_b at 1 3. rewrite Hc.
    destruct (existsb _ dy); simpl.
    + specialize (IH (kept ++ [w]) rm D1).
      rewrite <- !app_assoc in IH. simpl in IH. apply IH; assumption.
    + unfold domains_remove. rewrite Hx. simpl.
      rewrite (set_remove_middle _ _ _ Hnk). simpl.
      rewrite (IH kept true).
      * rewrite dict_set_set. rewrite orb_true_r. reflexivity.
      * apply dict_get_set_same.
      * rewrite dict_get_set_other by exact Hxy. exact Hy.
      * apply NoDup_remove_1 in Hnd. exact Hnd.
      * exact Hix'.
Qed.

Lemma revise_exact (cw : Crossword) (x y : Var) (D : Domains) (kx ky : nat)
  (dx dy : list string) :
  overlaps cw x y = Ok (Some (kx, ky)) ->
  dict_get D x = Ok dx -> dict_get D y = Ok dy ->
  is_set dx ->
  Forall (fun w => kx < String.length w) dx ->
  Forall (fun w' => ky < String.length w') dy ->
  revise cw x y D
  = Ok (negb (forallb (supported_b kx ky dy) dx),
        dict_set D x (filter (supported_b kx ky dy) dx)).
Proof.
  intros Hov Hx Hy Hnd Hix Hiy. unfold revise. rewrite Hov. simpl.
  rewrite Hx. simpl.
  apply overlaps_Ok in Hov. destruct Hov as (_ & _ & Hxy & _).
  exact (revise_loop_exact x y kx ky dy Hxy Hiy dx [] false D Hx Hy Hnd Hix).
Qed.

(** C5.  For distinct variables [x] and [y] of the crossword: without an
    overlap, [revise] returns False and leaves the store as it is; with the
    overlap [(kx, ky)], it removes from the domain of [x] exactly the words
    that no word of the domain of [y] supports, leaves every other domain
    (that of [y] among them) as it is, and returns True exactly when it
    removed a word. *)
Theorem revise_spec (cw : Crossword) (x y : Var) (D : Domains) :
  In x (variables cw) -> In y (variables cw) -> x <> y ->
  (overlaps_table cw x y = None -> revise cw x y D = Ok (false, D))
  /\ (forall kx ky dx dy,
        overlaps_table cw x y = Some (kx, ky) ->
        dict_get D x = Ok dx -> dict_get D y = Ok dy ->
        is_set dx ->
        Forall (fun w => kx < String.length w) dx ->
        Forall (fun w' => ky < String.length w') dy ->
        exists b D' dx',
          revise cw x y D = Ok (b, D')
          /\ dict_get D' x = Ok dx'
          /\ (forall w, In w dx' <-> In w dx /\ supported kx ky dy w)
          /\ dict_get D' y = Ok dy
          /\ (forall z, z <> x -> dict_get D' z = dict_get D z)
          /\ (b = true <-> exists w, In w dx /\ ~ In w dx')).
Proof.
  intros Hx Hy Hxy. split.
  - intros Hov. unfold revise.
    assert (E : overlaps cw x y = Ok None) by (apply overlaps_Ok; auto).
    rewrite E. reflexivity.
  - intros kx ky dx dy Hov Hgx Hgy Hnd Hix Hiy.
    assert (E : overlaps cw x y = Ok (Some (kx, ky))) by (apply overlaps_Ok; auto).
    exists (negb (forallb (supported_b kx ky dy) dx)),
           (dict_set D x (filter (supported_b kx ky dy) dx)),
           (filter (supported_b kx ky dy) dx).
    split; [apply revise_exact; assumption|].
    split; [apply dict_get_set_same|].
    split; [intros w; rewrite filter_In, supported_b_iff; tauto|].
    split; [rewrite dict_get_set_other by exact Hxy; exact Hgy|].
    split; [intros z Hz; apply dict_get_set_other; congruence|].
    rewrite negb_true_iff. split.
    + intros Hf. destruct (forallb (supported_b kx ky dy) dx) eqn:Hall; [discriminate|].
      assert (Hex : existsb (fun w => negb (supported_b kx ky dy w)) dx = true).
      { clear -Hall. induction dx as [|a dx IH]; simpl in *; [discriminate|].
        destruct (supported_b kx ky dy a); simpl in *; auto. }
      apply existsb_exists in Hex. destruct Hex as [w [Hin Hn]].
      exists w. split; [exact Hin|]. rewrite filter_In. intros [_ Hs].
      rewrite Hs in Hn. discriminate.
    + intros [w [Hin Hn]]. destruct (forallb (supported_b kx ky dy) dx) eqn:Hall;
        [|reflexivity].
      rewrite forallb_forall in Hall. exfalso. apply Hn. apply filter_In.
      split; [exact Hin | apply Hall; exact Hin].
Qed.

Ltac concrete_forall := repeat (constructor; [simpl; lia|]); constructor.

Lemma revise_spec_witness :
  In left (variables chain_puzzle) /\ In top (variables chain_puzzle)
  /\ left <> top
  /\ exists b D' dx',
       revise chain_puzzle left top chain_store = Ok (b, D')
       /\ dict_get D' left = Ok dx'
       /\ (forall w, In w dx' <->
             In w ["ABC"; "DEF"]%string /\ supported 0 0 ["AX"]%string w)
       /\ dict_get D' top = Ok ["AX"]%string
       /\ (forall z, z <> left -> dict_get D' z = dict_get chain_store z)
       /\ (b = true <-> exists w, In w ["ABC"; "DEF"]%string /\ ~ In w dx').
Proof.
  assert (H1 : In left (variables chain_puzzle)) by (simpl; auto).
  assert (H2 : In top (variables chain_puzzle)) by (simpl; auto).
  assert (H3 : left <> top) by discriminate.
  repeat (split; [assumption|]).
  destruct (revise_spec chain_puzzle left top chain_store H1 H2 H3) as [_ H].
  apply (H 0 0 ["ABC"; "DEF"]%string ["AX"]%string);
    [reflexivity | reflexivity | reflexivity | concrete_set
    | concrete_forall | concrete_forall].
Defined.

(** ** Calls that come back *)

Lemma returns_Ok {A : Type} (a : A) : returns (Ok a).
Proof. discriminate. Qed.

Lemma returns_Raise {A : Type} (e : exn) : returns (@Raise A e).
Proof. discriminate. Qed.

Lemma returns_bind {A B : Type} (c : outcome A) (k : A -> outcome B) :
  returns c -> (forall a, c = Ok a -> returns (k a)) -> returns (bind c k).
Proof.
  unfold returns. destruct c; simpl; intros Hc Hk; auto. discriminate.
Qed.

Lemma for_each_returns {A S : Type} (body : A -> S -> outcome S) (l : list A) :
  (forall a s, returns (body a s)) -> forall s, returns (for_each l body s).
Proof.
  intros Hb. induction l as [|a l IH]; simpl; intros s.
  - apply returns_Ok.
  - apply returns_bind; auto.
Qed.

Ltac returns_step :=
  match goal with
  | |- returns (Ok _) => apply returns_Ok
  | |- returns (Raise _) => apply returns_Raise
  | |- returns (bind _ _) => apply returns_bind; [|intros ? ?]
  | |- returns (for_each _ _ _) => apply for_each_returns; intros ? ?
  | |- returns (if ?b then _ else _) => destruct b
  | |- returns (match ?o with _ => _ end) => destruct o
  end.

Lemma str_index_returns (w : string) (k : nat) : returns (str_index w k).
Proof. unfold str_index. repeat returns_step. Qed.

Lemma dict_get_returns {V : Type} (d : dict V) (k : Var) : returns (dict_get d k).
Proof. induction d as [|[k' v] d IH]; simpl; repeat returns_step; auto. Qed.

Lemma dict_del_returns {V : Type} (d : dict V) (k : Var) : returns (dict_del d k).
Proof. induction d as [|[k' v] d IH]; simpl; repeat returns_step; auto. Qed.

Lemma set_remove_returns (s : list string) (w : string) : returns (set_remove s w).
Proof. induction s as [|a s IH]; simpl; repeat returns_step; auto. Qed.

Lemma domains_remove_returns (D : Domains) (x : Var) (w : string) :
  returns (domains_remove D x w).
Proof.
  unfold domains_remove. repeat returns_step;
    auto using dict_get_returns, set_remove_returns.
Qed.

Lemma any_match_returns (ky : nat) (c : ascii) (ys : list string) :
  returns (any_match ky c ys).
Proof.
  induction ys as [|a ys IH]; simpl; repeat returns_step;
    auto using str_index_returns.
Qed.

Lemma overlaps_returns (cw : Crossword) (x y : Var) : returns (overlaps cw x y).
Proof. unfold overlaps. repeat returns_step. Qed.

Lemma revise_returns (cw : Crossword) (x y : Var) (D : Domains) :
  returns (revise cw x y D).
Proof.
  unfold revise. repeat returns_step;
    auto using overlaps_returns, dict_get_returns.
  unfold revise_word. destruct s as [rm D1]. repeat returns_step;
    auto using str_index_returns, dict_get_returns, any_match_returns,
               domains_remove_returns.
Qed.

(** ** ac3 *)

Lemma list_pop_None {A : Type} (q : list A) : list_pop q = None -> q = [].
Proof.
  unfold list_pop. destruct (rev q) eqn:E; [|discriminate].
  intros _. rewrite <- (rev_involutive q), E. reflexivity.
Qed.

Lemma list_pop_Some {A : Type} (q q' : list A) (a : A) :
  list_pop q = Some (q', a) -> q = q' ++ [a].
Proof.
  unfold list_pop. destruct (rev q) eqn:E; [discriminate|].
  intros H. injection H as <- <-.
  rewrite <- (rev_involutive q), E. reflexivity.
Qed.

Lemma ac3_loop_shrinks (cw : Crossword) :
  forall fuel q D r D', ac3_loop cw fuel q D = Ok (r, D') -> shrinks D' D.
Proof.
  induction fuel as [|fuel IH]; intros q D r D' H; simpl in H;
    (destruct (list_pop q) as [[q1 [x y]]|];
     [|injection H as <- <-; apply shrinks_refl]); [discriminate|].
  bind_inv H. destruct r0 as [b D1].
  apply revise_shrinks in E. destruct E as [Hs _]. destruct b.
  - bind_inv H. destruct (length r0 =? 0).
    + injection H as <- <-. exact Hs.
    + eapply shrinks_trans; [eapply IH; exact H | exact Hs].
  - eapply shrinks_trans; [eapply IH; exact H | exact Hs].
Qed.

(** A revision that changed something found a word to remove. *)
Lemma revise_true_nonempty (cw : Crossword) (x y : Var) (D D' : Domains) :
  revise cw x y D = Ok (true, D') ->
  exists dx, dict_get D x = Ok dx /\ dx <> [].
Proof.
  unfold revise. intros H. bind_inv H. destruct r as [[kx ky]|]; [|discriminate].
  bind_inv H. exists r. split; [exact E0|]. intros ->. discriminate.
Qed.

Lemma ac3_loop_False (cw : Crossword) :
  forall fuel q D D', ac3_loop cw fuel q D = Ok (PyFalse, D') ->
    exists x dx, dict_get D x = Ok dx /\ dx <> [] /\ dict_get D' x = Ok [].
Proof.
  induction fuel as [|fuel IH]; intros q D D' H; simpl in H;
    (destruct (list_pop q) as [[q1 [x y]]|]; [|discriminate]); [discriminate|].
  bind_inv H. destruct r as [b D1].
  assert (Hrec : forall q2, ac3_loop cw fuel q2 D1 = Ok (PyFalse, D') ->
            exists x dx, dict_get D x = Ok dx /\ dx <> [] /\ dict_get D' x = Ok []).
  { intros q2 H2. destruct (IH _ _ _ H2) as (z & dz & Hz & Hne & Hz').
    apply revise_shrinks in E. destruct E as [Hs _].
    destruct (shrinks_get _ _ _ _ Hs Hz) as (dz0 & Hz0 & _ & Hl).
    exists z, dz0. repeat split; auto. intros ->. destruct dz; [congruence|].
    simpl in Hl. lia. }
  destruct b; [|eapply Hrec; exact H].
  bind_inv H. destruct (length r =? 0) eqn:El; [|eapply Hrec; exact H].
  injection H as <-. destruct (revise_true_nonempty _ _ _ _ _ E) as (dx & Hx & Hne).
  exists x, dx. repeat split; auto. apply Nat.eqb_eq in El.
  destruct r; [exact E0 | discriminate].
Qed.

Lemma ac3_loop_not_True (cw : Crossword) :
  forall fuel q D r D', ac3_loop cw fuel q D = Ok (r, D') -> r = PyFalse \/ r = PyNone.
Proof.
  induction fuel as [|fuel IH]; intros q D r D' H; simpl in H;
    (destruct (list_pop q) as [[q1 [x y]]|]; [|injection H as <- <-; auto]);
    [discriminate|].
  bind_inv H. destruct r0 as [b D1]. destruct b; [|eapply IH; exact H].
  bind_inv H. destruct (length r0 =? 0); [|eapply IH; exact H].
  injection H as <- <-. auto.
Qed.

(** Enough fuel: every iteration pops an arc, and pushes at most one arc per
    variable only after a word has gone. *)
Lemma ac3_loop_returns (cw : Crossword) :
  forall fuel q D,
    length q + length (variables cw) * total_size D <= fuel ->
    returns (ac3_loop cw fuel q D).
Proof.
  induction fuel as [|fuel IH]; intros q D Hf; simpl;
    destruct (list_pop q) as [[q1 [x y]]|] eqn:Ep; try apply returns_Ok.
  - apply list_pop_Some in Ep. subst q. rewrite length_app in Hf. simpl in Hf. lia.
  - apply list_pop_Some in Ep. subst q. rewrite length_app in Hf. simpl in Hf.
    apply returns_bind; [apply revise_returns|].
    intros [b D1] E. apply revise_shrinks in E. destruct E as [Hs Hlt].
    apply shrinks_total_size in Hs. destruct b.
    + specialize (Hlt eq_refl).
      apply returns_bind; [apply dict_get_returns|]. intros dx _.
      destruct (length dx =? 0); [apply returns_Ok|].
      apply IH. rewrite length_app, length_map.
      assert (Hn : length (neighbors cw x) <= length (variables cw))
        by apply filter_length_le.
      nia.
    + apply IH. nia.
Qed.

Theorem ac3_returns (cw : Crossword) (arcs : option (list (Var * Var)))
  (D : Domains) (fuel : nat) :
  ac3_budget cw arcs D <= fuel -> returns (ac3 cw fuel arcs D).
Proof. intros H. apply ac3_loop_returns. exact H. Qed.

(** More fuel does not change a result. *)
Lemma ac3_loop_more_fuel (cw : Crossword) :
  forall fuel q D res,
    ac3_loop cw fuel q D = Ok res ->
    forall fuel', fuel <= fuel' -> ac3_loop cw fuel' q D = Ok res.
Proof.
  induction fuel as [|fuel IH]; intros q D res H fuel' Hle; simpl in H.
  - destruct fuel'; simpl; destruct (list_pop q) as [[q1 [x y]]|];
      try discriminate; exact H.
  - destruct fuel' as [|fuel']; [lia|]. simpl.
    destruct (list_pop q) as [[q1 [x y]]|]; [|exact H].
    destruct (revise cw x y D) as [[b D1]| |]; simpl in *; try discriminate.
    destruct b.
    + destruct (dict_get D1 x) as [dx| |]; simpl in *; try discriminate.
      destruct (length dx =? 0); [exact H|]. apply IH with (fuel' := fuel') in H; [exact H | lia].
    + apply IH with (fuel' := fuel') in H; [exact H | lia].
Qed.

(** *** ac3 on a store that is already arc-consistent *)

Lemma revise_loop_stable (x y : Var) (kx ky : nat) (dy : list string) (D : Domains) :
  dict_get D y = Ok dy ->
  Forall (fun w' => ky < String.length w') dy ->
  forall ws, (forall w, In w ws -> supported kx ky dy w) ->
    for_each ws (revise_word x y kx ky) (false, D) = Ok (false, D).
Proof.
  intros Hy Hiy. induction ws as [|w ws IH]; simpl; intros Hs; [reflexivity|].
  assert (Hw : supported_b kx ky dy w = true)
    by (apply supported_b_iff, Hs; auto).
  unfold supported_b in Hw. unfold str_index.
  destruct (String.get kx w) as [c|]; [|discriminate]. simpl.
  rewrite Hy. simpl. rewrite (any_match_indexable _ _ _ Hiy), Hw. simpl.
  apply IH. intros w' Hin. apply Hs. auto.
Qed.

Lemma keys_get {V : Type} (d : dict V) (k : Var) :
  In k (keys d) -> exists v, dict_get d k = Ok v.
Proof. intros H. apply dict_get_mem, dict_mem_keys. exact H. Qed.

Lemma revise_stable (cw : Crossword) (D : Domains) (x y : Var) :
  incl (keys D) (variables cw) -> indexable cw D -> arc_consistent cw D ->
  In x (keys D) -> In y (keys D) -> x <> y ->
  revise cw x y D = Ok (false, D).
Proof.
  intros Hk Hi Hac Hx Hy Hxy. unfold revise.
  destruct (overlaps_table cw x y) as [[kx ky]|] eqn:Ht.
  - assert (Ho : overlaps cw x y = Ok (Some (kx, ky)))
      by (apply overlaps_Ok; auto).
    rewrite Ho. simpl.
    destruct (keys_get _ _ Hx) as [dx Hdx]. destruct (keys_get _ _ Hy) as [dy Hdy].
    rewrite Hdx. simpl. apply revise_loop_stable with dy.
    + exact Hdy.
    + apply Forall_forall. intros w Hw.
      destruct (Hi _ _ _ _ _ _ Ho Hdx Hdy) as [_ H2]. auto.
    + intros w Hw. eapply Hac; eauto.
  - assert (Ho : overlaps cw x y = Ok None) by (apply overlaps_Ok; auto).
    rewrite Ho. reflexivity.
Qed.

Lemma ac3_loop_stable (cw : Crossword) (D : Domains) :
  incl (keys D) (variables cw) -> indexable cw D -> arc_consistent cw D ->
  forall fuel q, arcs_of D q -> length q <= fuel ->
    ac3_loop cw fuel q D = Ok (PyNone, D).
Proof.
  intros Hk Hi Hac. induction fuel as [|fuel IH]; intros q Hq Hf; simpl;
    destruct (list_pop q) as [[q1 [x y]]|] eqn:Ep; try reflexivity;
    apply list_pop_Some in Ep; subst q; rewrite length_app in Hf; simpl in Hf;
    [lia|].
  destruct (Hq x y) as (Hx & Hy & Hxy); [apply in_or_app; simpl; auto|].
  rewrite (revise_stable cw D x y) by assumption. simpl.
  apply IH; [|lia]. intros a b Hin. apply Hq. apply in_or_app. auto.
Qed.

Lemma all_arcs_arcs_of (D : Domains) : arcs_of D (all_arcs D).
Proof.
  unfold arcs_of, all_arcs. intros x y H.
  apply in_flat_map in H. destruct H as [x' [Hx H]].
  apply in_flat_map in H. destruct H as [y' [Hy H]].
  destruct (Var_eqb x' y') eqn:E; simpl in H; [tauto|].
  destruct H as [H|[]]. injection H as <- <-.
  apply Var_eqb_neq in E. auto.
Qed.

Lemma indexable_shrinks (cw : Crossword) (D' D : Domains) :
  shrinks D' D -> indexable cw D -> indexable cw D'.
Proof.
  intros Hs Hi x y kx ky dx dy Ho Hx Hy.
  destruct (shrinks_get _ _ _ _ Hs Hx) as (dx0 & Hx0 & Hix & _).
  destruct (shrinks_get _ _ _ _ Hs Hy) as (dy0 & Hy0 & Hiy & _).
  destruct (Hi _ _ _ _ _ _ Ho Hx0 Hy0) as [H1 H2]. split; auto.
Qed.

Lemma node_consistent_indexable (cw : Crossword) (D : Domains) :
  overlaps_in_range cw -> node_consistent D -> indexable cw D.
Proof.
  intros Hr Hn x y kx ky dx dy Ho Hx Hy. destruct (Hr _ _ _ _ Ho) as [H1 H2].
  split; intros w Hin.
  - rewrite (Hn _ _ _ Hx Hin). exact H1.
  - rewrite (Hn _ _ _ Hy Hin). exact H2.
Qed.

Lemma indexable_b_sound (cw : Crossword) (D : Domains) :
  indexable_b cw D = true -> indexable cw D.
Proof.
  unfold indexable_b. rewrite forallb_forall. intros H x y kx ky dx dy Ho Hx Hy.
  specialize (H _ (dict_get_In _ _ _ Hx)). rewrite forallb_forall in H.
  specialize (H _ (dict_get_In _ _ _ Hy)). simpl in H. rewrite Ho in H.
  apply andb_true_iff in H. destruct H as [H1 H2].
  rewrite forallb_forall in H1, H2.
  split; intros w Hin; apply Nat.ltb_lt; auto.
Qed.

Lemma arc_consistent_b_sound (cw : Crossword) (D : Domains) :
  arc_consistent_b cw D = true -> arc_consistent cw D.
Proof.
  unfold arc_consistent_b. rewrite forallb_forall.
  intros H x y kx ky dx dy w Ho Hx Hy Hin.
  specialize (H _ (dict_get_In _ _ _ Hx)). rewrite forallb_forall in H.
  specialize (H _ (dict_get_In _ _ _ Hy)). simpl in H. rewrite Ho in H.
  rewrite forallb_forall in H. apply supported_b_iff. auto.
Qed.

(** *** The arcs that [ac3] puts back on the worklist *)

(** C1.  On [chain_puzzle], [solve] reaches [ac3] with [chain_store]; [ac3]
    returns None and leaves [chain_store_ac3], where the word FAAA of the
    bottom slot has no supporting word in the left slot: after the left slot
    lost DEF, [ac3] put the arcs from the left slot back on the worklist, not
    the arcs into it. *)
Theorem ac3_leaves_unsupported_word :
  enforce_node_consistency chain_puzzle (init_domains chain_puzzle) = Ok chain_store
  /\ ac3 chain_puzzle (ac3_budget chain_puzzle None chain_store) None chain_store
     = Ok (PyNone, chain_store_ac3)
  /\ overlaps chain_puzzle bottom left = Ok (Some (0, 2))
  /\ dict_get chain_store_ac3 bottom = Ok ["CAAA"; "FAAA"]%string
  /\ dict_get chain_store_ac3 left = Ok ["ABC"]%string
  /\ ~ supported 0 2 ["ABC"]%string "FAAA"%string
  /\ ~ arc_consistent chain_puzzle chain_store_ac3.
Proof.
  assert (Hn : ~ supported 0 2 ["ABC"]%string "FAAA"%string).
  { intros H. apply supported_b_iff in H. discriminate. }
  repeat split; try (vm_compute; reflexivity); [exact Hn|].
  intros Hac. apply Hn.
  apply (Hac bottom left 0 2 ["CAAA"; "FAAA"]%string ["ABC"]%string);
    try reflexivity. simpl. auto.
Qed.

(** C4, as stated, fails: on [dead_puzzle] the first run of [ac3] stops with
    False as soon as the left slot is empty, and the second run goes on to
    empty the bottom slot. *)
Lemma ac3_twice_counterexample :
  enforce_node_consistency dead_puzzle (init_domains dead_puzzle) = Ok dead_store
  /\ exists D1 D2,
       ac3 dead_puzzle (ac3_budget dead_puzzle None dead_store) None dead_store
       = Ok (PyFalse, D1)
       /\ ac3 dead_puzzle (ac3_budget dead_puzzle None D1) None D1 = Ok (PyFalse, D2)
       /\ dict_get D1 bottom = Ok ["FAAA"]%string
       /\ dict_get D2 bottom = Ok [].
Proof.
  split; [vm_compute; reflexivity|].
  exists [(top, ["AX"]); (left, []); (bottom, ["FAAA"])]%string,
         [(top, ["AX"]); (left, []); (bottom, [])]%string.
  repeat split; vm_compute; reflexivity.
Qed.

(** C4, amended.  On a store with keys among the variables and words long
    enough for the overlaps, a run of [ac3] after a run that left the
    domains arc-consistent returns None and leaves every domain exactly as
    the first run left it. *)
Theorem ac3_second_run (cw : Crossword) (D0 D1 : Domains) (fuel fuel' : nat)
  (r : pyval) :
  incl (keys D0) (variables cw) ->
  indexable cw D0 ->
  ac3 cw fuel None D0 = Ok (r, D1) ->
  arc_consistent cw D1 ->
  length (all_arcs D1) <= fuel' ->
  ac3 cw fuel' None D1 = Ok (PyNone, D1).
Proof.
  intros Hk Hi Hrun Hac Hf.
  apply ac3_loop_shrinks in Hrun.
  unfold ac3. apply ac3_loop_stable; auto.
  - rewrite (shrinks_keys _ _ Hrun). exact Hk.
  - eapply indexable_shrinks; eauto.
  - apply all_arcs_arcs_of.
Qed.

Lemma ac3_second_run_witness :
  incl (keys mirror_store) (variables mirror_puzzle)
  /\ indexable mirror_puzzle mirror_store
  /\ ac3 mirror_puzzle (ac3_budget mirror_puzzle None mirror_store) None mirror_store
     = Ok (PyNone, mirror_store_ac3)
  /\ arc_consistent mirror_puzzle mirror_store_ac3
  /\ length (all_arcs mirror_store_ac3) <= ac3_budget mirror_puzzle None mirror_store_ac3
  /\ ac3 mirror_puzzle (ac3_budget mirror_puzzle None mirror_store_ac3) None
         mirror_store_ac3
     = Ok (PyNone, mirror_store_ac3).
Proof.
  assert (H1 : incl (keys mirror_store) (variables mirror_puzzle)) by apply incl_refl.
  assert (H2 : indexable mirror_puzzle mirror_store)
    by (apply indexable_b_sound; vm_compute; reflexivity).
  assert (H3 : ac3 mirror_puzzle (ac3_budget mirror_puzzle None mirror_store) None
                 mirror_store = Ok (PyNone, mirror_store_ac3))
    by (vm_compute; reflexivity).
  assert (H4 : arc_consistent mirror_puzzle mirror_store_ac3)
    by (apply arc_consistent_b_sound; vm_compute; reflexivity).
  assert (H5 : length (all_arcs mirror_store_ac3)
               <= ac3_budget mirror_puzzle None mirror_store_ac3)
    by (vm_compute; lia).
  repeat (split; [assumption|]).
  exact (ac3_second_run mirror_puzzle mirror_store mirror_store_ac3 _ _ PyNone
           H1 H2 H3 H4 H5).
Defined.

(** C10.  Whenever [ac3] returns, it returns False or None, never True, so
    the value is falsy; it returns False only when a domain that held words
    before the call is left empty, hence None when every domain was empty
    before the call; and [solve] goes on to [backtrack] with the store
    [ac3] left, whatever [ac3] returned. *)
Theorem ac3_return_value (cw : Crossword) :
  (forall fuel arcs D r D',
     ac3 cw fuel arcs D = Ok (r, D') ->
     (r = PyFalse \/ r = PyNone)
     /\ truthy r = false
     /\ (r = PyFalse ->
         exists x dx, dict_get D x = Ok dx /\ dx <> [] /\ dict_get D' x = Ok [])
     /\ (all_empty D -> r = PyNone))
  /\ (forall D0 D1 r D2,
        enforce_node_consistency cw D0 = Ok D1 ->
        ac3 cw (ac3_budget cw None D1) None D1 = Ok (r, D2) ->
        solve cw D0
        = ('(result, a) <- backtrack cw D2 (backtrack_budget D2) [] ;;
           Ok (if (result : bool) then Some a else None))).
Proof.
  split.
  - intros fuel arcs D r D' H. unfold ac3 in H.
    pose proof (ac3_loop_not_True _ _ _ _ _ _ H) as Hr.
    assert (HF : r = PyFalse ->
              exists x dx, dict_get D x = Ok dx /\ dx <> [] /\ dict_get D' x = Ok []).
    { intros ->. eapply ac3_loop_False; exact H. }
    repeat split; auto.
    + destruct Hr as [-> | ->]; reflexivity.
    + intros He. destruct Hr as [-> | ->]; [|reflexivity].
      destruct (HF eq_refl) as (x & dx & Hx & Hne & _).
      apply He in Hx. contradiction.
  - intros D0 D1 r D2 H1 H2. unfold solve. rewrite H1. simpl. rewrite H2.
    reflexivity.
Qed.

Lemma ac3_return_value_witness :
  ac3 dead_puzzle (ac3_budget dead_puzzle None dead_store) None dead_store
  = Ok (PyFalse, [(top, ["AX"]); (left, []); (bottom, ["FAAA"])]%string)
  /\ (PyFalse = PyFalse \/ PyFalse = PyNone)
  /\ truthy PyFalse = false
  /\ (PyFalse = PyFalse ->
      exists x dx, dict_get dead_store x = Ok dx /\ dx <> []
        /\ dict_get [(top, ["AX"]); (left, []); (bottom, ["FAAA"])]%string x = Ok [])
  /\ (all_empty dead_store -> PyFalse = PyNone).
Proof.
  assert (H : ac3 dead_puzzle (ac3_budget dead_puzzle None dead_store) None dead_store
              = Ok (PyFalse, [(top, ["AX"]); (left, []); (bottom, ["FAAA"])]%string))
    by (vm_compute; reflexivity).
  split; [exact H|].
  destruct (ac3_return_value dead_puzzle) as [Hv _].
  exact (Hv _ _ _ _ _ H).
Defined.

(** ** select_unassigned_variable *)

(** C2.  On [chain_puzzle], [backtrack] first calls
    [select_unassigned_variable] with the empty assignment and the store
    [ac3] left: it returns the bottom slot, which has two words, although
    the top slot is unassigned and has one.  The loop never updates the
    minimum it compares against, so the last unassigned variable wins. *)
Theorem select_unassigned_variable_not_minimal :
  ac3 chain_puzzle (ac3_budget chain_puzzle None chain_store) None chain_store
  = Ok (PyNone, chain_store_ac3)
  /\ select_unassigned_variable chain_puzzle chain_store_ac3 [] = Some bottom
  /\ dict_get chain_store_ac3 bottom = Ok ["CAAA"; "FAAA"]%string
  /\ dict_get chain_store_ac3 top = Ok ["AX"]%string
  /\ dict_mem (@nil (Var * string)) top = false.
Proof. repeat split; vm_compute; reflexivity. Qed.

(** ** Domains only shrink *)

Lemma enforce_node_consistency_shrinks (cw : Crossword) (D D' : Domains) :
  enforce_node_consistency cw D = Ok D' -> shrinks D' D.
Proof.
  unfold enforce_node_consistency.
  apply (for_each_rel shrinks); [apply shrinks_refl | apply shrinks_trans|].
  intros var D1 D1' _.
  apply (for_each_rel shrinks); [apply shrinks_refl | apply shrinks_trans|].
  intros word D2 D2' _.
  destruct (negb (String.length word =? var_length var)).
  - apply domains_remove_shrinks.
  - intros H. injection H as <-. apply shrinks_refl.
Qed.

Lemma store_after_shrinks (cw : Crossword) (op : operation) (D D' : Domains) :
  store_after cw op D = Ok D' -> shrinks D' D.
Proof.
  destruct op as [|x y|fuel arcs|fuel a]; simpl; intros H.
  - apply enforce_node_consistency_shrinks with cw. exact H.
  - bind_inv H. destruct r as [b D1]. injection H as <-.
    apply revise_shrinks in E. tauto.
  - bind_inv H. destruct r as [r D1]. injection H as <-.
    unfold ac3 in E. eapply ac3_loop_shrinks; eauto.
  - bind_inv H. injection H as <-. apply shrinks_refl.
Qed.

(** C9.  After any of [enforce_node_consistency], [revise], [ac3] and
    [backtrack] the store has the keys it had, and the domain of each
    variable is included in, and no longer than, the domain it had before:
    no word is ever added. *)
Theorem domains_only_shrink (cw : Crossword) (op : operation) (D D' : Domains) :
  store_after cw op D = Ok D' ->
  keys D' = keys D
  /\ forall x dx', dict_get D' x = Ok dx' ->
       exists dx, dict_get D x = Ok dx
         /\ (forall w, In w dx' -> In w dx)
         /\ length dx' <= length dx.
Proof.
  intros H. apply store_after_shrinks in H. split.
  - apply shrinks_keys. exact H.
  - intros x dx' Hx. destruct (shrinks_get _ _ _ _ H Hx) as (dx & Hd & Hi & Hl).
    exists dx. auto.
Qed.

Lemma domains_only_shrink_witness :
  store_after chain_puzzle (Ac3 (ac3_budget chain_puzzle None chain_store) None)
              chain_store = Ok chain_store_ac3
  /\ keys chain_store_ac3 = keys chain_store
  /\ forall x dx', dict_get chain_store_ac3 x = Ok dx' ->
       exists dx, dict_get chain_store x = Ok dx
         /\ (forall w, In w dx' -> In w dx)
         /\ length dx' <= length dx.
Proof.
  assert (H : store_after chain_puzzle
                (Ac3 (ac3_budget chain_puzzle None chain_store) None) chain_store
              = Ok chain_store_ac3) by (vm_compute; reflexivity).
  split; [exact H|].
  exact (domains_only_shrink chain_puzzle _ chain_store chain_store_ac3 H).
Defined.

(** ** order_domain_values *)

Lemma map_m_Ok {A B : Type} (f : A -> outcome B) (g : A -> B) (l : list A) :
  (forall a, In a l -> f a = Ok (g a)) -> map_m f l = Ok (map g l).
Proof.
  induction l as [|a l IH]; simpl; intros H; [reflexivity|].
  rewrite (H a) by auto. simpl. rewrite IH by auto. reflexivity.
Qed.

Lemma map_m_length {A B : Type} (f : A -> outcome B) (l : list A) (ks : list B) :
  map_m f l = Ok ks -> length ks = length l.
Proof.
  revert ks. induction l as [|a l IH]; simpl; intros ks H.
  - injection H as <-. reflexivity.
  - bind_inv H. bind_inv H. injection H as <-. simpl. f_equal. auto.
Qed.

Lemma filter_m_Ok {A : Type} (pred : A -> outcome bool) (p : A -> bool) (l : list A) :
  (forall a, In a l -> pred a = Ok (p a)) -> filter_m pred l = Ok (filter p l).
Proof.
  induction l as [|a l IH]; simpl; intros H; [reflexivity|].
  rewrite (H a) by auto. simpl. rewrite IH by auto. reflexivity.
Qed.

Lemma filter_length_complement {A : Type} (p : A -> bool) (l : list A) :
  length l - length (filter p l) = length (filter (fun a => negb (p a)) l).
Proof.
  induction l as [|a l IH]; [reflexivity|].
  cbn [filter]. pose proof (filter_length_le p l).
  destruct (p a); cbn [negb length]; lia.
Qed.

Lemma insert_keyed_perm {A : Type} (kx : nat * A) (l : list (nat * A)) :
  Permutation (insert_keyed kx l) (kx :: l).
Proof.
  induction l as [|ky l IH]; simpl; [reflexivity|].
  destruct (fst kx <=? fst ky); [reflexivity|].
  rewrite IH. apply perm_swap.
Qed.

Lemma insert_keyed_sorted {A : Type} (kx : nat * A) (l : list (nat * A)) :
  Sorted (fun a b => fst a <= fst b) l ->
  Sorted (fun a b => fst a <= fst b) (insert_keyed kx l).
Proof.
  induction 1 as [|ky l Hs IH Hd]; simpl.
  - repeat constructor.
  - destruct (fst kx <=? fst ky) eqn:E.
    + apply Nat.leb_le in E. repeat constructor; assumption.
    + apply Nat.leb_gt in E. constructor; [exact IH|].
      destruct Hd as [|kz l Hz]; simpl.
      * constructor. lia.
      * destruct (fst kx <=? fst kz); constructor; [lia | exact Hz].
Qed.

Lemma sort_keyed_perm {A : Type} (l : list (nat * A)) :
  Permutation (fold_right insert_keyed [] l) l.
Proof.
  induction l as [|a l IH]; simpl; [reflexivity|].
  rewrite insert_keyed_perm. constructor. exact IH.
Qed.

Lemma sort_keyed_sorted {A : Type} (l : list (nat * A)) :
  Sorted (fun a b => fst a <= fst b) (fold_right insert_keyed [] l).
Proof.
  induction l as [|a l IH]; simpl; [constructor|].
  apply insert_keyed_sorted. exact IH.
Qed.

Lemma map_snd_combine {A B : Type} (ks : list A) (l : list B) :
  length ks = length l -> map snd (combine ks l) = l.
Proof.
  revert l. induction ks as [|k ks IH]; destruct l as [|b l]; simpl;
    intros H; try discriminate; [reflexivity|].
  f_equal. apply IH. lia.
Qed.

(** Whenever [sorted] returns, it returns a rearrangement of its argument. *)
Lemma sorted_by_key_perm {A : Type} (f : A -> outcome nat) (l l' : list A) :
  sorted_by_key f l = Ok l' -> Permutation l' l.
Proof.
  unfold sorted_by_key. intros H. bind_inv H. injection H as <-.
  rewrite sort_keyed_perm. rewrite map_snd_combine; [reflexivity|].
  eapply map_m_length; eauto.
Qed.

Lemma sorted_map_snd {A : Type} (g : A -> nat) (l : list (nat * A)) :
  Forall (fun p => fst p = g (snd p)) l ->
  Sorted (fun a b => fst a <= fst b) l ->
  Sorted (fun a b => g a <= g b) (map snd l).
Proof.
  intros Hf Hs. induction Hs as [|p l Hs IH Hd]; simpl; [constructor|].
  inversion Hf as [|p0 l0 Hp Hl]; subst. constructor; [auto|].
  destruct Hd as [|q l Hq]; simpl; constructor.
  inversion Hl as [|q0 l1 Hq' _]; subst. rewrite <- Hp, <- Hq'. exact Hq.
Qed.

Lemma sorted_by_key_sorted {A : Type} (f : A -> outcome nat) (g : A -> nat)
  (l : list A) :
  (forall a, In a l -> f a = Ok (g a)) ->
  exists l', sorted_by_key f l = Ok l'
    /\ Permutation l' l
    /\ Sorted (fun a b => g a <= g b) l'.
Proof.
  intros Hf. unfold sorted_by_key. rewrite (map_m_Ok f g l Hf). simpl.
  eexists. split; [reflexivity|]. split.
  - rewrite sort_keyed_perm. rewrite map_snd_combine; [reflexivity|].
    apply length_map.
  - apply sorted_map_snd; [|apply sort_keyed_sorted].
    eapply Permutation_Forall; [symmetry; apply sort_keyed_perm|].
    apply Forall_forall. intros [k a] Hin. simpl.
    clear Hf. induction l as [|b l IH]; simpl in Hin; [contradiction|].
    destruct Hin as [Hin|Hin]; [injection Hin as <- <-; reflexivity | auto].
Qed.

Lemma overlap_count_exact (D : Domains) (c : ascii) (ky : nat) (n : Var)
  (dn : list string) :
  dict_get D n = Ok dn ->
  (forall w', In w' dn -> ky < String.length w') ->
  overlap_count D c ky n
  = Ok (length (filter (fun w' => letters_differ (String.get ky w') (Some c)) dn)).
Proof.
  intros Hg Hi. unfold overlap_count. rewrite Hg. simpl.
  rewrite (filter_m_Ok _ (fun w' => match String.get ky w' with
                                    | Some c' => Ascii.eqb c' c
                                    | None => false
                                    end)).
  - simpl. rewrite filter_length_complement. do 2 f_equal.
    apply filter_ext_in. intros w' Hin.
    destruct (str_index_lt _ _ (Hi _ Hin)) as [c' ->]. reflexivity.
  - intros w' Hin. unfold str_index.
    destruct (str_index_lt _ _ (Hi _ Hin)) as [c' ->]. reflexivity.
Qed.

Lemma for_each_sum {A : Type} (body : A -> nat -> outcome nat) (h : A -> nat)
  (l : list A) :
  (forall a t, In a l -> body a t = Ok (t + h a)) ->
  forall t0, for_each l body t0 = Ok (t0 + list_sum (map h l)).
Proof.
  induction l as [|a l IH]; simpl; intros Hb t0.
  - rewrite Nat.add_0_r. reflexivity.
  - rewrite Hb by auto. simpl. rewrite IH by auto. f_equal. lia.
Qed.

Lemma neighbors_In (cw : Crossword) (var n : Var) :
  In n (neighbors cw var) ->
  In n (variables cw) /\ n <> var /\ overlaps_table cw n var <> None.
Proof.
  unfold neighbors. rewrite filter_In, andb_true_iff, negb_true_iff, Var_eqb_neq.
  intros (Hin & Hne & Hs). repeat split; auto.
  destruct (overlaps_table cw n var); [discriminate | discriminate Hs].
Qed.

Lemma sort_function_exact (cw : Crossword) (D : Domains) (a : Assignment)
  (var : Var) (dv : list string) (w : string) :
  In var (variables cw) -> overlaps_symmetric cw -> has_domains cw D ->
  indexable cw D -> dict_get D var = Ok dv -> In w dv ->
  sort_function cw D var
    (filter (fun v => negb (dict_mem a v)) (neighbors cw var)) w
  = Ok (eliminated cw D a var w).
Proof.
  intros Hvar Hsym Hdom Hix Hdv Hw. unfold sort_function, eliminated.
  rewrite (for_each_sum _ (fun n => match overlaps_table cw var n, dict_get D n with
                                    | Some (kx, ky), Ok dn => eliminated_from kx ky w dn
                                    | _, _ => 0
                                    end)); [reflexivity|].
  intros n t Hn. apply filter_In in Hn. destruct Hn as [Hn _].
  apply neighbors_In in Hn. destruct Hn as (Hnv & Hne & Hov).
  destruct (overlaps_table cw n var) as [[k1 k2]|] eqn:Et; [|congruence].
  pose proof (Hsym _ _ _ _ Hnv Hvar Et) as Et'.
  assert (Ho : overlaps cw var n = Ok (Some (k2, k1)))
    by (apply overlaps_Ok; auto).
  rewrite Ho, Et'. simpl.
  destruct (Hdom _ Hnv) as [dn Hdn]. rewrite Hdn.
  destruct (Hix _ _ _ _ _ _ Ho Hdv Hdn) as [H1 H2].
  unfold str_index. destruct (str_index_lt _ _ (H1 _ Hw)) as [c Hc].
  rewrite Hc. simpl. rewrite (overlap_count_exact D c k1 n dn Hdn H2). simpl.
  unfold eliminated_from. rewrite Hc. reflexivity.
Qed.

Lemma Sorted_total {A : Type} (R : A -> A -> Prop) (l : list A) :
  (forall a b, R a b) -> Sorted R l.
Proof.
  intros HR. induction l as [|a l IH]; constructor; [exact IH|].
  destruct l; constructor. apply HR.
Qed.

(** C7.  [order_domain_values] returns the words of the domain of [var],
    each once, in non-decreasing order of the number of words their choice
    would eliminate from the domains of the unassigned neighbors of [var];
    assigned neighbors are not counted. *)
Theorem order_domain_values_spec (cw : Crossword) (D : Domains) (var : Var)
  (assignment : Assignment) (dv : list string) :
  In var (variables cw) ->
  overlaps_symmetric cw ->
  has_domains cw D ->
  indexable cw D ->
  dict_get D var = Ok dv ->
  exists l,
    order_domain_values cw D var assignment = Ok l
    /\ Permutation l dv
    /\ Sorted (fun w1 w2 => eliminated cw D assignment var w1
                            <= eliminated cw D assignment var w2) l.
Proof.
  intros Hvar Hsym Hdom Hix Hdv. unfold order_domain_values.
  destruct (filter (fun v => negb (dict_mem assignment v)) (neighbors cw var))
    as [|n ns] eqn:Eu.
  - simpl. exists dv. split; [exact Hdv|]. split; [reflexivity|].
    apply Sorted_total. intros w1 w2. unfold eliminated. rewrite Eu. simpl. lia.
  - simpl. rewrite Hdv. simpl. rewrite <- Eu.
    apply sorted_by_key_sorted. intros w Hw.
    apply sort_function_exact with dv; assumption.
Qed.

Ltac concrete_vars H :=
  simpl in H; repeat (destruct H as [<-|H]); try contradiction.

Lemma chain_puzzle_symmetric : overlaps_symmetric chain_puzzle.
Proof.
  intros x y k1 k2 Hx Hy H. concrete_vars Hx; concrete_vars Hy;
    vm_compute in H; try discriminate; injection H as <- <-; reflexivity.
Qed.

Lemma chain_store_has_domains : has_domains chain_puzzle chain_store.
Proof. intros v Hv. concrete_vars Hv; eexists; reflexivity. Qed.

Lemma order_domain_values_spec_witness :
  In left (variables chain_puzzle)
  /\ overlaps_symmetric chain_puzzle
  /\ has_domains chain_puzzle chain_store
  /\ indexable chain_puzzle chain_store
  /\ dict_get chain_store left = Ok ["ABC"; "DEF"]%string
  /\ exists l,
       order_domain_values chain_puzzle chain_store left [] = Ok l
       /\ Permutation l ["ABC"; "DEF"]%string
       /\ Sorted (fun w1 w2 => eliminated chain_puzzle chain_store [] left w1
                               <= eliminated chain_puzzle chain_store [] left w2) l.
Proof.
  assert (H1 : In left (variables chain_puzzle)) by (simpl; auto).
  assert (H4 : indexable chain_puzzle chain_store)
    by (apply indexable_b_sound; vm_compute; reflexivity).
  assert (H5 : dict_get chain_store left = Ok ["ABC"; "DEF"]%string) by reflexivity.
  split; [exact H1|]. split; [exact chain_puzzle_symmetric|].
  split; [exact chain_store_has_domains|]. split; [exact H4|]. split; [exact H5|].
  exact (order_domain_values_spec chain_puzzle chain_store left [] _
           H1 chain_puzzle_symmetric chain_store_has_domains H4 H5).
Defined.

(** ** backtrack *)

Lemma select_unassigned_variable_Some (cw : Crossword) (D : Domains)
  (a : Assignment) (v : Var) :
  select_unassigned_variable cw D a = Some v ->
  dict_mem a v = false /\ In v (keys D).
Proof.
  unfold select_unassigned_variable.
  assert (G : forall acc,
             fold_left (fun current_var (item : Var * list string) =>
               let '(var, ws) := item in
               if negb (dict_mem a var) then
                 if (N.ltb (N.of_nat (length ws)) min_remaining_values
                     || (N.eqb (N.of_nat (length ws)) min_remaining_values
                         && (current_highest_degree <? length (neighbors cw var))))%bool
                 then Some var else current_var
               else current_var) D acc = Some v ->
             acc = Some v \/ (dict_mem a v = false /\ In v (keys D))).
  { induction D as [|[k d] D IH]; simpl; intros acc H; [auto|].
    apply IH in H. destruct H as [H|[H1 H2]]; [|auto].
    destruct (dict_mem a k) eqn:Ek; simpl in H; [auto|].
    destruct (_ || _)%bool; [|auto].
    injection H as <-. auto. }
  intros H. apply G in H. destruct H as [H|H]; [discriminate | exact H].
Qed.

Lemma assignment_complete_true (cw : Crossword) (a : Assignment) :
  assignment_complete cw a = Ok true ->
  forall v, In v (variables cw) -> exists w, dict_get a v = Ok w /\ w <> ""%string.
Proof.
  unfold assignment_complete. induction (variables cw) as [|k vars IH];
    intros H v Hv; [contradiction|].
  destruct (dict_mem a k); [|discriminate].
  destruct (dict_get a k) as [w| |] eqn:Eg; simpl in H; try discriminate.
  destruct w as [|c w]; simpl in H; [discriminate|].
  destruct Hv as [<-|Hv]; [|auto].
  exists (String c w). split; [exact Eg | discriminate].
Qed.

(** The loop of [backtrack] leaves the dict as it found it, or returns it
    complete and checked. *)
Lemma backtrack_words_post (cw : Crossword)
  (rec : Assignment -> outcome (bool * Assignment)) (v : Var) (a : Assignment) :
  (forall a1 res, rec a1 = Ok res -> backtrack_post cw a1 res) ->
  dict_mem a v = false ->
  forall ws res, backtrack_words cw rec v ws a = Ok res ->
    (fst res = false -> snd res = a)
    /\ (fst res = true ->
        assignment_complete cw (snd res) = Ok true
        /\ consistent cw (snd res) = Ok true).
Proof.
  intros Hrec Hv. induction ws as [|w ws IH]; simpl; intros res H.
  - injection H as <-. simpl. split; [auto | discriminate].
  - bind_inv H. pose proof (dict_del_set_absent a v w Hv) as Hdel.
    destruct r as [|].
    + bind_inv H. destruct r as [result a2].
      destruct (Hrec _ _ E0) as [Hf Ht]. simpl in Hf, Ht. destruct result.
      * destruct (Ht eq_refl) as [Hc Hk].
        assert (Hc2 : consistent cw a2 = Ok true)
          by (destruct Hk as [->|Hk]; assumption).
        rewrite Hc2 in H. simpl in H. injection H as <-. simpl.
        split; [discriminate | auto].
      * rewrite (Hf eq_refl), Hdel in H. simpl in H. apply IH. exact H.
    + rewrite Hdel in H. simpl in H. apply IH. exact H.
Qed.

Lemma backtrack_post_holds (cw : Crossword) (D : Domains) :
  forall fuel a res, backtrack cw D fuel a = Ok res -> backtrack_post cw a res.
Proof.
  induction fuel as [|fuel IH]; intros a res H; simpl in H; [discriminate|].
  bind_inv H. destruct r.
  - injection H as <-. split; simpl; [discriminate | auto].
  - destruct (select_unassigned_variable cw D a) as [v|] eqn:Es; [|discriminate].
    bind_inv H. apply select_unassigned_variable_Some in Es. destruct Es as [Hv _].
    destruct (backtrack_words_post cw _ v a (IH) Hv _ _ H) as [Hf Ht].
    split; [exact Hf|]. intros Hr. destruct (Ht Hr). auto.
Qed.

Lemma order_domain_values_incl (cw : Crossword) (D : Domains) (v : Var)
  (a : Assignment) (l : list string) :
  order_domain_values cw D v a = Ok l ->
  exists dv, dict_get D v = Ok dv /\ incl l dv.
Proof.
  unfold order_domain_values.
  destruct (length _ =? 0); intros H.
  - exists l. split; [exact H | apply incl_refl].
  - bind_inv H. exists r. split; [exact E|].
    apply sorted_by_key_perm in H. intros w Hw.
    eapply Permutation_in; eauto.
Qed.

Lemma from_dictionary_set (cw : Crossword) (a : Assignment) (v : Var) (w : string) :
  from_dictionary cw a -> In w (words cw) -> from_dictionary cw (dict_set a v w).
Proof.
  intros Ha Hw v' w' Hin. apply dict_set_In in Hin.
  destruct Hin as [Hin|[_ ->]]; [eapply Ha; eauto | exact Hw].
Qed.

Lemma from_dictionary_del (cw : Crossword) (a a' : Assignment) (v : Var) :
  from_dictionary cw a -> dict_del a v = Ok a' -> from_dictionary cw a'.
Proof.
  intros Ha Hd v' w' Hin. apply dict_del_incl in Hd. eapply Ha. apply Hd. eauto.
Qed.

Lemma backtrack_words_dictionary (cw : Crossword)
  (rec : Assignment -> outcome (bool * Assignment)) (v : Var) :
  (forall a1 res, from_dictionary cw a1 -> rec a1 = Ok res ->
                  from_dictionary cw (snd res)) ->
  forall ws, (forall w, In w ws -> In w (words cw)) ->
  forall a res, from_dictionary cw a ->
    backtrack_words cw rec v ws a = Ok res -> from_dictionary cw (snd res).
Proof.
  intros Hrec. induction ws as [|w ws IH]; simpl; intros Hws a res Ha H.
  - injection H as <-. exact Ha.
  - assert (Ha1 : from_dictionary cw (dict_set a v w))
      by (apply from_dictionary_set; auto).
    bind_inv H. destruct r.
    + bind_inv H. destruct r as [result a2].
      pose proof (Hrec _ _ Ha1 E0) as Ha2. simpl in Ha2. destruct result.
      * bind_inv H. destruct r.
        -- injection H as <-. exact Ha2.
        -- bind_inv H. eapply IH; [auto | | exact H].
           eapply from_dictionary_del; eauto.
      * bind_inv H. eapply IH; [auto | | exact H].
        eapply from_dictionary_del; eauto.
    + bind_inv H. eapply IH; [auto | | exact H].
      eapply from_dictionary_del; eauto.
Qed.

Lemma backtrack_dictionary (cw : Crossword) (D : Domains) :
  store_from_dictionary cw D ->
  forall fuel a res, from_dictionary cw a ->
    backtrack cw D fuel a = Ok res -> from_dictionary cw (snd res).
Proof.
  intros HD. induction fuel as [|fuel IH]; intros a res Ha H; simpl in H;
    [discriminate|].
  bind_inv H. destruct r.
  - injection H as <-. exact Ha.
  - destruct (select_unassigned_variable cw D a) as [v|]; [|discriminate].
    bind_inv H. apply order_domain_values_incl in E0.
    destruct E0 as (dv & Hdv & Hincl).
    eapply backtrack_words_dictionary; [exact IH | | exact Ha | exact H].
    intros w Hw. eapply HD; eauto.
Qed.

(** Whatever holds of the bindings passed in and of the words of the store
    holds of the bindings of the result: the search only adds bindings, of
    words of the store. *)
Lemma backtrack_words_bindings (cw : Crossword)
  (rec : Assignment -> outcome (bool * Assignment)) (v : Var)
  (P : Var -> string -> Prop) :
  (forall a1 res, (forall x w, In (x, w) a1 -> P x w) -> rec a1 = Ok res ->
                  forall x w, In (x, w) (snd res) -> P x w) ->
  forall ws, (forall w, In w ws -> P v w) ->
  forall a res, (forall x w, In (x, w) a -> P x w) ->
    backtrack_words cw rec v ws a = Ok res ->
    forall x w, In (x, w) (snd res) -> P x w.
Proof.
  intros Hrec. induction ws as [|w ws IH]; simpl; intros Hws a res Ha H.
  - injection H as <-. exact Ha.
  - assert (Ha1 : forall x w0, In (x, w0) (dict_set a v w) -> P x w0).
    { intros x w0 Hin. apply dict_set_In in Hin.
      destruct Hin as [Hin|[-> ->]]; [apply Ha; exact Hin | apply Hws; left; reflexivity]. }
    assert (Hdel : forall a2 a3, (forall x w0, In (x, w0) a2 -> P x w0) ->
                     dict_del a2 v = Ok a3 -> forall x w0, In (x, w0) a3 -> P x w0).
    { intros a2 a3 H2 Hd x w0 Hin. apply H2. exact (dict_del_incl _ _ _ Hd _ Hin). }
    bind_inv H. destruct r.
    + bind_inv H. destruct r as [result a2].
      pose proof (Hrec _ _ Ha1 E0) as Ha2. simpl in Ha2. destruct result.
      * bind_inv H. destruct r.
        -- injection H as <-. exact Ha2.
        -- bind_inv H. eapply IH; [auto | | exact H]. eapply Hdel; eauto.
      * bind_inv H. eapply IH; [auto | | exact H]. eapply Hdel; eauto.
    + bind_inv H. eapply IH; [auto | | exact H]. eapply Hdel; eauto.
Qed.

Lemma backtrack_bindings (cw : Crossword) (D : Domains) (P : Var -> string -> Prop) :
  (forall x dx w, dict_get D x = Ok dx -> In w dx -> P x w) ->
  forall fuel a res, (forall x w, In (x, w) a -> P x w) ->
    backtrack cw D fuel a = Ok res ->
    forall x w, In (x, w) (snd res) -> P x w.
Proof.
  intros HD. induction fuel as [|fuel IH]; intros a res Ha H; simpl in H;
    [discriminate|].
  bind_inv H. destruct r.
  - injection H as <-. exact Ha.
  - destruct (select_unassigned_variable cw D a) as [v|]; [|discriminate].
    bind_inv H. apply order_domain_values_incl in E0.
    destruct E0 as (dv & Hdv & Hincl).
    eapply backtrack_words_bindings; [exact IH | | exact Ha | exact H].
    intros w Hw. eapply HD; eauto.
Qed.

(** A complete dict is handed back as it is. *)
Lemma backtrack_complete_start (cw : Crossword) (D : Domains) (fuel : nat)
  (a : Assignment) (res : bool * Assignment) :
  assignment_complete cw a = Ok true ->
  backtrack cw D fuel a = Ok res -> res = (true, a).
Proof.
  intros Hc H. destruct fuel as [|fuel]; simpl in H; [discriminate|].
  rewrite Hc in H. simpl in H. injection H as <-. reflexivity.
Qed.

(** C3, as stated, fails: [backtrack] returns a dict that is already
    complete without looking at it.  Over the store that [solve] searches
    for [chain_puzzle], a complete dict on which [consistent] returns False
    comes back as the result, and so does a complete, consistent dict that
    binds a word which is not in the dictionary. *)
Lemma backtrack_returns_unchecked_counterexample :
  store_from_dictionary chain_puzzle chain_store_ac3
  /\ backtrack chain_puzzle chain_store_ac3 (backtrack_budget chain_store_ac3)
       [(top, "AX"); (left, "DEF"); (bottom, "CAAA")]%string
     = Ok (true, [(top, "AX"); (left, "DEF"); (bottom, "CAAA")]%string)
  /\ consistent chain_puzzle [(top, "AX"); (left, "DEF"); (bottom, "CAAA")]%string
     = Ok false
  /\ backtrack chain_puzzle chain_store_ac3 (backtrack_budget chain_store_ac3)
       [(top, "AX"); (left, "ABC"); (bottom, "CZZZ")]%string
     = Ok (true, [(top, "AX"); (left, "ABC"); (bottom, "CZZZ")]%string)
  /\ consistent chain_puzzle [(top, "AX"); (left, "ABC"); (bottom, "CZZZ")]%string
     = Ok true
  /\ ~ In "CZZZ"%string (words chain_puzzle).
Proof.
  split.
  { intros x dx w Hg Hin. apply dict_get_In in Hg. simpl in Hg.
    repeat (destruct Hg as [Hg|Hg]; [injection Hg as <- <-; simpl in *; tauto|]).
    contradiction. }
  repeat split; try (vm_compute; reflexivity).
  simpl. intros H. repeat (destruct H as [H|H]; [discriminate|]). exact H.
Qed.

(** C3, amended.  Over a store of dictionary words, an assignment that
    [backtrack] returns binds every variable of the crossword.  A dict that
    was complete when passed in is returned as it is, unchecked; otherwise
    [consistent] returns True on the result.  Every binding of the result
    is one that was passed in or binds a word of the dictionary.  So when
    the dict passed in is consistent ([solve] passes the empty one) the
    result is consistent, and when it holds dictionary words so does the
    result. *)
Theorem backtrack_sound (cw : Crossword) (D : Domains) (fuel : nat)
  (assignment result : Assignment) :
  store_from_dictionary cw D ->
  backtrack cw D fuel assignment = Ok (true, result) ->
  (forall v, In v (variables cw) ->
     exists w, dict_get result v = Ok w /\ w <> ""%string)
  /\ ((assignment_complete cw assignment = Ok true /\ result = assignment)
      \/ (assignment_complete cw assignment = Ok false
          /\ consistent cw result = Ok true))
  /\ (forall v w, In (v, w) result ->
        In (v, w) assignment \/ In w (words cw))
  /\ (consistent cw assignment = Ok true -> consistent cw result = Ok true)
  /\ (from_dictionary cw assignment -> from_dictionary cw result).
Proof.
  intros HD H.
  destruct (backtrack_post_holds cw D _ _ _ H) as [_ Ht]. simpl in Ht.
  destruct (Ht eq_refl) as [Hcomplete Hk].
  assert (Hcases : (assignment_complete cw assignment = Ok true /\ result = assignment)
                   \/ (assignment_complete cw assignment = Ok false
                       /\ consistent cw result = Ok true)).
  { destruct (assignment_complete cw assignment) as [c|e|] eqn:Ec.
    - destruct c.
      + left. split; [reflexivity|].
        pose proof (backtrack_complete_start cw D fuel assignment _ Ec H) as E.
        injection E as E. exact E.
      + right. split; [reflexivity|]. destruct Hk as [Hk|Hk]; [|exact Hk].
        rewrite Hk, Ec in Hcomplete. discriminate.
    - destruct fuel as [|f]; simpl in H; [discriminate|].
      rewrite Ec in H. discriminate.
    - destruct fuel as [|f]; simpl in H; [discriminate|].
      rewrite Ec in H. discriminate. }
  assert (Hb : forall v w, In (v, w) result ->
                 In (v, w) assignment \/ In w (words cw)).
  { apply (backtrack_bindings cw D
             (fun v w => In (v, w) assignment \/ In w (words cw))) with
      (fuel := fuel) (a := assignment) (res := (true, result)).
    - intros x dx w Hg Hin. right. exact (HD x dx w Hg Hin).
    - intros x w Hin. left. exact Hin.
    - exact H. }
  split; [apply assignment_complete_true; exact Hcomplete|].
  split; [exact Hcases|]. split; [exact Hb|]. split.
  - intros Hc. destruct Hcases as [[_ ->]|[_ Hr]]; assumption.
  - intros Ha v w Hin. destruct (Hb v w Hin) as [Hin'|Hw]; [exact (Ha v w Hin') | exact Hw].
Qed.

Lemma chain_store_ac3_from_dictionary :
  store_from_dictionary chain_puzzle chain_store_ac3.
Proof.
  intros x dx w Hg Hin. apply dict_get_In in Hg. simpl in Hg.
  repeat (destruct Hg as [Hg|Hg]; [injection Hg as <- <-; simpl in *; tauto|]).
  contradiction.
Qed.

Lemma backtrack_sound_witness :
  store_from_dictionary chain_puzzle chain_store_ac3
  /\ backtrack chain_puzzle chain_store_ac3 (backtrack_budget chain_store_ac3)
       [(top, "AX"%string)]
     = Ok (true, [(top, "AX"); (bottom, "CAAA"); (left, "ABC")]%string)
  /\ (forall v, In v (variables chain_puzzle) ->
        exists w, dict_get [(top, "AX"); (bottom, "CAAA"); (left, "ABC")]%string v
                  = Ok w /\ w <> ""%string)
  /\ ((assignment_complete chain_puzzle [(top, "AX"%string)] = Ok true
       /\ [(top, "AX"); (bottom, "CAAA"); (left, "ABC")]%string
          = [(top, "AX"%string)])
      \/ (assignment_complete chain_puzzle [(top, "AX"%string)] = Ok false
          /\ consistent chain_puzzle
               [(top, "AX"); (bottom, "CAAA"); (left, "ABC")]%string = Ok true))
  /\ (forall v w, In (v, w) [(top, "AX"); (bottom, "CAAA"); (left, "ABC")]%string ->
        In (v, w) [(top, "AX"%string)] \/ In w (words chain_puzzle))
  /\ (consistent chain_puzzle [(top, "AX"%string)] = Ok true ->
      consistent chain_puzzle [(top, "AX"); (bottom, "CAAA"); (left, "ABC")]%string
      = Ok true)
  /\ (from_dictionary chain_puzzle [(top, "AX"%string)] ->
      from_dictionary chain_puzzle
        [(top, "AX"); (bottom, "CAAA"); (left, "ABC")]%string).
Proof.
  assert (H2 : backtrack chain_puzzle chain_store_ac3
                 (backtrack_budget chain_store_ac3) [(top, "AX"%string)]
               = Ok (true, [(top, "AX"); (bottom, "CAAA"); (left, "ABC")]%string))
    by (vm_compute; reflexivity).
  split; [exact chain_store_ac3_from_dictionary|]. split; [exact H2|].
  exact (backtrack_sound chain_puzzle chain_store_ac3 _ [(top, "AX"%string)] _
           chain_store_ac3_from_dictionary H2).
Defined.

(** *** The search comes back *)

Lemma assignment_complete_returns (cw : Crossword) (a : Assignment) :
  returns (assignment_complete cw a).
Proof.
  unfold assignment_complete. induction (variables cw) as [|v vars IH];
    repeat returns_step; auto using dict_get_returns.
Qed.

Lemma consistent_neighbors_returns (cw : Crossword) (a : Assignment) (var : Var)
  (word : string) (ns : list Var) :
  returns (consistent_neighbors cw a var word ns).
Proof.
  induction ns as [|n ns IH]; simpl; repeat returns_step;
    auto using dict_get_returns, overlaps_returns, str_index_returns.
Qed.

Lemma consistent_returns (cw : Crossword) (a : Assignment) :
  returns (consistent cw a).
Proof.
  unfold consistent. generalize (@nil string). generalize a at 2.
  induction a0 as [|[var word] items IH]; intros all_words; simpl;
    repeat returns_step; auto using consistent_neighbors_returns.
Qed.

Lemma map_m_returns {A B : Type} (f : A -> outcome B) (l : list A) :
  (forall a, returns (f a)) -> returns (map_m f l).
Proof. intros Hf. induction l; simpl; repeat returns_step; auto. Qed.

Lemma filter_m_returns {A : Type} (f : A -> outcome bool) (l : list A) :
  (forall a, returns (f a)) -> returns (filter_m f l).
Proof. intros Hf. induction l; simpl; repeat returns_step; auto. Qed.

Lemma overlap_count_returns (D : Domains) (c : ascii) (k : nat) (v : Var) :
  returns (overlap_count D c k v).
Proof.
  unfold overlap_count. repeat returns_step; auto using dict_get_returns.
  apply filter_m_returns. intros w. repeat returns_step; auto using str_index_returns.
Qed.

Lemma sort_function_returns (cw : Crossword) (D : Domains) (var : Var)
  (ns : list Var) (w : string) :
  returns (sort_function cw D var ns w).
Proof.
  unfold sort_function. repeat returns_step;
    auto using overlaps_returns, str_index_returns, overlap_count_returns.
Qed.

Lemma order_domain_values_returns (cw : Crossword) (D : Domains) (var : Var)
  (a : Assignment) :
  returns (order_domain_values cw D var a).
Proof.
  unfold order_domain_values, sorted_by_key. repeat returns_step;
    auto using dict_get_returns.
  apply map_m_returns. intros w. apply sort_function_returns.
Qed.

Lemma filter_length_mono {A : Type} (p q : A -> bool) (l : list A) :
  (forall x, q x = true -> p x = true) ->
  length (filter q l) <= length (filter p l).
Proof.
  intros Hqp. induction l as [|x l IH]; simpl; [lia|].
  destruct (q x) eqn:Eq.
  - rewrite (Hqp x Eq). simpl. lia.
  - destruct (p x); simpl; lia.
Qed.

Lemma filter_length_lt {A : Type} (p q : A -> bool) (l : list A) (v : A) :
  (forall x, q x = true -> p x = true) ->
  In v l -> p v = true -> q v = false ->
  length (filter q l) < length (filter p l).
Proof.
  intros Hqp Hin Hp Hq. induction l as [|x l IH]; simpl; [contradiction|].
  pose proof (filter_length_mono p q l Hqp) as Hle.
  destruct Hin as [->|Hin].
  - rewrite Hp, Hq. simpl. lia.
  - specialize (IH Hin). destruct (q x) eqn:Eq.
    + rewrite (Hqp x Eq). simpl. lia.
    + destruct (p x); simpl; lia.
Qed.

Lemma unassigned_set_lt (D : Domains) (a : Assignment) (v : Var) (w : string) :
  dict_mem a v = false -> In v (keys D) ->
  length (unassigned D (dict_set a v w)) < length (unassigned D a).
Proof.
  intros Hv Hin. unfold unassigned. apply filter_length_lt with v.
  - intros x. rewrite dict_mem_set, !negb_true_iff, orb_false_iff. tauto.
  - exact Hin.
  - rewrite Hv. reflexivity.
  - rewrite dict_mem_set, Var_eqb_refl, orb_true_r. reflexivity.
Qed.

Lemma backtrack_words_returns (cw : Crossword)
  (rec : Assignment -> outcome (bool * Assignment)) (v : Var) (a : Assignment) :
  (forall a1 res, rec a1 = Ok res -> backtrack_post cw a1 res) ->
  (forall w, returns (rec (dict_set a v w))) ->
  dict_mem a v = false ->
  forall ws, returns (backtrack_words cw rec v ws a).
Proof.
  intros Hpost Hrec Hv. induction ws as [|w ws IH]; simpl; [apply returns_Ok|].
  pose proof (dict_del_set_absent a v w Hv) as Hdel.
  apply returns_bind; [apply consistent_returns|]. intros c Hc. destruct c.
  - apply returns_bind; [apply Hrec|]. intros [result a2] Hr.
    destruct (Hpost _ _ Hr) as [Hf Ht]. simpl in Hf, Ht. destruct result.
    + destruct (Ht eq_refl) as [_ Hk].
      assert (Hc2 : consistent cw a2 = Ok true)
        by (destruct Hk as [->|Hk]; assumption).
      rewrite Hc2. simpl. apply returns_Ok.
    + rewrite (Hf eq_refl), Hdel. simpl. exact IH.
  - rewrite Hdel. simpl. exact IH.
Qed.

(** Enough fuel: every level of the recursion binds one more variable. *)
Lemma backtrack_returns_unassigned (cw : Crossword) (D : Domains) :
  forall fuel a, length (unassigned D a) < fuel -> returns (backtrack cw D fuel a).
Proof.
  induction fuel as [|fuel IH]; intros a Hf; [lia|]. simpl.
  apply returns_bind; [apply assignment_complete_returns|]. intros c _.
  destruct c; [apply returns_Ok|].
  destruct (select_unassigned_variable cw D a) as [v|] eqn:Es; [|apply returns_Raise].
  apply select_unassigned_variable_Some in Es. destruct Es as [Hv Hin].
  apply returns_bind; [apply order_domain_values_returns|]. intros ws _.
  apply backtrack_words_returns.
  - apply backtrack_post_holds.
  - intros w. apply IH. pose proof (unassigned_set_lt D a v w Hv Hin). lia.
  - exact Hv.
Qed.

Theorem backtrack_returns (cw : Crossword) (D : Domains) (fuel : nat) :
  backtrack_budget D <= fuel -> returns (backtrack cw D fuel []).
Proof.
  intros H. apply backtrack_returns_unassigned.
  unfold backtrack_budget in H. unfold unassigned.
  pose proof (filter_length_le (fun v => negb (dict_mem (@nil (Var * string)) v)) (keys D)).
  unfold keys in *. rewrite length_map in *. lia.
Qed.

Lemma enforce_node_consistency_returns (cw : Crossword) (D : Domains) :
  returns (enforce_node_consistency cw D).
Proof.
  unfold enforce_node_consistency. repeat returns_step;
    auto using domains_remove_returns.
Qed.

(** [solve] always comes back: its two budgets are never exhausted. *)
Theorem solve_returns (cw : Crossword) (D : Domains) : returns (solve cw D).
Proof.
  unfold solve.
  apply returns_bind; [apply enforce_node_consistency_returns|]. intros D1 _.
  apply returns_bind; [apply ac3_returns; lia|]. intros [r D2] _.
  apply returns_bind; [apply backtrack_returns; lia|]. intros [result a] _.
  apply returns_Ok.
Qed.

(** ** solve on a dictionary that fits no slot, and on a grid without slots *)

Lemma all_empty_consistent (cw : Crossword) (D : Domains) :
  all_empty D -> indexable cw D /\ arc_consistent cw D.
Proof.
  intros He. split.
  - intros x y kx ky dx dy _ Hx Hy. rewrite (He _ _ Hx), (He _ _ Hy).
    split; intros w [].
  - intros x y kx ky dx dy w _ Hx _ Hin. rewrite (He _ _ Hx) in Hin.
    destruct Hin.
Qed.

Lemma all_empty_map (vars : list Var) :
  all_empty (map (fun var => (var, @nil string)) vars).
Proof.
  intros x dx Hg. apply dict_get_In in Hg. apply in_map_iff in Hg.
  destruct Hg as [v [E _]]. injection E as _ <-. reflexivity.
Qed.

Lemma select_unassigned_variable_last (cw : Crossword) (D : Domains) (v : Var)
  (d : list string) (a : Assignment) :
  dict_mem a v = false ->
  N.ltb (N.of_nat (length d)) min_remaining_values = true ->
  select_unassigned_variable cw (D ++ [(v, d)]) a = Some v.
Proof.
  intros Hv Hd. unfold select_unassigned_variable. rewrite fold_left_app. simpl.
  rewrite Hv, Hd. reflexivity.
Qed.

Lemma assignment_complete_nil (cw : Crossword) :
  variables cw <> [] -> assignment_complete cw [] = Ok false.
Proof.
  unfold assignment_complete. destruct (variables cw); [congruence | reflexivity].
Qed.

Lemma order_domain_values_empty (cw : Crossword) (D : Domains) (v : Var)
  (a : Assignment) :
  dict_get D v = Ok [] -> order_domain_values cw D v a = Ok [].
Proof.
  intros Hg. unfold order_domain_values. destruct (length _ =? 0); rewrite Hg;
    reflexivity.
Qed.

Lemma generate_misfit (cw : Crossword) :
  is_set (variables cw) -> is_set (words cw) ->
  variables cw <> [] ->
  (forall v w, In v (variables cw) -> In w (words cw) ->
               String.length w <> var_length v) ->
  generate cw = Ok None.
Proof.
  intros Hv Hw Hne Hlen. unfold generate, solve.
  rewrite (enforce_node_consistency_fresh cw Hv Hw). simpl.
  assert (E : map (fun var => (var, fitting cw var)) (variables cw)
              = map (fun var => (var, @nil string)) (variables cw)).
  { apply map_ext_in. intros v Hin. f_equal. unfold fitting.
    destruct (filter _ (words cw)) as [|w l] eqn:Ef; [reflexivity|].
    assert (Hin' : In w (filter (fun word => String.length word =? var_length v)
                           (words cw))) by (rewrite Ef; left; reflexivity).
    apply filter_In in Hin'. destruct Hin' as [Hin' Hl].
    apply Nat.eqb_eq in Hl. exfalso. exact (Hlen v w Hin Hin' Hl). }
  rewrite E. set (D1 := map (fun var => (var, @nil string)) (variables cw)).
  destruct (all_empty_consistent cw D1 (all_empty_map _)) as [Hix Hac].
  unfold ac3. rewrite (ac3_loop_stable cw D1); auto.
  - cbn [bind]. unfold backtrack_budget.
    destruct (exists_last Hne) as [vs [v Evs]].
    assert (Hg : dict_get D1 v = Ok []).
    { unfold D1. apply (dict_get_map (fun _ => @nil string)).
      rewrite Evs. apply in_or_app. simpl. auto. }
    assert (Hs : select_unassigned_variable cw D1 [] = Some v).
    { unfold D1. rewrite Evs, map_app. simpl.
      apply select_unassigned_variable_last; reflexivity. }
    rewrite (assignment_complete_nil cw Hne). cbn [bind].
    rewrite Hs, (order_domain_values_empty cw D1 v [] Hg). reflexivity.
  - unfold D1. rewrite keys_map. apply incl_refl.
  - apply all_arcs_arcs_of.
  - unfold ac3_budget. lia.
Qed.

Lemma generate_no_variable (cw : Crossword) :
  variables cw = [] -> generate cw = Ok (Some []).
Proof.
  intros H. unfold generate, solve, enforce_node_consistency, init_domains,
    ac3, ac3_budget, backtrack_budget.
  rewrite H. simpl. unfold assignment_complete. rewrite H. reflexivity.
Qed.

(** C8.  When every word of the dictionary has the wrong length for every
    variable (and there is a variable), [solve] on the freshly seeded store
    returns None without raising; on a crossword without variables it
    returns the empty assignment; the two results differ. *)
Theorem solve_unsatisfiable_or_empty :
  (forall cw, is_set (variables cw) -> is_set (words cw) ->
     variables cw <> [] ->
     (forall v w, In v (variables cw) -> In w (words cw) ->
                  String.length w <> var_length v) ->
     generate cw = Ok None)
  /\ (forall cw, variables cw = [] -> generate cw = Ok (Some []))
  /\ @Ok (option Assignment) None <> Ok (Some []).
Proof.
  split; [exact generate_misfit|]. split; [exact generate_no_variable|].
  discriminate.
Qed.

Lemma solve_unsatisfiable_or_empty_witness :
  (is_set (variables misfit_puzzle) /\ is_set (words misfit_puzzle)
   /\ variables misfit_puzzle <> []
   /\ (forall v w, In v (variables misfit_puzzle) -> In w (words misfit_puzzle) ->
                   String.length w <> var_length v)
   /\ generate misfit_puzzle = Ok None)
  /\ (variables blocked_puzzle = [] /\ generate blocked_puzzle = Ok (Some [])).
Proof.
  assert (H1 : is_set (variables misfit_puzzle)) by concrete_set.
  assert (H2 : is_set (words misfit_puzzle)) by concrete_set.
  assert (H3 : variables misfit_puzzle <> []) by discriminate.
  assert (H4 : forall v w, In v (variables misfit_puzzle) ->
                 In w (words misfit_puzzle) -> String.length w <> var_length v).
  { intros v w Hv Hw. concrete_vars Hv; concrete_vars Hw; discriminate. }
  destruct solve_unsatisfiable_or_empty as (Ha & Hb & _).
  split.
  - repeat (split; [assumption|]). exact (Ha misfit_puzzle H1 H2 H3 H4).
  - split; [reflexivity|]. exact (Hb blocked_puzzle eq_refl).
Defined.

(** ** What the pipeline guarantees to the propagator and to the search *)

Lemma node_consistent_fresh (cw : Crossword) :
  is_set (variables cw) -> is_set (words cw) ->
  exists D, enforce_node_consistency cw (init_domains cw) = Ok D
    /\ keys D = variables cw
    /\ node_consistent D
    /\ has_domains cw D
    /\ store_from_dictionary cw D.
Proof.
  intros Hv Hw. eexists. split; [apply enforce_node_consistency_fresh; assumption|].
  split; [apply keys_map|].
  assert (G : forall x dx, dict_get (map (fun var => (var, fitting cw var)) (variables cw)) x
                           = Ok dx -> dx = fitting cw x).
  { intros x dx Hg. apply dict_get_In in Hg. apply in_map_iff in Hg.
    destruct Hg as [v [E _]]. injection E as -> <-. reflexivity. }
  repeat split.
  - intros x dx w Hg Hin. rewrite (G _ _ Hg) in Hin. unfold fitting in Hin.
    apply filter_In in Hin. destruct Hin as [_ Hl]. apply Nat.eqb_eq. exact Hl.
  - intros v Hin. exists (fitting cw v). apply (dict_get_map (fitting cw)). exact Hin.
  - intros x dx w Hg Hin. rewrite (G _ _ Hg) in Hin. unfold fitting in Hin.
    apply filter_In in Hin. tauto.
Qed.

Lemma node_consistent_shrinks (D' D : Domains) :
  shrinks D' D -> node_consistent D -> node_consistent D'.
Proof.
  intros Hs Hn x dx w Hg Hin.
  destruct (shrinks_get _ _ _ _ Hs Hg) as (d & Hd & Hi & _). eapply Hn; eauto.
Qed.

Lemma store_from_dictionary_shrinks (cw : Crossword) (D' D : Domains) :
  shrinks D' D -> store_from_dictionary cw D -> store_from_dictionary cw D'.
Proof.
  intros Hs Hn x dx w Hg Hin.
  destruct (shrinks_get _ _ _ _ Hs Hg) as (d & Hd & Hi & _). eapply Hn; eauto.
Qed.

Lemma has_domains_shrinks (cw : Crossword) (D' D : Domains) :
  shrinks D' D -> has_domains cw D -> has_domains cw D'.
Proof.
  intros Hs Hd v Hv. destruct (Hd v Hv) as [d Hg].
  destruct (shrinks_get_rev _ _ _ _ Hs Hg) as (d' & Hg' & _). eauto.
Qed.

Lemma index_of_lt (c : nat * nat) (l : list (nat * nat)) (k : nat) :
  index_of c l = Some k -> k < length l.
Proof.
  revert k. induction l as [|d l IH]; simpl; intros k H; [discriminate|].
  destruct (cell_eqb d c); [injection H as <-; lia|].
  destruct (index_of c l) as [k'|]; [|discriminate].
  injection H as <-. specialize (IH k' eq_refl). lia.
Qed.

Lemma shared_cell_lt (ycells cs : list (nat * nat)) :
  forall k kx ky, shared_cell ycells k cs = Some (kx, ky) ->
    kx < k + length cs /\ ky < length ycells.
Proof.
  induction cs as [|c cs IH]; simpl; intros k kx ky H; [discriminate|].
  destruct (index_of c ycells) as [k2|] eqn:Ei.
  - injection H as <- <-. apply index_of_lt in Ei. lia.
  - apply IH in H. lia.
Qed.

Lemma cells_length (v : Var) : length (cells v) = var_length v.
Proof. unfold cells. rewrite length_map, length_seq. reflexivity. Qed.

(** On a grid the overlap indices lie inside the slots. *)
Lemma grid_overlaps_in_range (vars : list Var) (dictionary : list string) :
  overlaps_in_range (grid vars dictionary).
Proof.
  intros x y kx ky H. apply overlaps_Ok in H. destruct H as (_ & _ & _ & H).
  simpl in H. unfold grid_overlap in H. apply shared_cell_lt in H.
  rewrite !cells_length in H. simpl in H. exact H.
Qed.

(** On a grid, the store that [solve] hands to [ac3] and every store that
    shrinks it are within the preconditions of [revise] and of
    [order_domain_values]. *)
Theorem grid_pipeline_indexable (vars : list Var) (dictionary : list string) :
  is_set vars -> is_set dictionary ->
  exists D1,
    enforce_node_consistency (grid vars dictionary)
                             (init_domains (grid vars dictionary)) = Ok D1
    /\ forall D, shrinks D D1 ->
         indexable (grid vars dictionary) D
         /\ has_domains (grid vars dictionary) D
         /\ store_from_dictionary (grid vars dictionary) D
         /\ incl (keys D) (variables (grid vars dictionary)).
Proof.
  intros Hv Hw.
  destruct (node_consistent_fresh (grid vars dictionary) Hv Hw)
    as (D1 & Hrun & Hk & Hn & Hd & Hs).
  exists D1. split; [exact Hrun|]. intros D HD. split; [|split; [|split]].
  - apply node_consistent_indexable; [apply grid_overlaps_in_range|].
    eapply node_consistent_shrinks; eauto.
  - eapply has_domains_shrinks; eauto.
  - eapply store_from_dictionary_shrinks; eauto.
  - rewrite (shrinks_keys _ _ HD), Hk. apply incl_refl.
Qed.

(** ** What select_unassigned_variable computes *)

Lemma last_cons {A : Type} (l : list A) (a d : A) : last (a :: l) d = last l a.
Proof.
  revert a d. induction l as [|b l IH]; intros a d; [reflexivity|].
  change (last (a :: b :: l) d) with (last (b :: l) d).
  rewrite !IH. reflexivity.
Qed.

(** While every domain has fewer than 1000000 words, the variable returned
    is the last unassigned one in the iteration order of the store. *)
Lemma select_unassigned_variable_is_last (cw : Crossword) (D : Domains)
  (a : Assignment) :
  (forall x dx, In (x, dx) D -> N.ltb (N.of_nat (length dx)) min_remaining_values = true) ->
  select_unassigned_variable cw D a = last (map Some (unassigned D a)) None.
Proof.
  unfold select_unassigned_variable, unassigned, keys. generalize (@None Var).
  induction D as [|[k d] D IH]; intros acc Hsz; [reflexivity|].
  cbn [fold_left map fst filter].
  rewrite IH by (intros x dx Hin; apply (Hsz x dx); right; exact Hin).
  destruct (dict_mem a k); cbn [negb]; [reflexivity|].
  rewrite (Hsz k d) by (left; reflexivity).
  cbn [orb map]. rewrite last_cons. reflexivity.
Qed.

(** ** What order_domain_values counts *)

(** The words counted for a neighbor are the ones [revise] would remove
    from its domain if [w] were the only word left for [var]. *)
Lemma eliminated_from_revise (kx ky : nat) (w : string) (dn : list string) :
  eliminated_from kx ky w dn
  = length (filter (fun w' => negb (supported_b ky kx [w] w')) dn).
Proof.
  unfold eliminated_from. f_equal. apply filter_ext. intros w'.
  unfold supported_b, letters_differ. simpl.
  destruct (String.get ky w') as [c'|]; [|reflexivity].
  destruct (String.get kx w) as [c|]; [|reflexivity].
  rewrite orb_false_r, Ascii.eqb_sym. reflexivity.
Qed.

(** ** The chain puzzle, run twice *)

(** After the run that missed the arc into the left slot, a second run
    revises that arc first and removes the unsupported word. *)
Lemma chain_store_run_again :
  ac3 chain_puzzle (ac3_budget chain_puzzle None chain_store_ac3) None chain_store_ac3
  = Ok (PyNone, [(top, ["AX"]); (left, ["ABC"]); (bottom, ["CAAA"])]%string).
Proof. vm_compute. reflexivity. Qed.

(** ** A puzzle on which ac3 misses an arc in every iteration order *)

Lemma In_dict_get {V : Type} (d : dict V) (k : Var) (v : V) :
  NoDup (keys d) -> In (k, v) d -> dict_get d k = Ok v.
Proof.
  induction d as [|[k' v'] d IH]; simpl; intros Hnd Hin; [contradiction|].
  inversion Hnd as [|k0 l Hk Hnd']; subst.
  destruct Hin as [E|Hin].
  - injection E as -> ->. rewrite Var_eqb_refl. reflexivity.
  - destruct (Var_eqb k' k) eqn:E.
    + apply Var_eqb_eq in E. subst k'. exfalso. apply Hk.
      apply in_map_iff. exists (k, v). auto.
    + apply IH; assumption.
Qed.

Lemma arc_consistent_b_complete (cw : Crossword) (D : Domains) :
  NoDup (keys D) -> arc_consistent cw D -> arc_consistent_b cw D = true.
Proof.
  intros Hnd Hac. unfold arc_consistent_b.
  apply forallb_forall. intros [x dx] Hx. apply forallb_forall. intros [y dy] Hy.
  simpl. destruct (overlaps cw x y) as [[[kx ky]|]| |] eqn:Ho; try reflexivity.
  apply forallb_forall. intros w Hw. apply supported_b_iff.
  eapply Hac; eauto using In_dict_get.
Qed.

Lemma insert_everywhere_In {A : Type} (a : A) (l1 l2 : list A) :
  In (l1 ++ a :: l2) (insert_everywhere a (l1 ++ l2)).
Proof.
  induction l1 as [|b l1 IH]; simpl.
  - destruct l2; simpl; auto.
  - right. apply in_map. exact IH.
Qed.

Lemma permutations_complete {A : Type} (l l' : list A) :
  Permutation l' l -> In l' (permutations l).
Proof.
  revert l'. induction l as [|a l IH]; intros l' Hp; simpl.
  - symmetry in Hp. apply Permutation_nil in Hp. subst. auto.
  - assert (Hin : In a l') by (eapply Permutation_in; [symmetry; exact Hp | left; reflexivity]).
    apply in_split in Hin. destruct Hin as (l1 & l2 & ->).
    symmetry in Hp. apply Permutation_cons_app_inv in Hp.
    apply in_flat_map. exists (l1 ++ l2). split; [apply IH; symmetry; exact Hp|].
    apply insert_everywhere_In.
Qed.

Lemma ring_misses_all : forallb ring_misses (permutations ring_slots) = true.
Proof. vm_compute. reflexivity. Qed.

(** Whatever the order in which the four slots of the ring are iterated,
    [solve] gets None from [ac3] and a store that is not arc-consistent. *)
Theorem ring_puzzle_any_order (vars : list Var) :
  Permutation vars ring_slots ->
  exists D2,
    propagate (grid vars ring_words) = Ok (PyNone, D2)
    /\ ~ arc_consistent (grid vars ring_words) D2.
Proof.
  intros Hp. pose proof ring_misses_all as Hall. rewrite forallb_forall in Hall.
  specialize (Hall vars (permutations_complete _ _ Hp)).
  unfold ring_misses in Hall.
  destruct (propagate (grid vars ring_words)) as [[r D2]| |] eqn:Erun;
    try discriminate.
  destruct r; try discriminate.
  exists D2. split; [reflexivity|]. intros Hac.
  apply negb_true_iff in Hall.
  rewrite arc_consistent_b_complete in Hall; [discriminate | | exact Hac].
  unfold propagate in Erun. bind_inv Erun.
  apply enforce_node_consistency_shrinks in E. apply ac3_loop_shrinks in Erun.
  rewrite (shrinks_keys _ _ Erun), (shrinks_keys _ _ E).
  unfold init_domains. rewrite keys_map. simpl.
  eapply Permutation_NoDup; [symmetry; exact Hp|]. concrete_set.
Qed.

Lemma dead_twice_all : forallb dead_twice (permutations [top; left; bottom]) = true.
Proof. vm_compute. reflexivity. Qed.

(** Whatever the order in which the three slots are iterated, on the
    dictionary of [dead_puzzle] the first run of [ac3] stops with False and
    a second run removes at least one more word. *)
Theorem dead_puzzle_any_order (vars : list Var) :
  Permutation vars [top; left; bottom] ->
  exists D1 r2 D2,
    propagate (grid vars (words dead_puzzle)) = Ok (PyFalse, D1)
    /\ ac3 (grid vars (words dead_puzzle))
           (ac3_budget (grid vars (words dead_puzzle)) None D1) None D1
       = Ok (r2, D2)
    /\ total_size D2 < total_size D1.
Proof.
  intros Hp. pose proof dead_twice_all as Hall. rewrite forallb_forall in Hall.
  specialize (Hall vars (permutations_complete _ _ Hp)).
  unfold dead_twice in Hall.
  destruct (propagate (grid vars (words dead_puzzle))) as [[r D1]| |];
    try discriminate.
  destruct r; try discriminate.
  destruct (ac3 _ _ None D1) as [[r2 D2]| |] eqn:E2; try discriminate.
  exists D1, r2, D2. split; [reflexivity|]. split; [exact E2|].
  apply Nat.ltb_lt. exact Hall.
Qed.

(** * Further properties of the solver *)

(** ** ac3: termination, and the domains it can touch *)

Lemma ac3_loop_fuel_irrelevant (cw : Crossword) :
  forall fuel q D,
    returns (ac3_loop cw fuel q D) ->
    forall fuel', fuel <= fuel' -> ac3_loop cw fuel' q D = ac3_loop cw fuel q D.
Proof.
  induction fuel as [|fuel IH]; intros q D Hr fuel' Hle.
  - destruct fuel'; simpl in *; destruct (list_pop q) as [[q1 [x y]]|];
      try reflexivity. exfalso. apply Hr. reflexivity.
  - destruct fuel' as [|fuel']; [lia|]. simpl in *.
    destruct (list_pop q) as [[q1 [x y]]|]; [|reflexivity].
    destruct (revise cw x y D) as [[b D1]| |]; simpl in *; try reflexivity.
    destruct b.
    + destruct (dict_get D1 x) as [dx| |]; simpl in *; try reflexivity.
      destruct (length dx =? 0); [reflexivity|]. apply IH; [exact Hr | lia].
    + apply IH; [exact Hr | lia].
Qed.

(** X1.  [ac3] stops: whatever the worklist and the store, the loop makes at
    most [len(arcs) + len(variables) * (number of words in all domains)]
    iterations, and it ends with a value or an exception; a larger bound
    gives the same result. *)
Theorem ac3_terminates (cw : Crossword) (arcs : option (list (Var * Var)))
  (D : Domains) (fuel : nat) :
  ac3_budget cw arcs D <= fuel ->
  ac3 cw fuel arcs D = ac3 cw (ac3_budget cw arcs D) arcs D
  /\ ((exists res, ac3 cw fuel arcs D = Ok res)
      \/ (exists e, ac3 cw fuel arcs D = Raise e)).
Proof.
  intros Hf.
  assert (Hr : returns (ac3 cw (ac3_budget cw arcs D) arcs D))
    by (apply ac3_loop_returns; apply Nat.le_refl).
  assert (E : ac3 cw fuel arcs D = ac3 cw (ac3_budget cw arcs D) arcs D)
    by (apply ac3_loop_fuel_irrelevant; assumption).
  split; [exact E|]. rewrite E.
  destruct (ac3 cw (ac3_budget cw arcs D) arcs D) as [res|e|]; eauto.
  exfalso. apply Hr. reflexivity.
Qed.

Lemma ac3_terminates_witness :
  ac3_budget chain_puzzle None chain_store <= 100
  /\ ac3 chain_puzzle 100 None chain_store
     = ac3 chain_puzzle (ac3_budget chain_puzzle None chain_store) None chain_store
  /\ ((exists res, ac3 chain_puzzle 100 None chain_store = Ok res)
      \/ (exists e, ac3 chain_puzzle 100 None chain_store = Raise e)).
Proof.
  assert (H : ac3_budget chain_puzzle None chain_store <= 100) by (vm_compute; lia).
  split; [exact H|]. exact (ac3_terminates chain_puzzle None chain_store 100 H).
Defined.

Lemma domains_remove_other (D D' : Domains) (x z : Var) (w : string) :
  domains_remove D x w = Ok D' -> z <> x -> dict_get D' z = dict_get D z.
Proof.
  unfold domains_remove. intros H Hz. bind_inv H. bind_inv H. injection H as <-.
  apply dict_get_set_other. congruence.
Qed.

Lemma revise_other (cw : Crossword) (x y z : Var) (D D' : Domains) (b : bool) :
  revise cw x y D = Ok (b, D') -> z <> x -> dict_get D' z = dict_get D z.
Proof.
  intros H Hz. unfold revise in H. bind_inv H. destruct r as [[kx ky]|].
  - bind_inv H. revert H.
    apply (for_each_rel (fun st' st : bool * Domains =>
             dict_get (snd st') z = dict_get (snd st) z)
             (revise_word x y kx ky)) with (s := (false, D)) (s' := (b, D')).
    + reflexivity.
    + intros s1 s2 s3 H32 H21. congruence.
    + intros word [rm D1] [rm' D1'] _ Hw. simpl.
      destruct (revise_word_cases _ _ _ _ _ _ _ _ _ Hw) as [[_ ->]|[_ Hr]];
        [reflexivity|]. eapply domains_remove_other; eauto.
  - injection H as _ <-. reflexivity.
Qed.

Lemma ac3_loop_other (cw : Crossword) (z : Var) :
  forall fuel q D r D',
    ac3_loop cw fuel q D = Ok (r, D') ->
    ~ In z (map fst q) ->
    dict_get D' z = dict_get D z.
Proof.
  induction fuel as [|fuel IH]; intros q D r D' H Hz; simpl in H;
    (destruct (list_pop q) as [[q1 [x y]]|] eqn:Ep;
     [|injection H as _ <-; reflexivity]); [discriminate|].
  apply list_pop_Some in Ep. subst q. rewrite map_app, in_app_iff in Hz. simpl in Hz.
  assert (Hzx : z <> x) by (intros ->; tauto).
  bind_inv H. destruct r0 as [b D1].
  pose proof (revise_other _ _ _ _ _ _ _ E Hzx) as Hrev. destruct b.
  - bind_inv H. destruct (length r0 =? 0).
    + injection H as _ <-. exact Hrev.
    + rewrite <- Hrev. eapply IH; [exact H|].
      rewrite map_app, in_app_iff, map_map. simpl. intros [Hin|Hin]; [tauto|].
      apply in_map_iff in Hin. destruct Hin as [n [Hn _]]. congruence.
  - rewrite <- Hrev. eapply IH; [exact H | tauto].
Qed.

(** X2.  [ac3(arcs)] only ever changes the domains of the variables that
    come first in one of the given arcs: the arcs it adds start from the
    variable it has just revised, so the domain of any other variable is
    returned as it was. *)
Theorem ac3_touches_only_sources (cw : Crossword) (fuel : nat)
  (q : list (Var * Var)) (D D' : Domains) (r : pyval) (z : Var) :
  ac3 cw fuel (Some q) D = Ok (r, D') ->
  ~ In z (map fst q) ->
  dict_get D' z = dict_get D z.
Proof. unfold ac3. apply ac3_loop_other. Qed.

Lemma ac3_touches_only_sources_witness :
  ac3 chain_puzzle 10 (Some [(left, top)]) chain_store
  = Ok (PyNone, [(top, ["AX"]); (left, ["ABC"]); (bottom, ["CAAA"; "FAAA"])]%string)
  /\ ~ In bottom (map fst [(left, top)])
  /\ dict_get [(top, ["AX"]); (left, ["ABC"]); (bottom, ["CAAA"; "FAAA"])]%string bottom
     = dict_get chain_store bottom.
Proof.
  assert (H1 : ac3 chain_puzzle 10 (Some [(left, top)]) chain_store
               = Ok (PyNone, [(top, ["AX"]); (left, ["ABC"]);
                              (bottom, ["CAAA"; "FAAA"])]%string))
    by (vm_compute; reflexivity).
  assert (H2 : ~ In bottom (map fst [(left, top)]))
    by (simpl; intros [H|[]]; discriminate).
  split; [exact H1|]. split; [exact H2|].
  exact (ac3_touches_only_sources chain_puzzle 10 _ chain_store _ PyNone bottom H1 H2).
Defined.

(** ** enforce_node_consistency cannot run twice *)

Lemma for_each_reach {A S : Type} (R : S -> S -> Prop) (body : A -> S -> outcome S) :
  (forall s, R s s) ->
  (forall s1 s2 s3, R s3 s2 -> R s2 s1 -> R s3 s1) ->
  forall l : list A,
  (forall a s s', In a l -> body a s = Ok s' -> R s' s) ->
  forall s s' a, for_each l body s = Ok s' -> In a l ->
    exists s1 s2, R s1 s /\ body a s1 = Ok s2.
Proof.
  intros Hrefl Htrans l. induction l as [|b l IH]; simpl; intros Hbody s s' a H Hin;
    [contradiction|].
  bind_inv H. destruct Hin as [->|Hin].
  - exists s, r. auto.
  - destruct (IH (fun a0 s0 s0' Ha => Hbody a0 s0 s0' (or_intror Ha)) r s' a H Hin)
      as (s1 & s2 & HR & Hb).
    exists s1, s2. split; [|exact Hb]. eapply Htrans; [exact HR|].
    apply (Hbody b); auto.
Qed.

Lemma for_each_raise {A S : Type} (body : A -> S -> outcome S) (e0 : exn) :
  (forall a s e, body a s = Raise e -> e = e0) ->
  forall l s e, for_each l body s = Raise e -> e = e0.
Proof.
  intros Hb. induction l as [|a l IH]; simpl; intros s e H; [discriminate|].
  destruct (body a s) as [s'|e'|] eqn:E; simpl in H; try discriminate.
  - eapply IH; eauto.
  - injection H as <-. eapply Hb; eauto.
Qed.

Lemma dict_get_raise {V : Type} (d : dict V) (k : Var) (e : exn) :
  dict_get d k = Raise e -> e = KeyError.
Proof.
  induction d as [|[k' v] d IH]; simpl; [congruence|].
  destruct (Var_eqb k' k); [discriminate | exact IH].
Qed.

Lemma set_remove_raise (s : list string) (w : string) (e : exn) :
  set_remove s w = Raise e -> e = KeyError.
Proof.
  revert e. induction s as [|a s IH]; simpl; intros e; [congruence|].
  destruct (String.eqb a w); [discriminate|].
  destruct (set_remove s w) as [r|e'|]; simpl; try discriminate.
  intros H. injection H as <-. auto.
Qed.

Lemma set_remove_Ok_In (s s' : list string) (w : string) :
  set_remove s w = Ok s' -> In w s.
Proof.
  revert s'. induction s as [|a s IH]; simpl; intros s' H; [discriminate|].
  destruct (String.eqb a w) eqn:E.
  - apply String.eqb_eq in E. auto.
  - bind_inv H. eauto.
Qed.

Lemma domains_remove_raise (D : Domains) (x : Var) (w : string) (e : exn) :
  domains_remove D x w = Raise e -> e = KeyError.
Proof.
  unfold domains_remove.
  destruct (dict_get D x) as [s| |] eqn:E1; simpl; try discriminate.
  - destruct (set_remove s w) as [s'| |] eqn:E2; simpl; try discriminate.
    intros H. injection H as <-. eapply set_remove_raise; eauto.
  - intros H. injection H as <-. eapply dict_get_raise; eauto.
Qed.

Lemma enforce_node_consistency_raise (cw : Crossword) (D : Domains) (e : exn) :
  enforce_node_consistency cw D = Raise e -> e = KeyError.
Proof.
  unfold enforce_node_consistency. apply for_each_raise. intros var D1 e1.
  apply for_each_raise. intros word D2 e2.
  destruct (negb _); [apply domains_remove_raise | discriminate].
Qed.

(** A wrong-length word that is already missing makes the call raise. *)
Lemma enforce_node_consistency_missing (cw : Crossword) (D : Domains)
  (v : Var) (w : string) :
  In v (variables cw) -> In w (words cw) ->
  String.length w <> var_length v ->
  (forall s, dict_get D v = Ok s -> ~ In w s) ->
  enforce_node_consistency cw D = Raise KeyError.
Proof.
  intros Hv Hw Hlen Habs.
  destruct (enforce_node_consistency cw D) as [D'|e|] eqn:Erun.
  - exfalso. unfold enforce_node_consistency in Erun.
    assert (Hinner : forall var D1 D1',
              for_each (words cw) (fun word D2 =>
                if negb (String.length word =? var_length var)
                then domains_remove D2 var word else Ok D2) D1 = Ok D1' ->
              shrinks D1' D1).
    { intros var. apply (for_each_rel shrinks);
        [apply shrinks_refl | apply shrinks_trans|].
      intros word D2 D2' _. destruct (negb _);
        [apply domains_remove_shrinks | intros H; injection H as <-; apply shrinks_refl]. }
    destruct (for_each_reach shrinks _ shrinks_refl shrinks_trans (variables cw)
                (fun var D1 D1' _ => Hinner var D1 D1') D D' v Erun Hv)
      as (D1 & D2 & Hs1 & Hrun1).
    assert (Hstep : forall word D3 D3', In word (words cw) ->
              (if negb (String.length word =? var_length v)
               then domains_remove D3 v word else Ok D3) = Ok D3' -> shrinks D3' D3).
    { intros word D3 D3' _. destruct (negb _);
        [apply domains_remove_shrinks | intros H; injection H as <-; apply shrinks_refl]. }
    destruct (for_each_reach shrinks _ shrinks_refl shrinks_trans (words cw)
                Hstep D1 D2 w Hrun1 Hw) as (D3 & D4 & Hs3 & Hrun3).
    apply Nat.eqb_neq in Hlen. rewrite Hlen in Hrun3. simpl in Hrun3.
    unfold domains_remove in Hrun3. bind_inv Hrun3. bind_inv Hrun3.
    apply set_remove_Ok_In in E0.
    destruct (shrinks_get _ _ _ _ (shrinks_trans _ _ _ Hs3 Hs1) E)
      as (s & Hg & Hincl & _).
    exact (Habs s Hg (Hincl _ E0)).
  - f_equal. eapply enforce_node_consistency_raise; eauto.
  - exfalso. exact (enforce_node_consistency_returns cw D Erun).
Qed.

(** X3.  [enforce_node_consistency], and [solve] which starts with it,
    cannot be run a second time on one creator: when some dictionary word
    has the wrong length for some variable, the first run on the seeded store
    succeeds, and on the store it leaves, or on any store shrunk from it
    (as [ac3] leaves it), both raise KeyError, from [set.remove] of a word
    that is already gone. *)
Theorem enforce_node_consistency_twice (cw : Crossword) (v : Var) (w : string) :
  is_set (variables cw) -> is_set (words cw) ->
  In v (variables cw) -> In w (words cw) ->
  String.length w <> var_length v ->
  exists D1,
    enforce_node_consistency cw (init_domains cw) = Ok D1
    /\ forall D, shrinks D D1 ->
         enforce_node_consistency cw D = Raise KeyError
         /\ solve cw D = Raise KeyError.
Proof.
  intros Hvs Hws Hv Hw Hlen. eexists.
  split; [apply enforce_node_consistency_fresh; assumption|].
  intros D HD.
  assert (Hraise : enforce_node_consistency cw D = Raise KeyError).
  { apply (enforce_node_consistency_missing cw D v w Hv Hw Hlen).
    intros s Hg Hin.
    destruct (shrinks_get _ _ _ _ HD Hg) as (s1 & Hg1 & Hincl & _).
    rewrite (dict_get_map (fitting cw) _ _ Hv) in Hg1. injection Hg1 as <-.
    apply Hincl in Hin. unfold fitting in Hin. apply filter_In in Hin.
    destruct Hin as [_ Hl]. apply Nat.eqb_eq in Hl. contradiction. }
  split; [exact Hraise|]. unfold solve. rewrite Hraise. reflexivity.
Qed.

Lemma enforce_node_consistency_twice_witness :
  is_set (variables chain_puzzle) /\ is_set (words chain_puzzle)
  /\ In top (variables chain_puzzle) /\ In "ABC"%string (words chain_puzzle)
  /\ String.length "ABC" <> var_length top
  /\ exists D1,
       enforce_node_consistency chain_puzzle (init_domains chain_puzzle) = Ok D1
       /\ forall D, shrinks D D1 ->
            enforce_node_consistency chain_puzzle D = Raise KeyError
            /\ solve chain_puzzle D = Raise KeyError.
Proof.
  assert (H1 : is_set (variables chain_puzzle)) by concrete_set.
  assert (H2 : is_set (words chain_puzzle)) by concrete_set.
  assert (H3 : In top (variables chain_puzzle)) by (simpl; auto).
  assert (H4 : In "ABC"%string (words chain_puzzle)) by (simpl; auto).
  assert (H5 : String.length "ABC" <> var_length top) by discriminate.
  repeat (split; [assumption|]).
  exact (enforce_node_consistency_twice chain_puzzle top "ABC" H1 H2 H3 H4 H5).
Defined.

(** ** assignment_complete and select_unassigned_variable *)

(** X4.  [assignment_complete] never raises, and returns True exactly when
    every variable of the crossword is bound to a non-empty word: a variable
    bound to the empty string counts as unassigned. *)
Theorem assignment_complete_spec (cw : Crossword) (a : Assignment) :
  exists b, assignment_complete cw a = Ok b
    /\ (b = true <->
        forall v, In v (variables cw) ->
          exists w, dict_get a v = Ok w /\ w <> ""%string).
Proof.
  unfold assignment_complete. induction (variables cw) as [|k vars IH].
  - exists true. split; [reflexivity|]. split; [intros _ v [] | reflexivity].
  - destruct IH as (b & Hb & Hiff).
    destruct (dict_mem a k) eqn:Em.
    + destruct (proj1 (dict_get_mem a k) Em) as [w Hw]. rewrite Hw. simpl.
      destruct w as [|c w]; simpl.
      * exists false. split; [reflexivity|]. split; [discriminate|].
        intros H. destruct (H k (or_introl eq_refl)) as (w' & Hw' & Hne).
        congruence.
      * exists b. split; [exact Hb|]. rewrite Hiff. split.
        -- intros H v [<-|Hv]; [|auto]. exists (String c w).
           split; [exact Hw | discriminate].
        -- intros H v Hv. apply H. right. exact Hv.
    + exists false. split; [reflexivity|]. split; [discriminate|].
      intros H. destruct (H k (or_introl eq_refl)) as (w' & Hw' & _).
      assert (Hm : dict_mem a k = true) by (apply dict_get_mem; eauto).
      congruence.
Qed.

(** X5.  [select_unassigned_variable] only returns a variable of the store
    that the assignment does not bind; and while every domain has fewer than
    1000000 words it returns the last such variable in the iteration order
    of [self.domains], so None exactly when every variable is assigned. *)
Theorem select_unassigned_variable_spec (cw : Crossword) (D : Domains)
  (a : Assignment) :
  (forall v, select_unassigned_variable cw D a = Some v ->
     dict_mem a v = false /\ In v (keys D))
  /\ ((forall x dx, In (x, dx) D ->
         N.ltb (N.of_nat (length dx)) min_remaining_values = true) ->
      select_unassigned_variable cw D a = last (map Some (unassigned D a)) None
      /\ (select_unassigned_variable cw D a = None <-> unassigned D a = [])).
Proof.
  split; [intros v; apply select_unassigned_variable_Some|].
  intros Hsz. rewrite (select_unassigned_variable_is_last cw D a Hsz).
  split; [reflexivity|].
  destruct (unassigned D a) as [|u us]; [tauto|].
  split; [|discriminate]. intros H. exfalso. revert H. generalize u.
  induction us as [|u' us IH]; intros u0 H; [discriminate|].
  change (last (map Some (u0 :: u' :: us)) None)
    with (last (map Some (u' :: us)) None) in H. eauto.
Qed.

Lemma select_unassigned_variable_spec_witness :
  (forall x dx, In (x, dx) chain_store ->
     N.ltb (N.of_nat (length dx)) min_remaining_values = true)
  /\ select_unassigned_variable chain_puzzle chain_store [(bottom, "CAAA"%string)]
     = last (map Some (unassigned chain_store [(bottom, "CAAA"%string)])) None
  /\ (select_unassigned_variable chain_puzzle chain_store [(bottom, "CAAA"%string)] = None
      <-> unassigned chain_store [(bottom, "CAAA"%string)] = []).
Proof.
  assert (H : forall x dx, In (x, dx) chain_store ->
                N.ltb (N.of_nat (length dx)) min_remaining_values = true).
  { intros x dx Hin. simpl in Hin.
    repeat (destruct Hin as [Hin|Hin]; [injection Hin as <- <-; reflexivity|]).
    contradiction. }
  split; [exact H|].
  destruct (select_unassigned_variable_spec chain_puzzle chain_store
              [(bottom, "CAAA"%string)]) as [_ Hs].
  exact (Hs H).
Defined.

(** ** backtrack: what happens to the shared dict *)

Lemma backtrack_words_frame (cw : Crossword) (D : Domains)
  (rec : Assignment -> outcome (bool * Assignment)) (v : Var) (a : Assignment) :
  (forall a1 res, rec a1 = Ok res -> backtrack_post cw a1 res) ->
  (forall a1 res, rec a1 = Ok res -> backtrack_frame D a1 res) ->
  dict_mem a v = false -> In v (keys D) ->
  forall ws res, backtrack_words cw rec v ws a = Ok res -> backtrack_frame D a res.
Proof.
  intros Hpost Hframe Hv HvD. induction ws as [|w ws IH]; simpl; intros res H.
  - injection H as <-. split; simpl; [reflexivity | discriminate].
  - bind_inv H. pose proof (dict_del_set_absent a v w Hv) as Hdel.
    destruct r as [|].
    + bind_inv H. destruct r as [result a2].
      destruct (Hpost _ _ E0) as [Hf Ht]. destruct (Hframe _ _ E0) as [_ Hfr].
      simpl in Hf, Ht, Hfr. destruct result.
      * destruct (Ht eq_refl) as [_ Hk].
        assert (Hc2 : consistent cw a2 = Ok true)
          by (destruct Hk as [->|Hk]; assumption).
        rewrite Hc2 in H. simpl in H. injection H as <-.
        split; simpl; [discriminate|]. intros _.
        destruct (Hfr eq_refl) as (extra & -> & Hnd & Hex).
        exists ((v, w) :: extra). rewrite (dict_set_absent a v w Hv), <- app_assoc.
        split; [reflexivity|]. split.
        -- simpl. constructor; [|exact Hnd]. intros Hin.
           destruct (Hex v Hin) as [_ Hm].
           rewrite dict_mem_set, Var_eqb_refl, orb_true_r in Hm. discriminate.
        -- intros k [<-|Hk']; [auto|]. destruct (Hex k Hk') as [HkD Hm].
           rewrite dict_mem_set in Hm. apply orb_false_iff in Hm. tauto.
      * rewrite (Hf eq_refl), Hdel in H. simpl in H. apply IH. exact H.
    + rewrite Hdel in H. simpl in H. apply IH. exact H.
Qed.

Lemma backtrack_frame_holds (cw : Crossword) (D : Domains) :
  forall fuel a res, backtrack cw D fuel a = Ok res -> backtrack_frame D a res.
Proof.
  induction fuel as [|fuel IH]; intros a res H; simpl in H; [discriminate|].
  bind_inv H. destruct r.
  - injection H as <-. split; simpl; [discriminate|]. intros _.
    exists []. rewrite app_nil_r. repeat split; [constructor | destruct H | destruct H].
  - destruct (select_unassigned_variable cw D a) as [v|] eqn:Es; [|discriminate].
    bind_inv H. apply select_unassigned_variable_Some in Es. destruct Es as [Hv HvD].
    eapply backtrack_words_frame; eauto. apply backtrack_post_holds.
Qed.

(** X6.  [backtrack] undoes what it tried: when it returns None the
    assignment dict holds exactly the bindings, in the order, it held on
    entry; when it returns the dict, the bindings it was given are still
    there, first and unchanged, followed by one new binding for each of some
    distinct variables of the store that were unassigned. *)
Theorem backtrack_restores_or_extends (cw : Crossword) (D : Domains) (fuel : nat)
  (assignment result : Assignment) (found : bool) :
  backtrack cw D fuel assignment = Ok (found, result) ->
  (found = false -> result = assignment)
  /\ (found = true ->
      exists extra,
        result = assignment ++ extra
        /\ NoDup (keys extra)
        /\ forall v, In v (keys extra) ->
             In v (keys D) /\ dict_mem assignment v = false).
Proof. intros H. exact (backtrack_frame_holds cw D fuel assignment _ H). Qed.

Lemma backtrack_restores_or_extends_witness :
  backtrack chain_puzzle chain_store 4 [(top, "AX"%string)]
  = Ok (true, [(top, "AX"); (bottom, "CAAA"); (left, "ABC")]%string)
  /\ (true = false ->
      [(top, "AX"); (bottom, "CAAA"); (left, "ABC")]%string = [(top, "AX"%string)])
  /\ (true = true ->
      exists extra,
        [(top, "AX"); (bottom, "CAAA"); (left, "ABC")]%string
        = [(top, "AX"%string)] ++ extra
        /\ NoDup (keys extra)
        /\ forall v, In v (keys extra) ->
             In v (keys chain_store) /\ dict_mem [(top, "AX"%string)] v = false).
Proof.
  assert (H : backtrack chain_puzzle chain_store 4 [(top, "AX"%string)]
              = Ok (true, [(top, "AX"); (bottom, "CAAA"); (left, "ABC")]%string))
    by (vm_compute; reflexivity).
  split; [exact H|].
  exact (backtrack_restores_or_extends chain_puzzle chain_store 4 _ _ true H).
Defined.

(** ** consistent *)

Lemma consistent_neighbors_true (cw : Crossword) (a : Assignment) (var : Var)
  (word : string) (ns : list Var) :
  consistent_neighbors cw a var word ns = Ok true ->
  forall n wn k0 k1,
    In n ns -> dict_get a n = Ok wn -> overlaps_table cw var n = Some (k0, k1) ->
    letters_agree k0 k1 word wn.
Proof.
  induction ns as [|m ns IH]; simpl; intros H n wn k0 k1 Hin Hg Ht; [contradiction|].
  destruct (dict_mem a m) eqn:Em.
  - bind_inv H. bind_inv H. apply overlaps_Ok in E0.
    destruct E0 as (_ & _ & _ & Etab).
    destruct r0 as [[j0 j1]|].
    + bind_inv H. bind_inv H.
      destruct (Ascii.eqb r0 r1) eqn:Ec; simpl in H; [|discriminate].
      apply Ascii.eqb_eq in Ec. subst r1.
      destruct Hin as [->|Hin]; [|eapply IH; eauto].
      rewrite Hg in E. injection E as <-. rewrite Ht in Etab. injection Etab as <- <-.
      unfold str_index in E1, E0.
      destruct (String.get k1 wn) as [c1|] eqn:G1; [|discriminate].
      destruct (String.get k0 word) as [c0|] eqn:G0; [|discriminate].
      injection E1 as <-. injection E0 as <-. exists c1. auto.
    + destruct Hin as [->|Hin]; [congruence | eapply IH; eauto].
  - destruct Hin as [->|Hin]; [|eapply IH; eauto].
    assert (Hm : dict_mem a n = true) by (apply dict_get_mem; eauto). congruence.
Qed.

Lemma consistent_neighbors_agree (cw : Crossword) (a : Assignment) (var : Var)
  (word : string) (ns : list Var) :
  In var (variables cw) ->
  (forall n, In n ns -> In n (neighbors cw var)) ->
  (forall n wn k0 k1,
     In n ns -> dict_get a n = Ok wn -> overlaps_table cw var n = Some (k0, k1) ->
     letters_agree k0 k1 word wn) ->
  consistent_neighbors cw a var word ns = Ok true.
Proof.
  intros Hvar. induction ns as [|m ns IH]; simpl; intros Hns Hag; [reflexivity|].
  assert (Hrest : consistent_neighbors cw a var word ns = Ok true).
  { apply IH; [intros n Hn; apply Hns; auto|].
    intros n wn k0 k1 Hn. apply Hag. auto. }
  destruct (dict_mem a m) eqn:Em; [|exact Hrest].
  destruct (proj1 (dict_get_mem a m) Em) as [wn Hwn]. rewrite Hwn. simpl.
  destruct (neighbors_In cw var m (Hns m (or_introl eq_refl))) as (Hm & Hne & _).
  assert (Ho : overlaps cw var m = Ok (overlaps_table cw var m))
    by (apply overlaps_Ok; auto).
  rewrite Ho. simpl. destruct (overlaps_table cw var m) as [[k0 k1]|] eqn:Et;
    [|exact Hrest].
  destruct (Hag m wn k0 k1 (or_introl eq_refl) Hwn Et) as (c & G0 & G1).
  unfold str_index. rewrite G1, G0. simpl. rewrite Ascii.eqb_refl. simpl.
  exact Hrest.
Qed.

Lemma word_in_In (w : string) (l : list string) : word_in w l = true <-> In w l.
Proof.
  unfold word_in. rewrite existsb_exists. split.
  - intros [x [Hx E]]. apply String.eqb_eq in E. subst. exact Hx.
  - intros H. exists w. split; [exact H | apply String.eqb_refl].
Qed.

Lemma NoDup_snoc {A : Type} (l : list A) (a : A) :
  NoDup (l ++ [a]) <-> NoDup l /\ ~ In a l.
Proof.
  split.
  - intros H. split; [apply NoDup_remove_1 in H; rewrite app_nil_r in H; exact H|].
    apply NoDup_remove_2 in H. rewrite app_nil_r in H. exact H.
  - intros [H1 H2]. apply (Permutation_NoDup (Permutation_cons_append l a)).
    constructor; assumption.
Qed.

Lemma consistent_items_true (cw : Crossword) (a : Assignment) :
  forall items all_words,
    NoDup all_words ->
    consistent_items cw a items all_words = Ok true ->
    NoDup (all_words ++ map snd items)
    /\ forall v w, In (v, w) items ->
         var_length v = String.length w
         /\ forall n wn k0 k1,
              In n (neighbors cw v) -> dict_get a n = Ok wn ->
              overlaps_table cw v n = Some (k0, k1) -> letters_agree k0 k1 w wn.
Proof.
  induction items as [|[var word] items IH]; simpl; intros all_words Hnd H.
  - rewrite app_nil_r. split; [exact Hnd | intros v w []].
  - destruct (word_in word all_words) eqn:Ew; [discriminate|].
    destruct (var_length var =? String.length word) eqn:El; simpl in H;
      [|discriminate].
    bind_inv H. destruct r; [|discriminate].
    assert (Hnd' : NoDup (all_words ++ [word])).
    { apply NoDup_snoc. split; [exact Hnd|]. intros Hin.
      apply word_in_In in Hin. congruence. }
    destruct (IH _ Hnd' H) as [Hn Hrest]. rewrite <- app_assoc in Hn. simpl in Hn.
    split; [exact Hn|]. intros v w [Eq|Hin]; [|auto].
    injection Eq as <- <-. split; [apply Nat.eqb_eq; exact El|].
    intros n wn k0 k1. apply (consistent_neighbors_true cw a var word _ E).
Qed.

Lemma consistent_items_agree (cw : Crossword) (a : Assignment) :
  forall items all_words,
    NoDup (all_words ++ map snd items) ->
    (forall v w, In (v, w) items ->
       In v (variables cw)
       /\ var_length v = String.length w
       /\ forall n wn k0 k1,
            In n (neighbors cw v) -> dict_get a n = Ok wn ->
            overlaps_table cw v n = Some (k0, k1) -> letters_agree k0 k1 w wn) ->
    consistent_items cw a items all_words = Ok true.
Proof.
  induction items as [|[var word] items IH]; simpl; intros all_words Hnd Hit;
    [reflexivity|].
  destruct (Hit var word (or_introl eq_refl)) as (Hvar & Hlen & Hag).
  destruct (word_in word all_words) eqn:Ew.
  - apply word_in_In in Ew. apply NoDup_remove_2 in Hnd. exfalso. apply Hnd.
    apply in_or_app. auto.
  - apply Nat.eqb_eq in Hlen. rewrite Hlen. simpl.
    rewrite (consistent_neighbors_agree cw a var word (neighbors cw var) Hvar);
      [|auto|intros n wn k0 k1 Hn; apply Hag; exact Hn]. simpl.
    apply IH; [rewrite <- app_assoc; exact Hnd|]. intros v w Hin. apply Hit. auto.
Qed.

Lemma consistent_true_spec (cw : Crossword) (a : Assignment) :
  consistent cw a = Ok true -> consistent_spec cw a.
Proof.
  unfold consistent. intros H.
  destruct (consistent_items_true cw a a [] (NoDup_nil _) H) as [Hnd Hit].
  split; [exact Hnd|]. split.
  - intros v w Hin. apply (Hit v w Hin).
  - intros v w n wn k0 k1 Hin. apply (Hit v w Hin).
Qed.

Lemma consistent_spec_true (cw : Crossword) (a : Assignment) :
  incl (keys a) (variables cw) -> consistent_spec cw a -> consistent cw a = Ok true.
Proof.
  intros Hk (Hnd & Hlen & Hag). unfold consistent.
  apply consistent_items_agree; [exact Hnd|].
  intros v w Hin. split; [|split].
  - apply Hk. unfold keys. apply in_map_iff. exists (v, w). auto.
  - apply Hlen. exact Hin.
  - intros n wn k0 k1. apply (Hag v w). exact Hin.
Qed.

(** X7.  [consistent] returns True exactly when no word is bound twice,
    every bound word has the length of its variable, and every bound
    neighbor of a bound variable carries the same letter on their overlap
    (the assignment binding variables of the crossword). *)
Theorem consistent_iff (cw : Crossword) (a : Assignment) :
  incl (keys a) (variables cw) ->
  (consistent cw a = Ok true <-> consistent_spec cw a).
Proof.
  intros Hk. split; [apply consistent_true_spec | apply consistent_spec_true; exact Hk].
Qed.

Lemma consistent_iff_witness :
  incl (keys [(bottom, "CAAA"); (left, "ABC")]%string) (variables chain_puzzle)
  /\ (consistent chain_puzzle [(bottom, "CAAA"); (left, "ABC")]%string = Ok true
      <-> consistent_spec chain_puzzle [(bottom, "CAAA"); (left, "ABC")]%string).
Proof.
  assert (H : incl (keys [(bottom, "CAAA"); (left, "ABC")]%string)
                   (variables chain_puzzle)).
  { intros v Hv. simpl in Hv. simpl. tauto. }
  split; [exact H|]. exact (consistent_iff chain_puzzle _ H).
Defined.

(** ** The stores of the pipeline *)

Lemma set_remove_split (s s' : list string) (w : string) :
  set_remove s w = Ok s' -> exists l1 l2, s = l1 ++ w :: l2 /\ s' = l1 ++ l2.
Proof.
  revert s'. induction s as [|a s IH]; simpl; intros s' H; [discriminate|].
  destruct (String.eqb a w) eqn:E.
  - apply String.eqb_eq in E. subst a. injection H as <-. exists [], s. auto.
  - bind_inv H. injection H as <-. destruct (IH _ E0) as (l1 & l2 & -> & ->).
    exists (a :: l1), l2. auto.
Qed.

Lemma Forall_dict_set {V : Type} (P : Var * V -> Prop) (d : dict V) (k : Var) (v : V) :
  Forall P d -> P (k, v) -> Forall P (dict_set d k v).
Proof.
  intros Hd Hp. induction Hd as [|[k' v'] d Hh Ht IH]; simpl.
  - constructor; [exact Hp | constructor].
  - destruct (Var_eqb k' k) eqn:E.
    + apply Var_eqb_eq in E. subst k'. constructor; assumption.
    + constructor; assumption.
Qed.

Lemma store_ok_get (cw : Crossword) (D : Domains) (x : Var) (dx : list string) :
  store_ok cw D -> dict_get D x = Ok dx ->
  NoDup dx /\ incl dx (words cw)
  /\ Forall (fun w => String.length w = var_length x) dx.
Proof.
  intros [_ HF] Hg. rewrite Forall_forall in HF.
  exact (HF _ (dict_get_In _ _ _ Hg)).
Qed.

Lemma store_ok_has (cw : Crossword) (D : Domains) (x : Var) :
  store_ok cw D -> In x (variables cw) -> exists dx, dict_get D x = Ok dx.
Proof. intros [Hk _] Hx. apply keys_get. rewrite Hk. exact Hx. Qed.

Lemma store_ok_remove (cw : Crossword) (D D' : Domains) (x : Var) (w : string) :
  store_ok cw D -> domains_remove D x w = Ok D' -> store_ok cw D'.
Proof.
  intros HD H. unfold domains_remove in H. bind_inv H. bind_inv H. injection H as <-.
  destruct (store_ok_get _ _ _ _ HD E) as (Hnd & Hincl & Hlen).
  destruct HD as [Hk HF]. destruct (set_remove_split _ _ _ E0) as (l1 & l2 & -> & ->).
  split.
  - rewrite keys_set_present; [exact Hk|]. apply dict_get_mem. eauto.
  - apply Forall_dict_set; [exact HF|]. simpl. split; [|split].
    + eapply NoDup_remove_1; eauto.
    + intros u Hu. apply Hincl. apply in_app_iff in Hu. apply in_app_iff.
      simpl. tauto.
    + rewrite Forall_app in *. destruct Hlen as [H1 H2].
      inversion H2; subst. auto.
Qed.

Lemma store_ok_revise (cw : Crossword) (x y : Var) (D D' : Domains) (b : bool) :
  store_ok cw D -> revise cw x y D = Ok (b, D') -> store_ok cw D'.
Proof.
  intros HD H. unfold revise in H. bind_inv H. destruct r as [[kx ky]|].
  - bind_inv H.
    apply (for_each_rel (fun st' st : bool * Domains =>
             store_ok cw (snd st) -> store_ok cw (snd st'))
             (revise_word x y kx ky) (fun s h => h)
             (fun s1 s2 s3 h32 h21 h => h32 (h21 h)) r) with (s := (false, D))
             (s' := (b, D')); [|exact H | exact HD].
    intros word [rm D1] [rm' D1'] _ Hw. simpl.
    destruct (revise_word_cases _ _ _ _ _ _ _ _ _ Hw) as [[_ ->]|[_ Hr]]; [auto|].
    intros H1. eapply store_ok_remove; eauto.
  - injection H as _ <-. exact HD.
Qed.

Lemma store_ok_ac3_loop (cw : Crossword) :
  forall fuel q D r D',
    store_ok cw D -> ac3_loop cw fuel q D = Ok (r, D') -> store_ok cw D'.
Proof.
  induction fuel as [|fuel IH]; intros q D r D' HD H; simpl in H;
    (destruct (list_pop q) as [[q1 [x y]]|]; [|injection H as _ <-; exact HD]);
    [discriminate|].
  bind_inv H. destruct r0 as [b D1].
  pose proof (store_ok_revise _ _ _ _ _ _ HD E) as HD1. destruct b.
  - bind_inv H. destruct (length r0 =? 0); [injection H as _ <-; exact HD1|].
    eapply IH; eauto.
  - eapply IH; eauto.
Qed.

Lemma store_ok_fresh (cw : Crossword) :
  is_set (variables cw) -> is_set (words cw) ->
  exists D1, enforce_node_consistency cw (init_domains cw) = Ok D1 /\ store_ok cw D1
    /\ forall x, In x (variables cw) -> dict_get D1 x = Ok (fitting cw x).
Proof.
  intros Hv Hw. eexists. split; [apply enforce_node_consistency_fresh; assumption|].
  split; [split; [apply keys_map|]|].
  - apply Forall_forall. intros [v d] Hin. apply in_map_iff in Hin.
    destruct Hin as [v' [E _]]. injection E as -> <-. simpl. unfold fitting.
    split; [apply NoDup_filter; exact Hw|]. split.
    + intros w Hin. apply filter_In in Hin. tauto.
    + apply Forall_forall. intros w Hin. apply filter_In in Hin.
      apply Nat.eqb_eq. tauto.
  - intros x Hx. apply (dict_get_map (fitting cw)). exact Hx.
Qed.

Lemma store_ok_indexable (cw : Crossword) (D : Domains) :
  overlaps_in_range cw -> store_ok cw D -> indexable cw D.
Proof.
  intros Hr HD. apply node_consistent_indexable; [exact Hr|].
  intros x dx w Hg Hin. destruct (store_ok_get _ _ _ _ HD Hg) as (_ & _ & Hl).
  rewrite Forall_forall in Hl. auto.
Qed.

Lemma store_ok_small (cw : Crossword) (D : Domains) :
  (N.of_nat (length (words cw)) < 1000000)%N -> store_ok cw D ->
  forall x dx, In (x, dx) D ->
    N.ltb (N.of_nat (length dx)) min_remaining_values = true.
Proof.
  intros Hsz [_ HF] x dx Hin. rewrite Forall_forall in HF.
  destruct (HF _ Hin) as (Hnd & Hincl & _). simpl in *.
  pose proof (NoDup_incl_length Hnd Hincl) as Hle.
  apply N.ltb_lt. unfold min_remaining_values. lia.
Qed.

(** *** revise and ac3 on these stores *)

Lemma revise_Ok (cw : Crossword) (x y : Var) (D : Domains) :
  overlaps_in_range cw -> store_ok cw D ->
  In x (variables cw) -> In y (variables cw) -> x <> y ->
  exists b D', revise cw x y D = Ok (b, D').
Proof.
  intros Hr HD Hx Hy Hxy.
  destruct (overlaps_table cw x y) as [[kx ky]|] eqn:Et.
  - assert (Ho : overlaps cw x y = Ok (Some (kx, ky))) by (apply overlaps_Ok; auto).
    destruct (store_ok_has _ _ _ HD Hx) as [dx Hdx].
    destruct (store_ok_has _ _ _ HD Hy) as [dy Hdy].
    destruct (store_ok_get _ _ _ _ HD Hdx) as (Hnd & _ & _).
    destruct (store_ok_indexable cw D Hr HD _ _ _ _ _ _ Ho Hdx Hdy) as [H1 H2].
    do 2 eexists. apply (revise_exact cw x y D kx ky dx dy); auto;
      apply Forall_forall; assumption.
  - exists false, D. unfold revise.
    assert (Ho : overlaps cw x y = Ok None) by (apply overlaps_Ok; auto).
    rewrite Ho. reflexivity.
Qed.

Lemma ac3_loop_no_raise (cw : Crossword) :
  overlaps_in_range cw ->
  forall fuel q D e,
    store_ok cw D ->
    (forall x y, In (x, y) q -> In x (variables cw) /\ In y (variables cw) /\ x <> y) ->
    ac3_loop cw fuel q D <> Raise e.
Proof.
  intros Hr. induction fuel as [|fuel IH]; intros q D e HD Hq; simpl;
    destruct (list_pop q) as [[q1 [x y]]|] eqn:Ep; try discriminate.
  apply list_pop_Some in Ep. subst q.
  destruct (Hq x y) as (Hx & Hy & Hxy); [apply in_or_app; simpl; auto|].
  destruct (revise_Ok cw x y D Hr HD Hx Hy Hxy) as (b & D1 & Hrev).
  rewrite Hrev. simpl. pose proof (store_ok_revise _ _ _ _ _ _ HD Hrev) as HD1.
  assert (Hq1 : forall a b0, In (a, b0) q1 ->
            In a (variables cw) /\ In b0 (variables cw) /\ a <> b0).
  { intros a b0 Hin. apply Hq. apply in_or_app. auto. }
  destruct b; [|apply IH; assumption].
  destruct (store_ok_has _ _ _ HD1 Hx) as [dx Hdx]. rewrite Hdx. simpl.
  destruct (length dx =? 0); [discriminate|].
  apply IH; [exact HD1|]. intros a b0 Hin. apply in_app_or in Hin.
  destruct Hin as [Hin|Hin]; [auto|].
  apply in_map_iff in Hin. destruct Hin as [n [E Hn]]. injection E as <- <-.
  destruct (neighbors_In _ _ _ Hn) as (Hnv & Hne & _). auto.
Qed.

Lemma ac3_Ok (cw : Crossword) (D : Domains) :
  overlaps_in_range cw -> store_ok cw D ->
  exists r D', ac3 cw (ac3_budget cw None D) None D = Ok (r, D') /\ store_ok cw D'.
Proof.
  intros Hr HD. unfold ac3.
  destruct (ac3_loop cw (ac3_budget cw None D) (all_arcs D) D) as [[r D']|e|] eqn:E.
  - exists r, D'. split; [reflexivity|]. eapply store_ok_ac3_loop; eauto.
  - exfalso. revert E. apply ac3_loop_no_raise; auto.
    intros x y Hin. destruct (all_arcs_arcs_of D x y Hin) as (Hx & Hy & Hxy).
    destruct HD as [Hk _]. rewrite Hk in Hx, Hy. auto.
  - exfalso. revert E. apply ac3_loop_returns. unfold ac3_budget. lia.
Qed.

(** *** Solutions survive the propagation *)

Lemma any_match_false (ky : nat) (c : ascii) (dy : list string) :
  any_match ky c dy = Ok false ->
  forall w', In w' dy -> String.get ky w' <> Some c.
Proof.
  induction dy as [|a dy IH]; simpl; intros H w' Hin; [contradiction|].
  bind_inv H. unfold str_index in E.
  destruct (String.get ky a) as [ca|] eqn:G; [|discriminate]. injection E as <-.
  destruct (Ascii.eqb ca c) eqn:Ec; [discriminate|].
  destruct Hin as [<-|Hin]; [|auto].
  rewrite G. intros Heq. injection Heq as ->. rewrite Ascii.eqb_refl in Ec.
  discriminate.
Qed.

Lemma revise_word_removes (x y : Var) (kx ky : nat) (word : string)
  (rm rm' : bool) (D1 D1' : Domains) :
  revise_word x y kx ky word (rm, D1) = Ok (rm', D1') ->
  D1' = D1
  \/ (exists c dy, String.get kx word = Some c /\ dict_get D1 y = Ok dy
        /\ any_match ky c dy = Ok false /\ domains_remove D1 x word = Ok D1').
Proof.
  unfold revise_word. intros H. bind_inv H. bind_inv H. bind_inv H.
  destruct r1; simpl in H.
  - injection H as _ <-. auto.
  - bind_inv H. injection H as _ <-. right. exists r, r0.
    unfold str_index in E. destruct (String.get kx word); [|discriminate].
    injection E as ->. auto.
Qed.

Lemma revise_keeps_solution (cw : Crossword) (f : Var -> string) (x y : Var)
  (D D' : Domains) (b : bool) :
  solution cw f -> within D f -> revise cw x y D = Ok (b, D') -> within D' f.
Proof.
  intros (_ & _ & Hov) HD H. unfold revise in H. bind_inv H.
  destruct r as [[kx ky]|]; [|injection H as _ <-; exact HD].
  bind_inv H.
  apply (for_each_rel (fun st' st : bool * Domains =>
           within (snd st) f -> within (snd st') f)
           (revise_word x y kx ky) (fun s h => h)
           (fun s1 s2 s3 h32 h21 h => h32 (h21 h)) r) with (s := (false, D))
           (s' := (b, D')); [|exact H | exact HD].
  intros word [rm D1] [rm' D1'] _ Hw Hin1. simpl in *.
  destruct (revise_word_removes _ _ _ _ _ _ _ _ _ Hw)
    as [->|(c & dy & Gc & Hdy & Hany & Hrem)]; [exact Hin1|].
  assert (Hne : f x <> word).
  { intros <-. destruct (Hov _ _ _ _ E) as (c' & G1 & G2).
    rewrite Gc in G1. injection G1 as <-.
    exact (any_match_false _ _ _ Hany _ (Hin1 _ _ Hdy) G2). }
  intros z dz Hz. destruct (Var_eqb z x) eqn:Ezx.
  - apply Var_eqb_eq in Ezx. subst z. unfold domains_remove in Hrem.
    bind_inv Hrem. bind_inv Hrem. injection Hrem as <-.
    rewrite dict_get_set_same in Hz. injection Hz as <-.
    destruct (set_remove_split _ _ _ E2) as (l1 & l2 & -> & ->).
    pose proof (Hin1 _ _ E1) as Hin. apply in_app_iff in Hin. apply in_app_iff.
    simpl in Hin. destruct Hin as [Hin|[Hin|Hin]]; auto. congruence.
  - apply Var_eqb_neq in Ezx.
    rewrite (domains_remove_other _ _ _ _ _ Hrem Ezx) in Hz. auto.
Qed.

Lemma ac3_loop_keeps_solution (cw : Crossword) (f : Var -> string) :
  solution cw f ->
  forall fuel q D r D',
    within D f -> ac3_loop cw fuel q D = Ok (r, D') -> within D' f.
Proof.
  intros Hs. induction fuel as [|fuel IH]; intros q D r D' HD H; simpl in H;
    (destruct (list_pop q) as [[q1 [x y]]|]; [|injection H as _ <-; exact HD]);
    [discriminate|].
  bind_inv H. destruct r0 as [b D1].
  pose proof (revise_keeps_solution _ _ _ _ _ _ _ Hs HD E) as HD1. destruct b.
  - bind_inv H. destruct (length r0 =? 0); [injection H as _ <-; exact HD1|].
    eapply IH; eauto.
  - eapply IH; eauto.
Qed.

(** X8.  The propagation never discards a word of a solution: if the store
    offers, for every variable, the word a solution gives it, then so does
    the store that [ac3] leaves, whatever the arcs and whatever it returns. *)
Theorem ac3_keeps_solutions (cw : Crossword) (f : Var -> string) (fuel : nat)
  (arcs : option (list (Var * Var))) (D D' : Domains) (r : pyval) :
  solution cw f ->
  within D f ->
  ac3 cw fuel arcs D = Ok (r, D') ->
  within D' f.
Proof. intros Hs HD H. eapply ac3_loop_keeps_solution; eauto. Qed.

(** ** The search on the stores of the pipeline *)

Lemma consistent_neighbors_Ok (cw : Crossword) (a : Assignment) (var : Var)
  (word : string) (ns : list Var) :
  overlaps_in_range cw ->
  (forall v w, In (v, w) a -> String.length w = var_length v) ->
  In var (variables cw) -> String.length word = var_length var ->
  (forall n, In n ns -> In n (neighbors cw var)) ->
  exists b, consistent_neighbors cw a var word ns = Ok b.
Proof.
  intros Hr Hlen Hvar Hw. induction ns as [|m ns IH]; simpl; intros Hns; [eauto|].
  assert (Hrest : exists b, consistent_neighbors cw a var word ns = Ok b)
    by (apply IH; intros n Hn; apply Hns; auto).
  destruct (dict_mem a m) eqn:Em; [|exact Hrest].
  destruct (proj1 (dict_get_mem a m) Em) as [wn Hwn]. rewrite Hwn. simpl.
  destruct (neighbors_In cw var m (Hns m (or_introl eq_refl))) as (Hm & Hne & _).
  assert (Ho : overlaps cw var m = Ok (overlaps_table cw var m))
    by (apply overlaps_Ok; auto).
  rewrite Ho. simpl. destruct (overlaps_table cw var m) as [[k0 k1]|] eqn:Et;
    [|exact Hrest].
  destruct (Hr _ _ _ _ Ho) as [H0 H1].
  rewrite <- (Hlen _ _ (dict_get_In _ _ _ Hwn)) in H1. rewrite <- Hw in H0.
  unfold str_index. destruct (str_index_lt _ _ H1) as [c1 ->].
  destruct (str_index_lt _ _ H0) as [c0 ->]. simpl.
  destruct (negb (Ascii.eqb c1 c0)); [eauto | exact Hrest].
Qed.

Lemma consistent_Ok (cw : Crossword) (a : Assignment) :
  overlaps_in_range cw -> assignment_ok cw a -> exists b, consistent cw a = Ok b.
Proof.
  intros Hr (_ & Hk & Hlen). unfold consistent.
  assert (G : forall items all_words,
             incl items a -> exists b, consistent_items cw a items all_words = Ok b).
  { induction items as [|[var word] items IH]; simpl; intros all_words Hin; [eauto|].
    destruct (word_in word all_words); [eauto|].
    destruct (var_length var =? String.length word) eqn:El; simpl; [|eauto].
    apply Nat.eqb_eq in El.
    assert (Hvar : In var (variables cw)).
    { apply Hk. apply in_map_iff. exists (var, word). split; [reflexivity|].
      apply Hin. left. reflexivity. }
    destruct (consistent_neighbors_Ok cw a var word (neighbors cw var) Hr Hlen Hvar
                (eq_sym El) (fun n h => h)) as [b ->]. simpl.
    destruct b; [|eauto]. apply IH. intros p Hp. apply Hin. right. exact Hp. }
  apply G. apply incl_refl.
Qed.

Lemma order_domain_values_perm (cw : Crossword) (D : Domains) (var : Var)
  (a : Assignment) (dv : list string) :
  In var (variables cw) -> overlaps_symmetric cw -> has_domains cw D ->
  indexable cw D -> dict_get D var = Ok dv ->
  exists l, order_domain_values cw D var a = Ok l /\ Permutation l dv.
Proof.
  intros Hvar Hsym Hdom Hix Hdv. unfold order_domain_values.
  destruct (filter (fun v => negb (dict_mem a v)) (neighbors cw var))
    as [|n ns] eqn:Eu; simpl.
  - exists dv. split; [exact Hdv | reflexivity].
  - rewrite Hdv. simpl. rewrite <- Eu.
    destruct (sorted_by_key_sorted
                (sort_function cw D var
                   (filter (fun v => negb (dict_mem a v)) (neighbors cw var)))
                (eliminated cw D a var) dv) as (l & Hl & Hp & _); [|eauto].
    intros w Hw. apply sort_function_exact with dv; assumption.
Qed.

Lemma assignment_complete_cases (cw : Crossword) (a : Assignment) :
  assignment_complete cw a = Ok true
  \/ (assignment_complete cw a = Ok false
      /\ exists v, In v (variables cw)
           /\ (dict_mem a v = false \/ dict_get a v = Ok EmptyString)).
Proof.
  unfold assignment_complete. induction (variables cw) as [|k vars IH]; [auto|].
  destruct (dict_mem a k) eqn:Em.
  - destruct (proj1 (dict_get_mem a k) Em) as [w Hw]. rewrite Hw. simpl.
    destruct w as [|c w]; simpl.
    + right. split; [reflexivity|]. exists k. split; [left; reflexivity | auto].
    + destruct IH as [IH|[IH (v & Hv & Hc)]]; [auto|].
      right. split; [exact IH|]. exists v. split; [right; exact Hv | exact Hc].
  - right. split; [reflexivity|]. exists k. split; [left; reflexivity | auto].
Qed.

Lemma last_Some {A : Type} (l : list A) :
  l <> [] -> exists v, last (map Some l) None = Some v.
Proof.
  destruct l as [|u us]; [congruence|]. intros _. revert u.
  induction us as [|u' us IH]; intros u; [exists u; reflexivity|].
  change (last (map Some (u :: u' :: us)) None)
    with (last (map Some (u' :: us)) None). apply IH.
Qed.

Lemma select_unassigned_variable_finds (cw : Crossword) (D : Domains)
  (a : Assignment) :
  well_formed cw -> store_ok cw D -> assignment_ok cw a ->
  assignment_complete cw a = Ok false ->
  exists v, select_unassigned_variable cw D a = Some v.
Proof.
  intros Hwf HD (_ & _ & Hlen) Hc.
  rewrite (select_unassigned_variable_is_last cw D a
             (store_ok_small cw D (wf_size cw Hwf) HD)).
  apply last_Some.
  destruct (assignment_complete_cases cw a) as [Ht|[_ (v & Hv & Hcase)]];
    [congruence|].
  assert (Hm : dict_mem a v = false).
  { destruct Hcase as [Hm|Hg]; [exact Hm|].
    apply dict_get_In in Hg. apply Hlen in Hg. simpl in Hg.
    pose proof (wf_length cw Hwf v Hv). lia. }
  intros Hnil. assert (Hin : In v (unassigned D a)).
  { unfold unassigned. apply filter_In. destruct HD as [Hk _]. rewrite Hk.
    split; [exact Hv|]. rewrite Hm. reflexivity. }
  rewrite Hnil in Hin. destruct Hin.
Qed.

Lemma assignment_ok_set (cw : Crossword) (a : Assignment) (v : Var) (w : string) :
  assignment_ok cw a -> dict_mem a v = false -> In v (variables cw) ->
  String.length w = var_length v ->
  assignment_ok cw (dict_set a v w).
Proof.
  intros (Hnd & Hk & Hlen) Hm Hv Hw. rewrite (dict_set_absent a v w Hm).
  unfold assignment_ok, keys in *. rewrite map_app. simpl. split; [|split].
  - apply NoDup_snoc. split; [exact Hnd|]. intros Hin.
    apply dict_mem_keys in Hin. congruence.
  - intros k Hin. apply in_app_or in Hin. destruct Hin as [Hin|[<-|[]]]; auto.
  - intros v' w' Hin. apply in_app_or in Hin.
    destruct Hin as [Hin|[E|[]]]; [auto|]. injection E as <- <-. exact Hw.
Qed.

Lemma backtrack_words_Ok (cw : Crossword)
  (rec : Assignment -> outcome (bool * Assignment)) (v : Var) (a : Assignment) :
  (forall a1 res, rec a1 = Ok res -> backtrack_post cw a1 res) ->
  dict_mem a v = false ->
  forall ws,
    (forall w, In w ws -> exists b, consistent cw (dict_set a v w) = Ok b) ->
    (forall w, In w ws -> exists res, rec (dict_set a v w) = Ok res) ->
    exists res, backtrack_words cw rec v ws a = Ok res.
Proof.
  intros Hpost Hv. induction ws as [|w ws IH]; simpl; intros Hc Hrec; [eauto|].
  assert (Hrest : exists res, backtrack_words cw rec v ws a = Ok res)
    by (apply IH; intros w' Hw'; [apply Hc | apply Hrec]; auto).
  pose proof (dict_del_set_absent a v w Hv) as Hdel.
  destruct (Hc w (or_introl eq_refl)) as [c Ec]. rewrite Ec. simpl. destruct c.
  - destruct (Hrec w (or_introl eq_refl)) as [[result a2] Hr]. rewrite Hr. simpl.
    destruct (Hpost _ _ Hr) as [Hf Ht]. simpl in Hf, Ht. destruct result.
    + destruct (Ht eq_refl) as [_ Hk].
      assert (Hc2 : consistent cw a2 = Ok true)
        by (destruct Hk as [->|Hk]; assumption).
      rewrite Hc2. simpl. eauto.
    + rewrite (Hf eq_refl), Hdel. simpl. exact Hrest.
  - rewrite Hdel. simpl. exact Hrest.
Qed.

Lemma store_ok_has_domains (cw : Crossword) (D : Domains) :
  store_ok cw D -> has_domains cw D.
Proof. intros HD v Hv. eapply store_ok_has; eauto. Qed.

(** On the stores of the pipeline [backtrack] never raises. *)
Lemma backtrack_Ok (cw : Crossword) (D : Domains) :
  well_formed cw -> store_ok cw D ->
  forall fuel a,
    assignment_ok cw a -> length (unassigned D a) < fuel ->
    exists res, backtrack cw D fuel a = Ok res.
Proof.
  intros Hwf HD. induction fuel as [|fuel IH]; intros a Ha Hf; [lia|]. simpl.
  destruct (assignment_complete_cases cw a) as [Hc|[Hc _]]; rewrite Hc; simpl;
    [eauto|].
  destruct (select_unassigned_variable_finds cw D a Hwf HD Ha Hc) as [v Hs].
  rewrite Hs. destruct (select_unassigned_variable_Some _ _ _ _ Hs) as [Hm HvD].
  assert (Hv : In v (variables cw)) by (destruct HD as [Hk _]; rewrite <- Hk; exact HvD).
  destruct (store_ok_has _ _ _ HD Hv) as [dv Hdv].
  destruct (order_domain_values_perm cw D v a dv Hv (wf_symmetric cw Hwf)
              (store_ok_has_domains cw D HD)
              (store_ok_indexable cw D (wf_in_range cw Hwf) HD) Hdv)
    as (ws & Hws & Hperm).
  rewrite Hws. simpl.
  assert (Hok : forall w, In w ws -> assignment_ok cw (dict_set a v w)).
  { intros w Hw. apply assignment_ok_set; auto.
    destruct (store_ok_get _ _ _ _ HD Hdv) as (_ & _ & Hl).
    rewrite Forall_forall in Hl. apply Hl. eapply Permutation_in; eauto. }
  apply backtrack_words_Ok.
  - apply backtrack_post_holds.
  - exact Hm.
  - intros w Hw. apply consistent_Ok; [apply (wf_in_range cw Hwf) | auto].
  - intros w Hw. apply IH; [auto|].
    pose proof (unassigned_set_lt D a v w Hm HvD). lia.
Qed.

Lemma solution_consistent_spec (cw : Crossword) (f : Var -> string) (a : Assignment) :
  solution cw f -> agrees a f -> NoDup (keys a) -> incl (keys a) (variables cw) ->
  consistent_spec cw a.
Proof.
  intros (Hw & Hinj & Hov) Hag Hnd Hk. split; [|split].
  - clear Hov. induction a as [|[v w] a IH]; simpl; [constructor|].
    simpl in Hnd. inversion Hnd as [|v0 l Hv Hnd']; subst.
    constructor.
    + intros Hin. apply in_map_iff in Hin. destruct Hin as [[v' w'] [E Hin]].
      simpl in E. subst w'. apply Hv.
      assert (Ev : v' = v).
      { apply Hinj.
        - apply Hk. right. apply in_map_iff. exists (v', w). auto.
        - apply Hk. left. reflexivity.
        - rewrite (Hag v' w (or_intror Hin)), (Hag v w (or_introl eq_refl)).
          reflexivity. }
      subst v'. apply in_map_iff. exists (v, w). auto.
    + apply IH; [|exact Hnd'|].
      * intros v' w' Hin. apply Hag. right. exact Hin.
      * intros k Hin. apply Hk. right. exact Hin.
  - intros v w Hin. rewrite <- (Hag v w Hin). symmetry. apply Hw.
    apply Hk. apply in_map_iff. exists (v, w). auto.
  - intros v w n wn k0 k1 Hin Hn Hg Ht.
    destruct (neighbors_In _ _ _ Hn) as (Hnv & Hne & _).
    assert (Hv : In v (variables cw))
      by (apply Hk; apply in_map_iff; exists (v, w); auto).
    assert (Ho : overlaps cw v n = Ok (Some (k0, k1))) by (apply overlaps_Ok; auto).
    rewrite <- (Hag v w Hin), <- (Hag n wn (dict_get_In _ _ _ Hg)).
    exact (Hov _ _ _ _ Ho).
Qed.

Lemma backtrack_words_finds (cw : Crossword)
  (rec : Assignment -> outcome (bool * Assignment)) (v : Var) (a : Assignment)
  (good : string) :
  (forall a1 res, rec a1 = Ok res -> backtrack_post cw a1 res) ->
  dict_mem a v = false ->
  consistent cw (dict_set a v good) = Ok true ->
  (exists a2, rec (dict_set a v good) = Ok (true, a2)) ->
  forall ws,
    In good ws ->
    (forall w, In w ws -> exists b, consistent cw (dict_set a v w) = Ok b) ->
    (forall w, In w ws -> exists res, rec (dict_set a v w) = Ok res) ->
    exists a', backtrack_words cw rec v ws a = Ok (true, a').
Proof.
  intros Hpost Hv Hgood [ag Hrg]. induction ws as [|w ws IH]; simpl;
    intros Hin Hc Hrec; [contradiction|].
  pose proof (dict_del_set_absent a v w Hv) as Hdel.
  destruct (Hc w (or_introl eq_refl)) as [c Ec]. rewrite Ec. simpl.
  assert (Hrest : w <> good -> exists a', backtrack_words cw rec v ws a = Ok (true, a')).
  { intros Hne. apply IH; [destruct Hin; [congruence | assumption] | |];
      intros w' Hw'; [apply Hc | apply Hrec]; auto. }
  destruct c.
  - destruct (Hrec w (or_introl eq_refl)) as [[result a2] Hr]. rewrite Hr. simpl.
    destruct (Hpost _ _ Hr) as [Hf Ht]. simpl in Hf, Ht. destruct result.
    + destruct (Ht eq_refl) as [_ Hk].
      assert (Hc2 : consistent cw a2 = Ok true)
        by (destruct Hk as [->|Hk]; assumption).
      rewrite Hc2. simpl. eauto.
    + rewrite (Hf eq_refl), Hdel. simpl. apply Hrest. intros ->. congruence.
  - rewrite Hdel. simpl. apply Hrest. intros ->. congruence.
Qed.

(** On the stores of the pipeline [backtrack] finds a complete assignment
    whenever the store still offers the words of a solution that the
    assignment agrees with. *)
Lemma backtrack_complete (cw : Crossword) (D : Domains) (f : Var -> string) :
  well_formed cw -> store_ok cw D -> solution cw f -> within D f ->
  forall fuel a,
    assignment_ok cw a -> agrees a f -> length (unassigned D a) < fuel ->
    exists a', backtrack cw D fuel a = Ok (true, a').
Proof.
  intros Hwf HD Hsol Hin. induction fuel as [|fuel IH]; intros a Ha Hag Hf; [lia|].
  simpl.
  destruct (assignment_complete_cases cw a) as [Hc|[Hc _]]; rewrite Hc; simpl;
    [eauto|].
  destruct (select_unassigned_variable_finds cw D a Hwf HD Ha Hc) as [v Hs].
  rewrite Hs. destruct (select_unassigned_variable_Some _ _ _ _ Hs) as [Hm HvD].
  assert (Hv : In v (variables cw)) by (destruct HD as [Hk _]; rewrite <- Hk; exact HvD).
  destruct (store_ok_has _ _ _ HD Hv) as [dv Hdv].
  destruct (order_domain_values_perm cw D v a dv Hv (wf_symmetric cw Hwf)
              (store_ok_has_domains cw D HD)
              (store_ok_indexable cw D (wf_in_range cw Hwf) HD) Hdv)
    as (ws & Hws & Hperm).
  rewrite Hws. simpl.
  assert (Hok : forall w, In w ws -> assignment_ok cw (dict_set a v w)).
  { intros w Hw. apply assignment_ok_set; auto.
    destruct (store_ok_get _ _ _ _ HD Hdv) as (_ & _ & Hl).
    rewrite Forall_forall in Hl. apply Hl. eapply Permutation_in; eauto. }
  assert (Hlt : forall w, length (unassigned D (dict_set a v w)) < fuel)
    by (intros w; pose proof (unassigned_set_lt D a v w Hm HvD); lia).
  assert (Hgood : In (f v) ws)
    by (eapply Permutation_in; [symmetry; exact Hperm | exact (Hin _ _ Hdv)]).
  assert (Hag1 : agrees (dict_set a v (f v)) f).
  { intros v' w' Hi. apply dict_set_In in Hi.
    destruct Hi as [Hi|[-> ->]]; [auto | reflexivity]. }
  apply backtrack_words_finds with (good := f v).
  - apply backtrack_post_holds.
  - exact Hm.
  - destruct (Hok _ Hgood) as (Hnd1 & Hk1 & _).
    apply consistent_spec_true; [exact Hk1|].
    apply solution_consistent_spec with f; assumption.
  - apply IH; auto.
  - exact Hgood.
  - intros w Hw. apply consistent_Ok; [apply (wf_in_range cw Hwf) | auto].
  - intros w Hw. apply backtrack_Ok; auto.
Qed.

Lemma assignment_ok_nil (cw : Crossword) : assignment_ok cw [].
Proof.
  split; [constructor|]. split; [intros v [] | intros v w []].
Qed.

Lemma unassigned_nil_lt (D : Domains) : length (unassigned D []) < backtrack_budget D.
Proof.
  unfold backtrack_budget, unassigned.
  pose proof (filter_length_le (fun v => negb (dict_mem (@nil (Var * string)) v)) (keys D)).
  unfold keys in *. rewrite length_map in *. lia.
Qed.

(** The steps of [generate] on a well-formed crossword. *)
Lemma generate_steps (cw : Crossword) :
  well_formed cw ->
  exists D1 r D2 found a,
    enforce_node_consistency cw (init_domains cw) = Ok D1
    /\ (forall x, In x (variables cw) -> dict_get D1 x = Ok (fitting cw x))
    /\ ac3 cw (ac3_budget cw None D1) None D1 = Ok (r, D2)
    /\ store_ok cw D2
    /\ backtrack cw D2 (backtrack_budget D2) [] = Ok (found, a)
    /\ generate cw = Ok (if found then Some a else None).
Proof.
  intros Hwf.
  destruct (store_ok_fresh cw (wf_variables cw Hwf) (wf_words cw Hwf))
    as (D1 & H1 & HD1 & Hfit).
  destruct (ac3_Ok cw D1 (wf_in_range cw Hwf) HD1) as (r & D2 & H2 & HD2).
  destruct (backtrack_Ok cw D2 Hwf HD2 (backtrack_budget D2) []
              (assignment_ok_nil cw) (unassigned_nil_lt D2)) as [[found a] H3].
  exists D1, r, D2, found, a. repeat (split; [assumption|]).
  unfold generate, solve. rewrite H1. cbn [bind]. rewrite H2. cbn [bind].
  rewrite H3. reflexivity.
Qed.

(** ** generate, end to end *)

Lemma chain_puzzle_well_formed : well_formed chain_puzzle.
Proof.
  constructor.
  - concrete_set.
  - concrete_set.
  - exact chain_puzzle_symmetric.
  - apply grid_overlaps_in_range.
  - intros v Hv. concrete_vars Hv; simpl; lia.
  - reflexivity.
Qed.

Lemma chain_solution_solution : solution chain_puzzle chain_solution.
Proof.
  split; [|split].
  - intros x Hx. concrete_vars Hx; split; vm_compute; auto 10.
  - intros x y Hx Hy. concrete_vars Hx; concrete_vars Hy; vm_compute;
      intros E; try reflexivity; discriminate.
  - intros x y kx ky H. apply overlaps_Ok in H. destruct H as (Hx & Hy & _ & H).
    concrete_vars Hx; concrete_vars Hy; vm_compute in H; try discriminate;
      injection H as <- <-; eexists; split; reflexivity.
Qed.

Lemma chain_store_within : within chain_store chain_solution.
Proof.
  intros x dx Hg. apply dict_get_In in Hg. simpl in Hg.
  repeat (destruct Hg as [Hg|Hg]; [injection Hg as <- <-; vm_compute; auto|]).
  contradiction.
Qed.

Lemma ac3_keeps_solutions_witness :
  solution chain_puzzle chain_solution
  /\ within chain_store chain_solution
  /\ ac3 chain_puzzle (ac3_budget chain_puzzle None chain_store) None chain_store
     = Ok (PyNone, chain_store_ac3)
  /\ within chain_store_ac3 chain_solution.
Proof.
  assert (H : ac3 chain_puzzle (ac3_budget chain_puzzle None chain_store) None
                chain_store = Ok (PyNone, chain_store_ac3))
    by (vm_compute; reflexivity).
  split; [exact chain_solution_solution|]. split; [exact chain_store_within|].
  split; [exact H|].
  exact (ac3_keeps_solutions chain_puzzle chain_solution _ None chain_store
           chain_store_ac3 PyNone chain_solution_solution chain_store_within H).
Defined.

(** X9.  On a well-formed crossword (sets of variables and words, symmetric
    overlaps inside the slots, no empty slot, fewer than 1000000 words)
    [solve] on the freshly seeded store never raises: it returns an
    assignment or None. *)
Theorem generate_never_raises (cw : Crossword) :
  well_formed cw -> exists r, generate cw = Ok r.
Proof.
  intros Hwf. destruct (generate_steps cw Hwf) as (D1 & r & D2 & found & a & H).
  destruct H as (_ & _ & _ & _ & _ & H). eauto.
Qed.

Lemma generate_never_raises_witness :
  well_formed chain_puzzle /\ exists r, generate chain_puzzle = Ok r.
Proof.
  split; [exact chain_puzzle_well_formed|].
  exact (generate_never_raises chain_puzzle chain_puzzle_well_formed).
Defined.

Lemma NoDup_snd_inj {V : Type} (a : dict V) (x y : Var) (w : V) :
  NoDup (map snd a) -> In (x, w) a -> In (y, w) a -> x = y.
Proof.
  induction a as [|[k v] a IH]; simpl; intros Hnd Hx Hy; [contradiction|].
  inversion Hnd as [|v0 l Hv Hnd']; subst.
  destruct Hx as [Ex|Hx], Hy as [Ey|Hy].
  - congruence.
  - injection Ex as _ <-. exfalso. apply Hv. apply in_map_iff. exists (y, v). auto.
  - injection Ey as _ <-. exfalso. apply Hv. apply in_map_iff. exists (x, v). auto.
  - auto.
Qed.

Lemma store_ok_from_dictionary (cw : Crossword) (D : Domains) :
  store_ok cw D -> store_from_dictionary cw D.
Proof.
  intros HD x dx w Hg Hin. destruct (store_ok_get _ _ _ _ HD Hg) as (_ & Hi & _).
  auto.
Qed.

(** X10.  On a well-formed crossword, an assignment returned by [solve]
    binds each variable of the crossword exactly once and is a solution of
    the puzzle: every word is a dictionary word of the length of its
    variable, no word is used twice, and the letters agree on every
    overlap. *)
Theorem generate_sound (cw : Crossword) (a : Assignment) :
  well_formed cw ->
  generate cw = Ok (Some a) ->
  Permutation (keys a) (variables cw) /\ solution cw (assigned a).
Proof.
  intros Hwf Hgen.
  destruct (generate_steps cw Hwf)
    as (D1 & r & D2 & found & a0 & _ & _ & _ & HD2 & Hbt & Hg).
  rewrite Hgen in Hg. destruct found; [|discriminate]. injection Hg as <-.
  destruct (backtrack_post_holds cw D2 _ _ _ Hbt) as [_ Hpost].
  destruct (Hpost eq_refl) as [Hcomp Hk]. simpl in Hcomp, Hk.
  assert (Hcons : consistent cw a = Ok true)
    by (destruct Hk as [->|Hk]; [reflexivity | exact Hk]).
  destruct (backtrack_frame_holds cw D2 _ _ _ Hbt) as [_ Hframe].
  destruct (Hframe eq_refl) as (extra & Hex & Hnd & Hin). simpl in Hex. subst extra.
  pose proof (backtrack_dictionary cw D2 (store_ok_from_dictionary cw D2 HD2)
                _ _ _ (fun v w (h : In (v, w) []) => match h with end) Hbt) as Hdict.
  simpl in Hdict.
  pose proof (assignment_complete_true cw a Hcomp) as Hall.
  destruct (consistent_true_spec cw a Hcons) as (Hndw & Hlen & Hag).
  assert (Hget : forall x, In x (variables cw) ->
            exists w, dict_get a x = Ok w /\ assigned a x = w).
  { intros x Hx. destruct (Hall x Hx) as (w & Hw & _). exists w.
    split; [exact Hw|]. unfold assigned. rewrite Hw. reflexivity. }
  split.
  - apply NoDup_Permutation; [exact Hnd | apply (wf_variables cw Hwf)|].
    intros v. split.
    + intros Hv. destruct (Hin v Hv) as [HvD _]. destruct HD2 as [HkD _].
      rewrite <- HkD. exact HvD.
    + intros Hv. destruct (Hall v Hv) as (w & Hw & _).
      apply dict_mem_keys. apply dict_get_mem. eauto.
  - split; [|split].
    + intros x Hx. destruct (Hget x Hx) as (w & Hw & ->).
      apply dict_get_In in Hw. split; [eapply Hdict; eauto|].
      symmetry. apply Hlen. exact Hw.
    + intros x y Hx Hy E. destruct (Hget x Hx) as (wx & Hwx & Ex).
      destruct (Hget y Hy) as (wy & Hwy & Ey). rewrite Ex, Ey in E. subst wy.
      apply dict_get_In in Hwx, Hwy. eapply NoDup_snd_inj; eauto.
    + intros x y kx ky Ho. pose proof Ho as Ho'. apply overlaps_Ok in Ho'.
      destruct Ho' as (Hx & Hy & Hxy & Ht).
      destruct (Hget x Hx) as (wx & Hwx & ->). destruct (Hget y Hy) as (wy & Hwy & ->).
      apply (Hag x wx y wy kx ky); [apply dict_get_In; exact Hwx | | exact Hwy | exact Ht].
      unfold neighbors. apply filter_In. split; [exact Hy|].
      rewrite (wf_symmetric cw Hwf _ _ _ _ Hx Hy Ht). simpl.
      rewrite andb_true_r. apply negb_true_iff. apply Var_eqb_neq. congruence.
Qed.

Lemma generate_sound_witness :
  well_formed chain_puzzle
  /\ generate chain_puzzle
     = Ok (Some [(bottom, "CAAA"); (left, "ABC"); (top, "AX")]%string)
  /\ Permutation (keys [(bottom, "CAAA"); (left, "ABC"); (top, "AX")]%string)
                 (variables chain_puzzle)
  /\ solution chain_puzzle
       (assigned [(bottom, "CAAA"); (left, "ABC"); (top, "AX")]%string).
Proof.
  assert (H : generate chain_puzzle
              = Ok (Some [(bottom, "CAAA"); (left, "ABC"); (top, "AX")]%string))
    by (vm_compute; reflexivity).
  split; [exact chain_puzzle_well_formed|]. split; [exact H|].
  exact (generate_sound chain_puzzle _ chain_puzzle_well_formed H).
Defined.

(** X11.  On a well-formed crossword [solve] is complete: whenever the
    puzzle has a solution it returns an assignment, so None means that no
    choice of dictionary words solves the puzzle. *)
Theorem generate_complete (cw : Crossword) :
  well_formed cw ->
  (forall f, solution cw f -> exists a, generate cw = Ok (Some a))
  /\ (generate cw = Ok None -> forall f, ~ solution cw f).
Proof.
  intros Hwf.
  assert (G : forall f, solution cw f -> exists a, generate cw = Ok (Some a)).
  { intros f Hsol.
    destruct (generate_steps cw Hwf)
      as (D1 & r & D2 & found & a0 & H1 & Hfit & H2 & HD2 & Hbt & Hg).
    assert (Hin1 : within D1 f).
    { intros x dx Hx. pose proof (dict_get_In _ _ _ Hx) as Hk.
      assert (Hxv : In x (variables cw)).
      { pose proof (enforce_node_consistency_shrinks _ _ _ H1) as Hs.
        apply shrinks_keys in Hs. unfold init_domains in Hs. rewrite keys_map in Hs.
        rewrite <- Hs. apply in_map_iff. exists (x, dx). auto. }
      rewrite (Hfit x Hxv) in Hx. injection Hx as <-. unfold fitting.
      destruct Hsol as (Hw & _ & _). destruct (Hw x Hxv) as [Hd Hl].
      apply filter_In. split; [exact Hd | apply Nat.eqb_eq; exact Hl]. }
    pose proof (ac3_loop_keeps_solution cw f Hsol _ _ _ _ _ Hin1 H2) as Hin2.
    destruct (backtrack_complete cw D2 f Hwf HD2 Hsol Hin2 (backtrack_budget D2) []
                (assignment_ok_nil cw) (fun v w (h : In (v, w) []) => match h with end)
                (unassigned_nil_lt D2)) as [a' Ha'].
    rewrite Ha' in Hbt. injection Hbt as <- <-. eauto. }
  split; [exact G|]. intros Hnone f Hsol. destruct (G f Hsol) as [a Ha]. congruence.
Qed.

Lemma generate_complete_witness :
  well_formed chain_puzzle
  /\ (forall f, solution chain_puzzle f -> exists a, generate chain_puzzle = Ok (Some a))
  /\ (generate chain_puzzle = Ok None -> forall f, ~ solution chain_puzzle f).
Proof.
  split; [exact chain_puzzle_well_formed|].
  exact (generate_complete chain_puzzle chain_puzzle_well_formed).
Defined.

(** ** letter_grid *)

Lemma list_set_inv {A : Type} (l l' : list A) (k : nat) (a : A) :
  list_set l k a = Ok l' ->
  k < length l /\ length l' = length l /\ nth_error l' k = Some a
  /\ forall k', k' <> k -> nth_error l' k' = nth_error l k'.
Proof.
  revert k l'. induction l as [|b l IH]; intros k l' H; simpl in H.
  - destruct k; discriminate.
  - destruct k as [|k].
    + injection H as <-. simpl. repeat split; [lia|].
      intros [|k'] Hne; [congruence | reflexivity].
    + bind_inv H. injection H as <-. destruct (IH _ _ E) as (H1 & H2 & H3 & H4).
      simpl. repeat split; [lia | congruence | exact H3|].
      intros [|k'] Hne; [reflexivity|]. simpl. apply H4. congruence.
Qed.

Lemma list_set_Ok {A : Type} (l : list A) (k : nat) (a : A) :
  k < length l -> exists l', list_set l k a = Ok l'.
Proof.
  revert k. induction l as [|b l IH]; intros k H; simpl in *; [lia|].
  destruct k as [|k]; [eauto|].
  destruct (IH k) as [l' Hl']; [lia|]. rewrite Hl'. simpl. eauto.
Qed.

Lemma list_set_raise {A : Type} (l : list A) (k : nat) (a : A) (e : exn) :
  list_set l k a = Raise e -> e = IndexError.
Proof.
  revert k. induction l as [|b l IH]; intros k H; simpl in H.
  - destruct k; congruence.
  - destruct k as [|k]; [discriminate|].
    destruct (list_set l k a) as [r|e'|] eqn:E; simpl in H; try discriminate.
    injection H as <-. eauto.
Qed.

Lemma list_set_returns {A : Type} (l : list A) (k : nat) (a : A) :
  returns (list_set l k a).
Proof.
  revert k. induction l as [|b l IH]; intros k; simpl.
  - destruct k; apply returns_Raise.
  - destruct k; [apply returns_Ok|]. apply returns_bind; [apply IH|].
    intros; apply returns_Ok.
Qed.

Lemma letters_set_inv (h w : nat) (g g' : Letters) (i j : nat) (c : ascii) :
  dims h w g -> letters_set g i j c = Ok g' ->
  i < h /\ j < w /\ dims h w g'
  /\ letter_at g' (i, j) = Some (Some c)
  /\ forall p, p <> (i, j) -> letter_at g' p = letter_at g p.
Proof.
  intros [Hh Hw] H. unfold letters_set in H.
  destruct (nth_error g i) as [row|] eqn:Er; [|discriminate].
  bind_inv H. destruct (list_set_inv _ _ _ _ E) as (R1 & R2 & R3 & R4).
  destruct (list_set_inv _ _ _ _ H) as (G1 & G2 & G3 & G4).
  rewrite Forall_forall in Hw.
  assert (Hrow : length row = w) by (apply Hw; eapply nth_error_In; eauto).
  repeat split.
  - lia.
  - lia.
  - lia.
  - apply Forall_forall. intros row' Hin. apply In_nth_error in Hin.
    destruct Hin as [n Hn]. destruct (Nat.eq_dec n i) as [->|Hne].
    + rewrite G3 in Hn. injection Hn as <-. lia.
    + rewrite (G4 n Hne) in Hn. apply Hw. eapply nth_error_In; eauto.
  - unfold letter_at. simpl. rewrite G3. exact R3.
  - intros [pi pj] Hp. unfold letter_at. simpl.
    destruct (Nat.eq_dec pi i) as [->|Hne].
    + rewrite G3, Er. apply R4. congruence.
    + rewrite (G4 pi Hne). reflexivity.
Qed.

Lemma letters_set_Ok (h w : nat) (g : Letters) (i j : nat) (c : ascii) :
  dims h w g -> i < h -> j < w -> exists g', letters_set g i j c = Ok g'.
Proof.
  intros [Hh Hw] Hi Hj. unfold letters_set.
  destruct (nth_error g i) as [row|] eqn:Er.
  - rewrite Forall_forall in Hw.
    assert (Hrow : length row = w) by (apply Hw; eapply nth_error_In; eauto).
    destruct (list_set_Ok row j (Some c)) as [row' Hr]; [lia|]. rewrite Hr. simpl.
    apply list_set_Ok. lia.
  - apply nth_error_None in Er. lia.
Qed.

Lemma letters_set_raise (g : Letters) (i j : nat) (c : ascii) (e : exn) :
  letters_set g i j c = Raise e -> e = IndexError.
Proof.
  unfold letters_set. destruct (nth_error g i) as [row|]; [|congruence].
  destruct (list_set row j (Some c)) as [row'|e'|] eqn:E; simpl.
  - apply list_set_raise.
  - intros H. injection H as <-. eapply list_set_raise; eauto.
  - discriminate.
Qed.

Lemma letters_set_returns (g : Letters) (i j : nat) (c : ascii) :
  returns (letters_set g i j c).
Proof.
  unfold letters_set. destruct (nth_error g i); [|apply returns_Raise].
  apply returns_bind; [apply list_set_returns|]. intros; apply list_set_returns.
Qed.

Lemma for_each_app {A S : Type} (body : A -> S -> outcome S) (l1 l2 : list A) (s : S) :
  for_each (l1 ++ l2) body s = (s' <- for_each l1 body s ;; for_each l2 body s').
Proof.
  revert s. induction l1 as [|a l1 IH]; intros s; simpl; [reflexivity|].
  destruct (body a s); simpl; auto.
Qed.

Lemma get_Some_lt (w : string) (k : nat) (c : ascii) :
  String.get k w = Some c -> k < String.length w.
Proof.
  revert k. induction w as [|a w IH]; simpl; intros k H; [discriminate|].
  destruct k as [|k]; [lia|]. apply IH in H. lia.
Qed.

(** [letter_grid] performs the writes of [writes], in order. *)
Lemma letter_grid_writes (h w : nat) (a : Assignment) :
  letter_grid h w a
  = for_each (writes a)
      (fun pc g => letters_set g (fst (fst pc)) (snd (fst pc)) (snd pc))
      (repeat (repeat None w) h).
Proof.
  unfold letter_grid, writes. generalize (repeat (repeat (@None ascii) w) h).
  induction a as [|[v word] a IH]; intros g; simpl; [reflexivity|].
  rewrite for_each_app.
  assert (Hinner : forall ks g0,
            (forall k, In k ks -> k < String.length word) ->
            for_each ks (fun k letters2 =>
              c <- str_index word k ;;
              letters_set letters2 (fst (cell_of v k)) (snd (cell_of v k)) c) g0
            = for_each (flat_map (fun k => match String.get k word with
                                           | Some c => [(cell_of v k, c)]
                                           | None => []
                                           end) ks)
                (fun pc g1 => letters_set g1 (fst (fst pc)) (snd (fst pc)) (snd pc)) g0).
  { induction ks as [|k ks IHk]; intros g0 Hk; simpl; [reflexivity|].
    unfold str_index. destruct (str_index_lt word k (Hk k (or_introl eq_refl))) as [c ->].
    simpl. destruct (letters_set g0 _ _ c); simpl; [|reflexivity|reflexivity].
    apply IHk. intros k' Hk'. apply Hk. right. exact Hk'. }
  rewrite Hinner by (intros k Hk; apply in_seq in Hk; lia).
  match goal with |- bind ?X _ = _ => destruct X as [g1| |] end; simpl;
    [apply IH | reflexivity | reflexivity].
Qed.

Lemma writes_In (a : Assignment) (p : nat * nat) (c : ascii) :
  In (p, c) (writes a) <->
  exists v word k, In (v, word) a /\ String.get k word = Some c /\ p = cell_of v k.
Proof.
  unfold writes. rewrite in_flat_map. split.
  - intros [[v word] [Hin H]]. apply in_flat_map in H. destruct H as [k [_ H]].
    simpl in H. destruct (String.get k word) as [c'|] eqn:G; [|contradiction].
    destruct H as [E|[]]. injection E as <- <-. exists v, word, k. auto.
  - intros (v & word & k & Hin & G & ->). exists (v, word). split; [exact Hin|].
    apply in_flat_map. exists k. split.
    + apply in_seq. apply get_Some_lt in G. simpl. lia.
    + simpl. rewrite G. left. reflexivity.
Qed.

Lemma dims_init (h w : nat) : dims h w (repeat (repeat None w) h).
Proof.
  split; [apply repeat_length|]. apply Forall_forall. intros row Hin.
  apply repeat_spec in Hin. subst. apply repeat_length.
Qed.

Lemma nth_error_repeat_lt {A : Type} (x : A) (n i : nat) :
  i < n -> nth_error (repeat x n) i = Some x.
Proof.
  revert i. induction n as [|n IH]; intros i H; [lia|].
  destruct i as [|i]; simpl; [reflexivity|]. apply IH. lia.
Qed.

Lemma letter_at_init (h w : nat) (p : nat * nat) :
  fst p < h -> snd p < w -> letter_at (repeat (repeat None w) h) p = Some None.
Proof.
  intros Hi Hj. unfold letter_at. rewrite (nth_error_repeat_lt _ _ _ Hi).
  apply nth_error_repeat_lt. exact Hj.
Qed.

Lemma writes_inv (h w : nat) (ws : list ((nat * nat) * ascii)) :
  forall g g',
    dims h w g ->
    for_each ws (fun pc g0 => letters_set g0 (fst (fst pc)) (snd (fst pc)) (snd pc)) g
    = Ok g' ->
    dims h w g'
    /\ (forall p c, In (p, c) ws -> fst p < h /\ snd p < w)
    /\ (forall p, (forall c, ~ In (p, c) ws) -> letter_at g' p = letter_at g p)
    /\ (forall p c, In (p, c) ws -> (forall c', In (p, c') ws -> c' = c) ->
          letter_at g' p = Some (Some c)).
Proof.
  induction ws as [|[[i j] d] ws IH]; simpl; intros g g' Hd H.
  - injection H as <-. split; [exact Hd|]. split; [intros p c []|].
    split; [intros p _; reflexivity | intros p c []].
  - bind_inv H. destruct (letters_set_inv h w g r i j d Hd E) as (Hi & Hj & Hd1 & Hat & Hoth).
    destruct (IH r g' Hd1 H) as (Hd' & Hrange & Hunt & Hread).
    split; [exact Hd'|]. split; [|split].
    + intros p c [Eq|Hin]; [injection Eq as <- <-; auto | eauto].
    + intros p Hno. rewrite Hunt by (intros c Hc; apply (Hno c); auto).
      apply Hoth. intros ->. apply (Hno d). auto.
    + intros p c Hin Hag.
      destruct (in_dec (fun x y : (nat * nat) * ascii =>
                  ltac:(decide equality; [apply Ascii.ascii_dec | decide equality; apply Nat.eq_dec]))
                  (p, c) ws) as [Hws|Hws].
      * apply Hread; [exact Hws|]. intros c' Hc'. apply Hag. auto.
      * destruct Hin as [Eq|Hin]; [|contradiction]. injection Eq as <- <-.
        rewrite Hunt; [exact Hat|]. intros c' Hc'.
        rewrite (Hag c' (or_intror Hc')) in Hc'. contradiction.
Qed.

Lemma writes_Ok (h w : nat) (ws : list ((nat * nat) * ascii)) :
  forall g,
    dims h w g ->
    (forall p c, In (p, c) ws -> fst p < h /\ snd p < w) ->
    exists g',
      for_each ws (fun pc g0 => letters_set g0 (fst (fst pc)) (snd (fst pc)) (snd pc)) g
      = Ok g'.
Proof.
  induction ws as [|[[i j] d] ws IH]; simpl; intros g Hd Hr; [eauto|].
  destruct (Hr (i, j) d (or_introl eq_refl)) as [Hi Hj]. simpl in Hi, Hj.
  destruct (letters_set_Ok h w g i j d Hd Hi Hj) as [g1 Hg1]. rewrite Hg1. simpl.
  destruct (letters_set_inv h w g g1 i j d Hd Hg1) as (_ & _ & Hd1 & _).
  apply IH; [exact Hd1|]. intros p c Hin. apply (Hr p c). right. exact Hin.
Qed.

Lemma fits_writes (h w : nat) (a : Assignment) :
  fits h w a <-> (forall p c, In (p, c) (writes a) -> fst p < h /\ snd p < w).
Proof.
  split.
  - intros Hf p c Hin. apply writes_In in Hin.
    destruct Hin as (v & word & k & Hin & G & ->).
    apply (Hf v word k Hin). eapply get_Some_lt; eauto.
  - intros Hw v word k Hin Hk. destruct (str_index_lt word k Hk) as [c G].
    apply (Hw (cell_of v k) c). apply writes_In. exists v, word, k. auto.
Qed.

(** X12.  [letter_grid] returns an array of [height] rows of [width] cells
    when every bound word lies inside the grid, and raises IndexError as
    soon as a letter falls outside of it. *)
Theorem letter_grid_bounds (h w : nat) (a : Assignment) :
  (fits h w a -> exists letters, letter_grid h w a = Ok letters /\ dims h w letters)
  /\ (~ fits h w a -> letter_grid h w a = Raise IndexError).
Proof.
  rewrite letter_grid_writes. split.
  - intros Hf.
    destruct (writes_Ok h w (writes a) _ (dims_init h w)
                (proj1 (fits_writes h w a) Hf)) as [g Hg].
    exists g. split; [exact Hg|].
    apply (writes_inv h w (writes a) _ g (dims_init h w) Hg).
  - intros Hnf.
    match goal with |- ?X = _ => destruct X as [g|e|] eqn:E end.
    + exfalso. apply Hnf. apply (proj2 (fits_writes h w a)).
      apply (writes_inv h w (writes a) _ g (dims_init h w) E).
    + f_equal. revert E. apply for_each_raise. intros pc g e0.
      apply letters_set_raise.
    + exfalso. revert E. apply for_each_returns. intros pc g.
      apply letters_set_returns.
Qed.

Lemma letter_grid_bounds_witness :
  (fits 3 4 [(top, "AX"); (left, "ABC")]%string
   /\ exists letters,
        letter_grid 3 4 [(top, "AX"); (left, "ABC")]%string = Ok letters
        /\ dims 3 4 letters)
  /\ (~ fits 2 4 [(top, "AX"); (left, "ABC")]%string
      /\ letter_grid 2 4 [(top, "AX"); (left, "ABC")]%string = Raise IndexError).
Proof.
  assert (H1 : fits 3 4 [(top, "AX"); (left, "ABC")]%string).
  { apply (proj2 (fits_writes 3 4 _)). intros p c Hin. simpl in Hin.
    repeat (destruct Hin as [Hin|Hin]; [injection Hin as <- <-; simpl; lia|]).
    contradiction. }
  assert (H2 : ~ fits 2 4 [(top, "AX"); (left, "ABC")]%string).
  { intros Hf. destruct (Hf left "ABC"%string 2) as [Hi _];
      [simpl; auto | simpl; lia | simpl in Hi; lia]. }
  destruct (letter_grid_bounds 3 4 [(top, "AX"); (left, "ABC")]%string) as [Ha _].
  destruct (letter_grid_bounds 2 4 [(top, "AX"); (left, "ABC")]%string) as [_ Hb].
  split; split; auto.
Defined.

Lemma cell_of_inj (v : Var) (k k' : nat) : cell_of v k = cell_of v k' -> k = k'.
Proof.
  unfold cell_of. destruct (var_direction v); intros H; injection H; lia.
Qed.

Lemma NoDup_keys_inj {V : Type} (a : dict V) (v : Var) (w w' : V) :
  NoDup (keys a) -> In (v, w) a -> In (v, w') a -> w = w'.
Proof.
  intros Hnd H1 H2. apply (In_dict_get a v w Hnd) in H1.
  apply (In_dict_get a v w' Hnd) in H2. congruence.
Qed.

(** Where two bound words cross, a consistent assignment writes the same
    letter twice. *)
Lemma consistent_writes_agree (cw : Crossword) (a : Assignment) :
  overlaps_exact cw -> NoDup (keys a) -> incl (keys a) (variables cw) ->
  consistent cw a = Ok true ->
  forall p c c', In (p, c) (writes a) -> In (p, c') (writes a) -> c' = c.
Proof.
  intros Hex Hnd Hk Hc p c c' H1 H2.
  destruct (consistent_true_spec cw a Hc) as (_ & Hlen & Hag).
  apply writes_In in H1, H2.
  destruct H1 as (v & word & k & Hin & G & ->).
  destruct H2 as (v' & word' & k' & Hin' & G' & Hp).
  assert (Hv : In v (variables cw))
    by (apply Hk; apply in_map_iff; exists (v, word); auto).
  assert (Hv' : In v' (variables cw))
    by (apply Hk; apply in_map_iff; exists (v', word'); auto).
  destruct (Var_eqb v v') eqn:Ev.
  - apply Var_eqb_eq in Ev. subst v'.
    rewrite (NoDup_keys_inj a v word word' Hnd Hin Hin') in G.
    apply cell_of_inj in Hp. subst k'. congruence.
  - apply Var_eqb_neq in Ev.
    pose proof (get_Some_lt _ _ _ G) as Hlt. pose proof (get_Some_lt _ _ _ G') as Hlt'.
    rewrite <- (Hlen _ _ Hin) in Hlt. rewrite <- (Hlen _ _ Hin') in Hlt'.
    pose proof (Hex v v' k k' Hv Hv' Ev Hlt Hlt' Hp) as Ht.
    assert (Ht' : overlaps_table cw v' v = Some (k', k))
      by (apply Hex; auto).
    assert (Hn : In v' (neighbors cw v)).
    { unfold neighbors. apply filter_In. split; [exact Hv'|]. rewrite Ht'. simpl.
      rewrite andb_true_r. apply negb_true_iff. apply Var_eqb_neq. congruence. }
    destruct (Hag v word v' word' k k' Hin Hn (In_dict_get a v' word' Hnd Hin') Ht)
      as (c0 & G0 & G0').
    congruence.
Qed.

(** X13.  The array that [letter_grid] returns for a consistent assignment
    shows every bound word in full: the cell of the k-th letter of each bound
    variable holds the k-th letter of its word, and a cell of the grid that
    no bound word covers holds None. *)
Theorem letter_grid_reads_back (cw : Crossword) (h w : nat) (a : Assignment)
  (letters : Letters) :
  overlaps_exact cw ->
  NoDup (keys a) -> incl (keys a) (variables cw) ->
  consistent cw a = Ok true ->
  letter_grid h w a = Ok letters ->
  (forall v word k c,
     In (v, word) a -> String.get k word = Some c ->
     letter_at letters (cell_of v k) = Some (Some c))
  /\ (forall p, fst p < h -> snd p < w ->
        (forall v word k, In (v, word) a -> k < String.length word -> cell_of v k <> p) ->
        letter_at letters p = Some None).
Proof.
  intros Hex Hnd Hk Hc Hrun. rewrite letter_grid_writes in Hrun.
  destruct (writes_inv h w (writes a) _ letters (dims_init h w) Hrun)
    as (_ & _ & Hunt & Hread).
  split.
  - intros v word k c Hin G. apply Hread.
    + apply writes_In. exists v, word, k. auto.
    + intros c' Hc'. eapply consistent_writes_agree; eauto.
      apply writes_In. exists v, word, k. auto.
  - intros p Hi Hj Hfree. rewrite Hunt; [apply letter_at_init; assumption|].
    intros c Hin. apply writes_In in Hin.
    destruct Hin as (v & word & k & Hin & G & ->).
    apply (Hfree v word k Hin); [eapply get_Some_lt; eauto | reflexivity].
Qed.

Ltac bounded k :=
  repeat (destruct k as [|k]; [|simpl in *; try lia]).

Lemma chain_puzzle_exact : overlaps_exact chain_puzzle.
Proof.
  intros x y k1 k2 Hx Hy Hne Hk1 Hk2 Hc.
  concrete_vars Hx; concrete_vars Hy; try congruence;
    simpl in Hk1, Hk2; bounded k1; bounded k2;
    try discriminate Hc; reflexivity.
Qed.

Lemma letter_grid_reads_back_witness :
  overlaps_exact chain_puzzle
  /\ NoDup (keys [(bottom, "CAAA"); (left, "ABC"); (top, "AX")]%string)
  /\ incl (keys [(bottom, "CAAA"); (left, "ABC"); (top, "AX")]%string)
          (variables chain_puzzle)
  /\ consistent chain_puzzle [(bottom, "CAAA"); (left, "ABC"); (top, "AX")]%string
     = Ok true
  /\ letter_grid 3 4 [(bottom, "CAAA"); (left, "ABC"); (top, "AX")]%string
     = Ok [[Some "A"; Some "X"; None; None];
           [Some "B"; None; None; None];
           [Some "C"; Some "A"; Some "A"; Some "A"]]%char
  /\ letter_at [[Some "A"; Some "X"; None; None];
                [Some "B"; None; None; None];
                [Some "C"; Some "A"; Some "A"; Some "A"]]%char (cell_of left 2)
     = Some (Some "C"%char).
Proof.
  assert (H2 : NoDup (keys [(bottom, "CAAA"); (left, "ABC"); (top, "AX")]%string))
    by concrete_set.
  assert (H3 : incl (keys [(bottom, "CAAA"); (left, "ABC"); (top, "AX")]%string)
                    (variables chain_puzzle))
    by (intros v Hv; simpl in *; tauto).
  assert (H4 : consistent chain_puzzle
                 [(bottom, "CAAA"); (left, "ABC"); (top, "AX")]%string = Ok true)
    by (vm_compute; reflexivity).
  assert (H5 : letter_grid 3 4 [(bottom, "CAAA"); (left, "ABC"); (top, "AX")]%string
               = Ok [[Some "A"; Some "X"; None; None];
                     [Some "B"; None; None; None];
                     [Some "C"; Some "A"; Some "A"; Some "A"]]%char)
    by (vm_compute; reflexivity).
  split; [exact chain_puzzle_exact|]. repeat (split; [assumption|]).
  destruct (letter_grid_reads_back chain_puzzle 3 4 _ _ chain_puzzle_exact H2 H3 H4 H5)
    as [Hr _].
  apply (Hr left "ABC"%string 2 "C"%char); [simpl; auto | reflexivity].
Defined.

(** ** backtrack: depth of the recursion *)

Lemma backtrack_words_same (cw : Crossword)
  (rec1 rec2 : Assignment -> outcome (bool * Assignment)) (v : Var) :
  (forall a1, returns (rec1 a1) -> rec2 a1 = rec1 a1) ->
  forall ws a,
    returns (backtrack_words cw rec1 v ws a) ->
    backtrack_words cw rec2 v ws a = backtrack_words cw rec1 v ws a.
Proof.
  intros Hrec. induction ws as [|w ws IH]; intros a Hr; simpl in *; [reflexivity|].
  destruct (consistent cw (dict_set a v w)) as [c| |]; simpl in *; try reflexivity.
  destruct c.
  - destruct (rec1 (dict_set a v w)) as [[result a2]| |] eqn:E1; simpl in *.
    + rewrite (Hrec (dict_set a v w)) by (rewrite E1; apply returns_Ok).
      rewrite E1. simpl. destruct result.
      * destruct (consistent cw a2) as [c2| |]; simpl in *; try reflexivity.
        destruct c2; [reflexivity|].
        destruct (dict_del a2 v) as [a3| |]; simpl in *; try reflexivity.
        apply IH. exact Hr.
      * destruct (dict_del a2 v) as [a3| |]; simpl in *; try reflexivity.
        apply IH. exact Hr.
    + rewrite (Hrec (dict_set a v w)) by (rewrite E1; apply returns_Raise).
      rewrite E1. reflexivity.
    + exfalso. apply Hr. reflexivity.
  - destruct (dict_del (dict_set a v w) v) as [a3| |]; simpl in *; try reflexivity.
    apply IH. exact Hr.
Qed.

Lemma backtrack_fuel_irrelevant (cw : Crossword) (D : Domains) :
  forall fuel a,
    returns (backtrack cw D fuel a) ->
    forall fuel', fuel <= fuel' -> backtrack cw D fuel' a = backtrack cw D fuel a.
Proof.
  induction fuel as [|fuel IH]; intros a Hr fuel' Hle.
  - exfalso. apply Hr. reflexivity.
  - destruct fuel' as [|fuel']; [lia|]. simpl in *.
    destruct (assignment_complete cw a) as [c| |]; simpl in *; try reflexivity.
    destruct c; [reflexivity|].
    destruct (select_unassigned_variable cw D a) as [v|]; [|reflexivity].
    destruct (order_domain_values cw D v a) as [ws| |]; simpl in *; try reflexivity.
    apply backtrack_words_same; [|exact Hr].
    intros a1 Hr1. apply IH; [exact Hr1 | lia].
Qed.

(** X14.  The recursion of [backtrack] is never deeper than the number of
    variables still unassigned, plus one: with that bound the call ends
    with a value or an exception, and a larger bound gives the same
    result. *)
Theorem backtrack_terminates (cw : Crossword) (D : Domains) (a : Assignment)
  (fuel : nat) :
  length (unassigned D a) < fuel ->
  backtrack cw D fuel a = backtrack cw D (S (length (unassigned D a))) a
  /\ ((exists res, backtrack cw D fuel a = Ok res)
      \/ (exists e, backtrack cw D fuel a = Raise e)).
Proof.
  intros Hf.
  assert (Hr : returns (backtrack cw D (S (length (unassigned D a))) a))
    by (apply backtrack_returns_unassigned; lia).
  assert (E : backtrack cw D fuel a = backtrack cw D (S (length (unassigned D a))) a)
    by (apply backtrack_fuel_irrelevant; [exact Hr | lia]).
  split; [exact E|]. rewrite E.
  destruct (backtrack cw D (S (length (unassigned D a))) a) as [res|e|]; eauto.
  exfalso. apply Hr. reflexivity.
Qed.

Lemma backtrack_terminates_witness :
  length (unassigned chain_store_ac3 []) < 10
  /\ backtrack chain_puzzle chain_store_ac3 10 []
     = backtrack chain_puzzle chain_store_ac3
         (S (length (unassigned chain_store_ac3 []))) []
  /\ ((exists res, backtrack chain_puzzle chain_store_ac3 10 [] = Ok res)
      \/ (exists e, backtrack chain_puzzle chain_store_ac3 10 [] = Raise e)).
Proof.
  assert (H : length (unassigned chain_store_ac3 []) < 10) by (vm_compute; lia).
  split; [exact H|]. exact (backtrack_terminates chain_puzzle chain_store_ac3 [] 10 H).
Defined.

(** ** revise, twice *)

Lemma filter_filter {A : Type} (p : A -> bool) (l : list A) :
  filter p (filter p l) = filter p l.
Proof.
  induction l as [|a l IH]; simpl; [reflexivity|].
  destruct (p a) eqn:E; simpl; [rewrite E, IH|]; auto.
Qed.

Lemma forallb_filter {A : Type} (p : A -> bool) (l : list A) :
  forallb p (filter p l) = true.
Proof.
  apply forallb_forall. intros x Hx. apply filter_In in Hx. tauto.
Qed.

(** X15.  On a store of the pipeline, a second [revise(x, y)] right after
    the first finds nothing to remove: it returns False and leaves the store
    as the first call left it. *)
Theorem revise_twice (cw : Crossword) (x y : Var) (D : Domains) :
  overlaps_in_range cw -> store_ok cw D ->
  In x (variables cw) -> In y (variables cw) -> x <> y ->
  exists b D1,
    revise cw x y D = Ok (b, D1) /\ revise cw x y D1 = Ok (false, D1).
Proof.
  intros Hr HD Hx Hy Hxy.
  destruct (overlaps_table cw x y) as [[kx ky]|] eqn:Et.
  - assert (Ho : overlaps cw x y = Ok (Some (kx, ky))) by (apply overlaps_Ok; auto).
    destruct (store_ok_has _ _ _ HD Hx) as [dx Hdx].
    destruct (store_ok_has _ _ _ HD Hy) as [dy Hdy].
    destruct (store_ok_get _ _ _ _ HD Hdx) as (Hnd & _ & _).
    destruct (store_ok_indexable cw D Hr HD _ _ _ _ _ _ Ho Hdx Hdy) as [H1 H2].
    apply Forall_forall in H1. apply Forall_forall in H2.
    pose proof (revise_exact cw x y D kx ky dx dy Ho Hdx Hdy Hnd H1 H2) as Hfirst.
    do 2 eexists. split; [exact Hfirst|].
    rewrite (revise_exact cw x y _ kx ky (filter (supported_b kx ky dy) dx) dy Ho).
    + rewrite forallb_filter, filter_filter, dict_set_set. reflexivity.
    + apply dict_get_set_same.
    + rewrite dict_get_set_other by exact Hxy. exact Hdy.
    + apply NoDup_filter. exact Hnd.
    + apply Forall_forall. intros w Hw. apply filter_In in Hw.
      rewrite Forall_forall in H1. apply H1. tauto.
    + exact H2.
  - exists false, D. unfold revise.
    assert (Ho : overlaps cw x y = Ok None) by (apply overlaps_Ok; auto).
    rewrite Ho. auto.
Qed.

Lemma chain_store_ok : store_ok chain_puzzle chain_store.
Proof.
  destruct (store_ok_fresh chain_puzzle) as (D1 & H1 & HD1 & _);
    [concrete_set | concrete_set |].
  assert (E : enforce_node_consistency chain_puzzle (init_domains chain_puzzle)
              = Ok chain_store) by (vm_compute; reflexivity).
  rewrite E in H1. injection H1 as <-. exact HD1.
Qed.

Lemma revise_twice_witness :
  overlaps_in_range chain_puzzle /\ store_ok chain_puzzle chain_store
  /\ In left (variables chain_puzzle) /\ In top (variables chain_puzzle)
  /\ left <> top
  /\ exists b D1,
       revise chain_puzzle left top chain_store = Ok (b, D1)
       /\ revise chain_puzzle left top D1 = Ok (false, D1).
Proof.
  assert (H1 : overlaps_in_range chain_puzzle) by apply grid_overlaps_in_range.
  assert (H3 : In left (variables chain_puzzle)) by (simpl; auto).
  assert (H4 : In top (variables chain_puzzle)) by (simpl; auto).
  assert (H5 : left <> top) by discriminate.
  split; [exact H1|]. split; [exact chain_store_ok|].
  repeat (split; [assumption|]).
  exact (revise_twice chain_puzzle left top chain_store H1 chain_store_ok H3 H4 H5).
Defined.

(** ** consistent does not depend on the order of the bindings *)

Lemma consistent_spec_perm (cw : Crossword) (a a' : Assignment) :
  NoDup (keys a) -> Permutation a a' -> consistent_spec cw a -> consistent_spec cw a'.
Proof.
  intros Hnd Hp (Hw & Hlen & Hag). split; [|split].
  - eapply Permutation_NoDup; [apply Permutation_map; exact Hp | exact Hw].
  - intros v w Hin. apply Hlen. eapply Permutation_in; [symmetry; exact Hp | exact Hin].
  - intros v w n wn k0 k1 Hin Hn Hg Ho. apply (Hag v w n wn).
    + eapply Permutation_in; [symmetry; exact Hp | exact Hin].
    + exact Hn.
    + apply In_dict_get; [exact Hnd|].
      eapply Permutation_in; [symmetry; exact Hp | apply dict_get_In; exact Hg].
    + exact Ho.
Qed.

(** X16.  The verdict of [consistent] does not depend on the order in which
    the bindings were inserted: two dicts with the same bindings (of
    distinct variables of the crossword) are both consistent or both not. *)
Theorem consistent_order_independent (cw : Crossword) (a a' : Assignment) :
  NoDup (keys a) -> incl (keys a) (variables cw) -> Permutation a a' ->
  (consistent cw a = Ok true <-> consistent cw a' = Ok true).
Proof.
  intros Hnd Hk Hp.
  assert (Hpk : Permutation (keys a) (keys a')) by (apply Permutation_map; exact Hp).
  assert (Hnd' : NoDup (keys a')) by (eapply Permutation_NoDup; eauto).
  assert (Hk' : incl (keys a') (variables cw)).
  { intros v Hv. apply Hk. eapply Permutation_in; [symmetry; exact Hpk | exact Hv]. }
  split; intros H; apply consistent_true_spec in H.
  - apply consistent_spec_true; [exact Hk'|].
    exact (consistent_spec_perm cw a a' Hnd Hp H).
  - apply consistent_spec_true; [exact Hk|].
    exact (consistent_spec_perm cw a' a Hnd' (Permutation_sym Hp) H).
Qed.

Lemma consistent_order_independent_witness :
  NoDup (keys [(bottom, "CAAA"); (left, "ABC")]%string)
  /\ incl (keys [(bottom, "CAAA"); (left, "ABC")]%string) (variables chain_puzzle)
  /\ Permutation [(bottom, "CAAA"); (left, "ABC")]%string
                 [(left, "ABC"); (bottom, "CAAA")]%string
  /\ (consistent chain_puzzle [(bottom, "CAAA"); (left, "ABC")]%string = Ok true
      <-> consistent chain_puzzle [(left, "ABC"); (bottom, "CAAA")]%string = Ok true).
Proof.
  assert (H1 : NoDup (keys [(bottom, "CAAA"); (left, "ABC")]%string)) by concrete_set.
  assert (H2 : incl (keys [(bottom, "CAAA"); (left, "ABC")]%string)
                    (variables chain_puzzle))
    by (intros v Hv; simpl in *; tauto).
  assert (H3 : Permutation [(bottom, "CAAA"); (left, "ABC")]%string
                           [(left, "ABC"); (bottom, "CAAA")]%string)
    by apply perm_swap.
  repeat (split; [assumption|]).
  exact (consistent_order_independent chain_puzzle _ _ H1 H2 H3).
Defined.

(** ** consistent survives the undoing of a binding *)

Lemma dict_del_split {V : Type} (d d' : dict V) (k : Var) :
  dict_del d k = Ok d' ->
  exists l1 v l2, d = l1 ++ (k, v) :: l2 /\ d' = l1 ++ l2.
Proof.
  revert d'. induction d as [|[k' v'] d IH]; simpl; intros d' H; [discriminate|].
  destruct (Var_eqb k' k) eqn:E.
  - apply Var_eqb_eq in E. subst k'. injection H as <-. exists [], v', d. auto.
  - bind_inv H. injection H as <-. destruct (IH _ E0) as (l1 & v & l2 & -> & ->).
    exists ((k', v') :: l1), v, l2. auto.
Qed.

(** X17.  Undoing a binding keeps an assignment consistent: if [consistent]
    returns True on a dict (of distinct variables of the crossword), it still
    returns True after [del assignment[var]]. *)
Theorem consistent_after_del (cw : Crossword) (a a' : Assignment) (v : Var) :
  NoDup (keys a) -> incl (keys a) (variables cw) ->
  consistent cw a = Ok true ->
  dict_del a v = Ok a' ->
  consistent cw a' = Ok true.
Proof.
  intros Hnd Hk Hc Hdel. destruct (dict_del_split _ _ _ Hdel) as (l1 & w & l2 & -> & ->).
  destruct (consistent_true_spec _ _ Hc) as (Hw & Hlen & Hag).
  assert (Hsub : incl (l1 ++ l2) (l1 ++ (v, w) :: l2)).
  { intros p Hp. apply in_app_iff in Hp. apply in_app_iff. simpl. tauto. }
  apply consistent_spec_true.
  - intros k Hin. apply Hk. unfold keys in *. apply in_map_iff in Hin.
    destruct Hin as [p [E Hp]]. apply in_map_iff. exists p. auto.
  - split; [|split].
    + rewrite map_app in *. simpl in Hw. eapply NoDup_remove_1; eauto.
    + intros v0 w0 Hin. apply Hlen. auto.
    + intros v0 w0 n wn k0 k1 Hin Hn Hg Ho. apply (Hag v0 w0 n wn); auto.
      apply In_dict_get; [exact Hnd|]. apply Hsub. apply dict_get_In. exact Hg.
Qed.

Lemma consistent_after_del_witness :
  NoDup (keys [(bottom, "CAAA"); (left, "ABC"); (top, "AX")]%string)
  /\ incl (keys [(bottom, "CAAA"); (left, "ABC"); (top, "AX")]%string)
          (variables chain_puzzle)
  /\ consistent chain_puzzle [(bottom, "CAAA"); (left, "ABC"); (top, "AX")]%string
     = Ok true
  /\ dict_del [(bottom, "CAAA"); (left, "ABC"); (top, "AX")]%string left
     = Ok [(bottom, "CAAA"); (top, "AX")]%string
  /\ consistent chain_puzzle [(bottom, "CAAA"); (top, "AX")]%string = Ok true.
Proof.
  assert (H1 : NoDup (keys [(bottom, "CAAA"); (left, "ABC"); (top, "AX")]%string))
    by concrete_set.
  assert (H2 : incl (keys [(bottom, "CAAA"); (left, "ABC"); (top, "AX")]%string)
                    (variables chain_puzzle))
    by (intros v Hv; simpl in *; tauto).
  assert (H3 : consistent chain_puzzle
                 [(bottom, "CAAA"); (left, "ABC"); (top, "AX")]%string = Ok true)
    by (vm_compute; reflexivity).
  assert (H4 : dict_del [(bottom, "CAAA"); (left, "ABC"); (top, "AX")]%string left
               = Ok [(bottom, "CAAA"); (top, "AX")]%string)
    by (vm_compute; reflexivity).
  repeat (split; [assumption|]).
  exact (consistent_after_del chain_puzzle _ _ left H1 H2 H3 H4).
Defined.
